(** * alsa-lib, [src/pcm/pcm_local.h]: ring-buffer pointer arithmetic,
      fast-ops dispatch and the [muldiv] helpers

    A shallow embedding of the inline functions of [pcm_local.h].

    - [snd_pcm_uframes_t] is [unsigned long] and [snd_pcm_sframes_t] is
      [long]; both are 64 bits wide here (the specification's ring-buffer
      state is made of [u64] fields).  Values are integers of [Z]; every
      C operation on them is followed by the wrap-around of its type.
    - [int] is 32 bits wide; signed [int] overflow is undefined in C and
      is modelled as [None].
    - A callback of [snd_pcm_fast_ops_t] is a function on a [World] (all
      the memory a plugin can reach); the dispatch wrappers run in a
      state monad over the world and a log of the callbacks entered.

    After [pcm_local.h] come the dB conversions of [src/control/tlv.c]
    and two helpers of [ump.c], embedded in the same way. *)

From Stdlib Require Import ZArith Lia Bool List.
Import ListNotations.
Local Open Scope Z_scope.

(** ** Machine integers *)

Definition LONG_BIT : Z := 64.
Definition ULONG_MAX : Z := 2 ^ LONG_BIT - 1.
Definition LONG_MAX : Z := 2 ^ (LONG_BIT - 1) - 1.
Definition LONG_MIN : Z := - 2 ^ (LONG_BIT - 1).
Definition INT_MAX : Z := 2 ^ 31 - 1.
Definition INT_MIN : Z := - 2 ^ 31.

(** Conversion to [snd_pcm_uframes_t]: reduction modulo [2^64]. *)
Definition to_uframes (x : Z) : Z := x mod 2 ^ LONG_BIT.

(** Conversion to [snd_pcm_sframes_t]: the two's complement reading. *)
Definition to_sframes (x : Z) : Z :=
  (x + 2 ^ (LONG_BIT - 1)) mod 2 ^ LONG_BIT - 2 ^ (LONG_BIT - 1).

(** [+] and [-] at type [snd_pcm_uframes_t]. *)
Definition uframes_add (x y : Z) : Z := to_uframes (x + y).
Definition uframes_sub (x y : Z) : Z := to_uframes (x - y).

(** A value that fits [snd_pcm_uframes_t]. *)
Definition is_uframes (x : Z) : Prop := 0 <= x <= ULONG_MAX.

(** Signed [int] arithmetic: a result outside the type is undefined. *)
Definition int_result (x : Z) : option Z :=
  if (INT_MIN <=? x) && (x <=? INT_MAX) then Some x else None.

(** ** errno values ([<errno.h>], Linux numbering) *)

Definition EINTR : Z := 4.
Definition ENODEV : Z := 19.
Definition EPIPE : Z := 32.
Definition ENOSYS : Z := 38.
Definition ESTRPIPE : Z := 86.

(** ** Enumerations of [include/pcm.h] *)

Inductive snd_pcm_stream_t : Type :=
| SND_PCM_STREAM_PLAYBACK
| SND_PCM_STREAM_CAPTURE.

Inductive snd_pcm_state_t : Type :=
| SND_PCM_STATE_OPEN
| SND_PCM_STATE_SETUP
| SND_PCM_STATE_PREPARED
| SND_PCM_STATE_RUNNING
| SND_PCM_STATE_XRUN
| SND_PCM_STATE_DRAINING
| SND_PCM_STATE_PAUSED
| SND_PCM_STATE_SUSPENDED
| SND_PCM_STATE_DISCONNECTED.

(** The members of [snd_pcm_fast_ops_t] that [pcm_local.h] dispatches to. *)
Inductive fast_op : Type :=
| OP_start | OP_state | OP_hwsync | OP_delay
| OP_writei | OP_writen | OP_readi | OP_readn
| OP_avail_update | OP_may_wait_for_avail_min.

(** ** [muldiv], [muldiv_near] *)

(** [muldiv a b c] is the pair of the returned value and of [*r].  The
    product of two [int]s fits [int64_t]; division by zero is undefined. *)
Definition muldiv (a b c : Z) : option (Z * Z) :=
  if c =? 0 then None
  else
    let n := a * b in
    let v := n ÷ c in
    if v >? INT_MAX then Some (INT_MAX, 0)
    else if v <? INT_MIN then Some (INT_MIN, 0)
    else Some (v, Z.rem n c).

Definition muldiv_near (a b c : Z) : option Z :=
  match muldiv a b c with
  | None => None
  | Some (n, r) =>
      match int_result (c + 1) with
      | None => None
      | Some c1 => if r >=? c1 ÷ 2 then int_result (n + 1) else Some n
      end
  end.

(** [m] is the integer nearest to the rational [n / c] (for [0 < c]),
    the larger one when two integers are equally near. *)
Definition nearest_ties_up (n c m : Z) : Prop :=
  (forall k, Z.abs (m * c - n) <= Z.abs (k * c - n)) /\
  (forall k, Z.abs (k * c - n) = Z.abs (m * c - n) -> k <= m).

(** ** [pcm_frame_diff] *)

Definition pcm_frame_diff (ptr1 ptr2 boundary : Z) : Z :=
  if ptr1 <? ptr2
  then to_sframes (uframes_add ptr1 (uframes_sub boundary ptr2))
  else to_sframes (uframes_sub ptr1 ptr2).

Section PCM.

Context {World : Type}.

(** ** The state monad of the dispatch wrappers *)

Record machine : Type := Machine {
  world : World;
  calls : list fast_op            (* callbacks entered, latest first *)
}.

Definition callback (R : Type) : Type := World -> R * World.

Definition M (R : Type) : Type := machine -> R * machine.

Definition ret {R : Type} (r : R) : M R := fun m => (r, m).

Definition bind {R S : Type} (c : M R) (k : R -> M S) : M S :=
  fun m => let (r, m') := c m in k r m'.

(** Calling through a function pointer of the table. *)
Definition invoke {R : Type} (op : fast_op) (cb : callback R) : M R :=
  fun m =>
    let (r, w) := cb (world m) in
    (r, {| world := w; calls := op :: calls m |}).

(** ** [snd_pcm_fast_ops_t] and [snd_pcm_t]

    A NULL member is [None].  Pointers ([fast_op_arg], buffers, [delayp])
    are addresses. *)
Record snd_pcm_fast_ops_t : Type := {
  start : option (Z -> callback Z);
  state : option (Z -> callback snd_pcm_state_t);
  hwsync : option (Z -> callback Z);
  delay : option (Z -> Z -> callback Z);
  writei : option (Z -> Z -> Z -> callback Z);
  writen : option (Z -> Z -> Z -> callback Z);
  readi : option (Z -> Z -> Z -> callback Z);
  readn : option (Z -> Z -> Z -> callback Z);
  avail_update : option (Z -> callback Z);
  may_wait_for_avail_min : option (Z -> Z -> callback Z)
}.

(** The fields of [struct _snd_pcm] read by the functions below;
    [appl_ptr] and [hw_ptr] are the values [*pcm->appl.ptr] and
    [*pcm->hw.ptr]. *)
Record snd_pcm_t : Type := {
  stream : snd_pcm_stream_t;
  avail_min : Z;
  boundary : Z;
  buffer_size : Z;
  appl_ptr : Z;
  hw_ptr : Z;
  fast_ops : snd_pcm_fast_ops_t;
  fast_op_arg : Z
}.

(** ** Dispatch wrappers *)

Definition __snd_pcm_avail_update (pcm : snd_pcm_t) : M Z :=
  match avail_update (fast_ops pcm) with
  | None => ret (- ENOSYS)
  | Some cb => invoke OP_avail_update (cb (fast_op_arg pcm))
  end.

Definition __snd_pcm_start (pcm : snd_pcm_t) : M Z :=
  match start (fast_ops pcm) with
  | None => ret (- ENOSYS)
  | Some cb => invoke OP_start (cb (fast_op_arg pcm))
  end.

Definition __snd_pcm_state (pcm : snd_pcm_t) : M snd_pcm_state_t :=
  match state (fast_ops pcm) with
  | None => ret SND_PCM_STATE_OPEN
  | Some cb => invoke OP_state (cb (fast_op_arg pcm))
  end.

Definition __snd_pcm_hwsync (pcm : snd_pcm_t) : M Z :=
  match hwsync (fast_ops pcm) with
  | None => ret (- ENOSYS)
  | Some cb => invoke OP_hwsync (cb (fast_op_arg pcm))
  end.

Definition __snd_pcm_delay (pcm : snd_pcm_t) (delayp : Z) : M Z :=
  match delay (fast_ops pcm) with
  | None => ret (- ENOSYS)
  | Some cb => invoke OP_delay (cb (fast_op_arg pcm) delayp)
  end.

Definition _snd_pcm_writei (pcm : snd_pcm_t) (buffer size : Z) : M Z :=
  match writei (fast_ops pcm) with
  | None => ret (- ENOSYS)
  | Some cb => invoke OP_writei (cb (fast_op_arg pcm) buffer size)
  end.

Definition _snd_pcm_writen (pcm : snd_pcm_t) (bufs size : Z) : M Z :=
  match writen (fast_ops pcm) with
  | None => ret (- ENOSYS)
  | Some cb => invoke OP_writen (cb (fast_op_arg pcm) bufs size)
  end.

Definition _snd_pcm_readi (pcm : snd_pcm_t) (buffer size : Z) : M Z :=
  match readi (fast_ops pcm) with
  | None => ret (- ENOSYS)
  | Some cb => invoke OP_readi (cb (fast_op_arg pcm) buffer size)
  end.

Definition _snd_pcm_readn (pcm : snd_pcm_t) (bufs size : Z) : M Z :=
  match readn (fast_ops pcm) with
  | None => ret (- ENOSYS)
  | Some cb => invoke OP_readn (cb (fast_op_arg pcm) bufs size)
  end.

(** Handle special error cases. *)
Definition snd_pcm_check_error (pcm : snd_pcm_t) (err : Z) : M Z :=
  if err =? - EINTR then
    bind (__snd_pcm_state pcm) (fun st =>
      match st with
      | SND_PCM_STATE_XRUN => ret (- EPIPE)
      | SND_PCM_STATE_SUSPENDED => ret (- ESTRPIPE)
      | SND_PCM_STATE_DISCONNECTED => ret (- ENODEV)
      | _ => ret err
      end)
  else ret err.

(** Return true if the PCM stream may wait to get [avail_min] space. *)
Definition snd_pcm_may_wait_for_avail_min (pcm : snd_pcm_t) (avail : Z) : M Z :=
  if avail >=? avail_min pcm then ret 0
  else
    match may_wait_for_avail_min (fast_ops pcm) with
    | Some cb => invoke OP_may_wait_for_avail_min (cb (fast_op_arg pcm) avail)
    | None => ret 1
    end.

(** ** Available frames *)

Definition __snd_pcm_playback_avail (pcm : snd_pcm_t) (hw_ptr appl_ptr : Z) : Z :=
  let avail := to_sframes (uframes_sub (uframes_add hw_ptr (buffer_size pcm)) appl_ptr) in
  let avail :=
    if avail <? 0 then to_sframes (uframes_add (to_uframes avail) (boundary pcm))
    else if to_uframes avail >=? boundary pcm
         then to_sframes (uframes_sub (to_uframes avail) (boundary pcm))
         else avail in
  to_uframes avail.

Definition snd_pcm_mmap_playback_avail (pcm : snd_pcm_t) : Z :=
  __snd_pcm_playback_avail pcm (hw_ptr pcm) (appl_ptr pcm).

Definition __snd_pcm_capture_avail (pcm : snd_pcm_t) (hw_ptr appl_ptr : Z) : Z :=
  let avail := to_sframes (uframes_sub hw_ptr appl_ptr) in
  let avail :=
    if avail <? 0 then to_sframes (uframes_add (to_uframes avail) (boundary pcm))
    else avail in
  to_uframes avail.

Definition snd_pcm_mmap_capture_avail (pcm : snd_pcm_t) : Z :=
  __snd_pcm_capture_avail pcm (hw_ptr pcm) (appl_ptr pcm).

Definition __snd_pcm_avail (pcm : snd_pcm_t) (hw_ptr appl_ptr : Z) : Z :=
  match stream pcm with
  | SND_PCM_STREAM_PLAYBACK => __snd_pcm_playback_avail pcm hw_ptr appl_ptr
  | SND_PCM_STREAM_CAPTURE => __snd_pcm_capture_avail pcm hw_ptr appl_ptr
  end.

Definition snd_pcm_mmap_avail (pcm : snd_pcm_t) : Z :=
  __snd_pcm_avail pcm (hw_ptr pcm) (appl_ptr pcm).

(** Frames available to the hardware; the results are [snd_pcm_sframes_t]. *)
Definition snd_pcm_mmap_playback_hw_avail (pcm : snd_pcm_t) : Z :=
  to_sframes (uframes_sub (buffer_size pcm) (snd_pcm_mmap_playback_avail pcm)).

Definition snd_pcm_mmap_capture_hw_avail (pcm : snd_pcm_t) : Z :=
  to_sframes (uframes_sub (buffer_size pcm) (snd_pcm_mmap_capture_avail pcm)).

Definition snd_pcm_mmap_hw_avail (pcm : snd_pcm_t) : Z :=
  to_sframes (uframes_sub (buffer_size pcm) (snd_pcm_mmap_avail pcm)).

Definition snd_pcm_mmap_playback_hw_rewindable (pcm : snd_pcm_t) : Z :=
  let ret := snd_pcm_mmap_playback_hw_avail pcm in
  if ret >=? 0 then ret else 0.

Definition snd_pcm_mmap_capture_hw_rewindable (pcm : snd_pcm_t) : Z :=
  let ret := snd_pcm_mmap_capture_hw_avail pcm in
  if ret >=? 0 then ret else 0.

(** This one returns [snd_pcm_uframes_t]. *)
Definition snd_pcm_mmap_hw_rewindable (pcm : snd_pcm_t) : Z :=
  let ret := snd_pcm_mmap_hw_avail pcm in
  to_uframes (if ret >=? 0 then ret else 0).

(** ** Moving the pointers

    [snd_pcm_mmap_appl_forward] and [snd_pcm_mmap_hw_forward] are only
    declared in [pcm_local.h]; their bodies ([pcm_mmap.c]) and
    [snd_pcm_prepare] ([pcm.c]) are modelled from the specification. *)

Definition with_appl_ptr (pcm : snd_pcm_t) (p : Z) : snd_pcm_t :=
  {| stream := stream pcm; avail_min := avail_min pcm;
     boundary := boundary pcm; buffer_size := buffer_size pcm;
     appl_ptr := p; hw_ptr := hw_ptr pcm;
     fast_ops := fast_ops pcm; fast_op_arg := fast_op_arg pcm |}.

Definition with_hw_ptr (pcm : snd_pcm_t) (p : Z) : snd_pcm_t :=
  {| stream := stream pcm; avail_min := avail_min pcm;
     boundary := boundary pcm; buffer_size := buffer_size pcm;
     appl_ptr := appl_ptr pcm; hw_ptr := p;
     fast_ops := fast_ops pcm; fast_op_arg := fast_op_arg pcm |}.

(** Modelled from the spec: the body of [snd_pcm_mmap_appl_forward]
    ([pcm_mmap.c]).  Section 4.3, [advance_appl_ptr(delta)]: moves
    [appl_ptr] forward by [delta] frames modulo [boundary]. *)
Definition advance_appl_ptr (pcm : snd_pcm_t) (delta : Z) : snd_pcm_t :=
  with_appl_ptr pcm ((appl_ptr pcm + delta) mod boundary pcm).

(** Modelled from the spec: the body of [snd_pcm_mmap_hw_forward]
    ([pcm_mmap.c]).  Section 4.3, [advance_hw_ptr(delta)]: called when the
    hardware reports progress; same modulo discipline. *)
Definition advance_hw_ptr (pcm : snd_pcm_t) (delta : Z) : snd_pcm_t :=
  with_hw_ptr pcm ((hw_ptr pcm + delta) mod boundary pcm).

(** Modelled from the spec: the choice of [boundary] made when the
    hardware parameters are installed (kernel side).  Sections 3 and 4.3:
    [boundary] is a multiple of [buffer_size], representable without
    overflow ambiguity in the pointer width used, so that ahead and behind
    are told apart with signed-difference arithmetic. *)
Definition boundary_chosen (pcm : snd_pcm_t) : Prop :=
  0 < buffer_size pcm /\
  0 < boundary pcm /\
  boundary pcm mod buffer_size pcm = 0 /\
  boundary pcm + buffer_size pcm <= LONG_MAX.


(** One pointer advance, by the application or by the hardware. *)
Inductive advance : Type :=
| Appl (delta : Z)
| Hw (delta : Z).

(** Modelled from the spec: the callers of the two forward functions
    ([pcm.c], [pcm_mmap.c] and the driver).  Section 4.3: [appl_ptr] must
    never be advanced past the available space, which the caller checks
    before calling; [hw_ptr] is advanced when the hardware reports
    progress, with the same modulo discipline and no other bound -- the
    hardware running past the application is an xrun, a state the
    stream can reach. *)
Definition do_advance (pcm : snd_pcm_t) (a : advance) : option snd_pcm_t :=
  match a with
  | Appl delta =>
      if (0 <=? delta) && (delta <=? snd_pcm_mmap_avail pcm)
      then Some (advance_appl_ptr pcm delta) else None
  | Hw delta =>
      if 0 <=? delta
      then Some (advance_hw_ptr pcm delta) else None
  end.

Inductive advance_step (pcm : snd_pcm_t) : snd_pcm_t -> Prop :=
| step_advance a pcm' : do_advance pcm a = Some pcm' -> advance_step pcm pcm'.

Inductive reachable (pcm0 : snd_pcm_t) : snd_pcm_t -> Prop :=
| reach_start : reachable pcm0 pcm0
| reach_step pcm pcm' :
    reachable pcm0 pcm -> advance_step pcm pcm' -> reachable pcm0 pcm'.

(** A whole run, for evaluation. *)
Fixpoint run (pcm : snd_pcm_t) (l : list advance) : option snd_pcm_t :=
  match l with
  | [] => Some pcm
  | a :: l' =>
      match do_advance pcm a with
      | Some pcm' => run pcm' l'
      | None => None
      end
  end.

End PCM.

Arguments machine World : clear implicits.
Arguments snd_pcm_t World : clear implicits.
Arguments snd_pcm_fast_ops_t World : clear implicits.

(** ** Streams used in the examples *)

(** A table with every member NULL. *)
Definition null_fast_ops {World : Type} : snd_pcm_fast_ops_t World :=
  {| start := None; state := None; hwsync := None; delay := None;
     writei := None; writen := None; readi := None; readn := None;
     avail_update := None; may_wait_for_avail_min := None |}.

Definition ring (dir : snd_pcm_stream_t) (bsize bnd appl hw : Z) : snd_pcm_t unit :=
  {| stream := dir; avail_min := 1; boundary := bnd; buffer_size := bsize;
     appl_ptr := appl; hw_ptr := hw;
     fast_ops := null_fast_ops; fast_op_arg := 0 |}.

(** A plugin whose only callback is [state], reporting [st]. *)
Definition state_only_ops (st : snd_pcm_state_t) : snd_pcm_fast_ops_t unit :=
  {| start := None; state := Some (fun _ w => (st, w));
     hwsync := None; delay := None;
     writei := None; writen := None; readi := None; readn := None;
     avail_update := None; may_wait_for_avail_min := None |}.

Definition pcm_in_state (st : snd_pcm_state_t) : snd_pcm_t unit :=
  {| stream := SND_PCM_STREAM_PLAYBACK; avail_min := 1;
     boundary := 16384; buffer_size := 8192; appl_ptr := 0; hw_ptr := 0;
     fast_ops := state_only_ops st; fast_op_arg := 0 |}.

Definition idle : machine unit := {| world := tt; calls := [] |}.

(** ** The specification's wording of the playback computation

    Section 4.3, [available_for_write]: [hw_ptr + buffer_size - appl_ptr],
    normalized modulo boundary into [[0, boundary)], then clamped to
    [[0, buffer_size]].  Only compared with the code, never used by it. *)
Definition available_for_write_spec {World : Type} (pcm : snd_pcm_t World)
    (hw_ptr appl_ptr : Z) : Z :=
  Z.max 0 (Z.min (buffer_size pcm)
                 ((hw_ptr + buffer_size pcm - appl_ptr) mod boundary pcm)).

(** ** Notions used in the statements *)






(** The wrapper returns [r] and enters no callback: world and log are
    as before. *)
Definition returns_without_call {World R} (w : @M World R) (r : R) : Prop :=
  forall m, w m = (r, m).

(** The wrapper is one call of [cb], logged as [op]: it returns what [cb]
    returns and leaves the world as [cb] leaves it. *)
Definition runs_callback {World R} (w : @M World R) (op : fast_op)
    (cb : @callback World R) : Prop :=
  forall m,
    w m = (fst (cb (world m)),
           {| world := snd (cb (world m)); calls := op :: calls m |}).

(** ** Further functions of [pcm_local.h] *)

Definition muldiv_down (a b c : Z) : option Z :=
  if c =? 0 then None
  else
    let v := (a * b) ÷ c in
    if v >? INT_MAX then Some INT_MAX
    else if v <? INT_MIN then Some INT_MIN
    else Some v.

Definition pcm_frame_diff2 (ptr1 ptr2 boundary : Z) : Z :=
  let r := to_sframes (uframes_sub ptr1 ptr2) in
  if r >=? to_sframes boundary ÷ 2
  then to_sframes (uframes_sub boundary (to_uframes r))
  else r.

(** [*pcm->appl.ptr % pcm->buffer_size]; the remainder by zero is
    undefined. *)
Definition snd_pcm_mmap_offset {World} (pcm : snd_pcm_t World) : option Z :=
  if buffer_size pcm =? 0 then None
  else Some (appl_ptr pcm mod buffer_size pcm).

Definition snd_pcm_mmap_hw_offset {World} (pcm : snd_pcm_t World) : option Z :=
  if buffer_size pcm =? 0 then None
  else Some (hw_ptr pcm mod buffer_size pcm).

(** Frames pending from application to hardware; the signed count of
    [snd_pcm_mmap_playback_hw_avail] is returned as [snd_pcm_uframes_t]. *)
Definition snd_pcm_mmap_playback_delay {World} (pcm : snd_pcm_t World) : Z :=
  to_uframes (snd_pcm_mmap_playback_hw_avail pcm).

(** Frames pending from hardware to application. *)
Definition snd_pcm_mmap_capture_delay {World} (pcm : snd_pcm_t World) : Z :=
  snd_pcm_mmap_capture_avail pcm.

(** This one returns [snd_pcm_sframes_t]. *)
Definition snd_pcm_mmap_delay {World} (pcm : snd_pcm_t World) : Z :=
  match stream pcm with
  | SND_PCM_STREAM_PLAYBACK => to_sframes (snd_pcm_mmap_playback_delay pcm)
  | SND_PCM_STREAM_CAPTURE => to_sframes (snd_pcm_mmap_capture_delay pcm)
  end.

(** ** [control/tlv.c]: dB conversion from TLV information

    A TLV is an array of [unsigned int]; a pointer into it is the list of
    the words from there on, and a read past the end is undefined
    ([None]).  [long] is [snd_pcm_sframes_t]'s type; signed overflow is
    undefined.  The values behind the names of [sound/tlv.h],
    [control.h] and [errno.h], the build option [HAVE_SOFT_FLOAT] and the
    two floating-point expressions of the [DB_LINEAR] entries are not
    part of [tlv.c]: they are parameters. *)

Class tlv_h : Type := {
  SNDRV_CTL_TLVO_TYPE : Z;
  SNDRV_CTL_TLVO_LEN : Z;
  SNDRV_CTL_TLVO_DB_SCALE_MIN : Z;
  SNDRV_CTL_TLVO_DB_SCALE_MUTE_AND_STEP : Z;
  SNDRV_CTL_TLVO_DB_MINMAX_MIN : Z;
  SNDRV_CTL_TLVO_DB_MINMAX_MAX : Z;
  SNDRV_CTL_TLVO_DB_LINEAR_MIN : Z;
  SNDRV_CTL_TLVO_DB_LINEAR_MAX : Z;
  SND_CTL_TLVT_CONTAINER : Z;
  SND_CTL_TLVT_DB_SCALE : Z;
  SND_CTL_TLVT_DB_LINEAR : Z;
  SND_CTL_TLVT_DB_RANGE : Z;
  SND_CTL_TLVT_DB_MINMAX : Z;
  SND_CTL_TLVT_DB_MINMAX_MUTE : Z;
  SND_CTL_TLV_DB_GAIN_MUTE : Z;
  EINVAL : Z;
  ENOENT : Z;
  HAVE_SOFT_FLOAT : bool;
  (* [(long)(100.0 * 20.0 * log10(val)) ...] of [snd_tlv_convert_to_dB],
     from [mindb], [maxdb], [rangemin], [rangemax], [volume] *)
  linear_to_dB : Z -> Z -> Z -> Z -> Z -> Z;
  (* [(long)v + rangemin] of [snd_tlv_convert_from_dB],
     from [min], [max], [rangemin], [rangemax], [db_gain], [xdir] *)
  linear_from_dB : Z -> Z -> Z -> Z -> Z -> Z -> Z
}.

(** The case labels of one [switch] are distinct. *)
Definition tlvt_distinct (h : tlv_h) : Prop :=
  NoDup [SND_CTL_TLVT_CONTAINER; SND_CTL_TLVT_DB_SCALE; SND_CTL_TLVT_DB_LINEAR;
         SND_CTL_TLVT_DB_RANGE; SND_CTL_TLVT_DB_MINMAX;
         SND_CTL_TLVT_DB_MINMAX_MUTE].

(** The values of [sound/uapi/tlv.h], [control.h] and Linux [errno.h],
    for a build with floating point; the two floating-point expressions
    are left at 0. *)
Definition alsa_tlv_h : tlv_h := {|
  SNDRV_CTL_TLVO_TYPE := 0;
  SNDRV_CTL_TLVO_LEN := 1;
  SNDRV_CTL_TLVO_DB_SCALE_MIN := 2;
  SNDRV_CTL_TLVO_DB_SCALE_MUTE_AND_STEP := 3;
  SNDRV_CTL_TLVO_DB_MINMAX_MIN := 2;
  SNDRV_CTL_TLVO_DB_MINMAX_MAX := 3;
  SNDRV_CTL_TLVO_DB_LINEAR_MIN := 2;
  SNDRV_CTL_TLVO_DB_LINEAR_MAX := 3;
  SND_CTL_TLVT_CONTAINER := 0;
  SND_CTL_TLVT_DB_SCALE := 1;
  SND_CTL_TLVT_DB_LINEAR := 2;
  SND_CTL_TLVT_DB_RANGE := 3;
  SND_CTL_TLVT_DB_MINMAX := 4;
  SND_CTL_TLVT_DB_MINMAX_MUTE := 5;
  SND_CTL_TLV_DB_GAIN_MUTE := -9999999;
  EINVAL := 22;
  ENOENT := 2;
  HAVE_SOFT_FLOAT := false;
  linear_to_dB := fun _ _ _ _ _ => 0;
  linear_from_dB := fun _ _ _ _ _ _ => 0
|}.

(** Conversions to [int] and [unsigned int]. *)
Definition to_int (x : Z) : Z := (x + 2 ^ 31) mod 2 ^ 32 - 2 ^ 31.
Definition to_uint (x : Z) : Z := x mod 2 ^ 32.

(** Signed [long] arithmetic: a result outside the type is undefined. *)
Definition long_result (x : Z) : option Z :=
  if (LONG_MIN <=? x) && (x <=? LONG_MAX) then Some x else None.

(** [tlv[i]]. *)
Definition word (tlv : list Z) (i : Z) : option Z :=
  if i <? 0 then None else nth_error tlv (Z.to_nat i).

(** Convert to index of integer array:
    [((size) + sizeof(int) - 1) / sizeof(int)], computed in [size_t]. *)
Definition int_index (size : Z) : Z := (size + 4 - 1) / 4.

(** Max size of a TLV entry for dB information. *)
Definition MAX_TLV_RANGE_SIZE : Z := 256.

(** What a conversion hands back: [Done v] is return value 0 with [v]
    stored through the result pointer, [Fail e] is return value [e] with
    nothing stored. *)
Inductive tlv_ret : Type :=
| Done (value : Z)
| Fail (err : Z).

Notation "'let*' x ':=' c 'in' k" :=
  (match c with Some x => k | None => None end)
  (at level 10, x name, c at level 100, k at level 200, only parsing).

Section Tlv.

Context {h : tlv_h}.

(** Min length of a TLV stream to contain type and size. *)
Definition MIN_TLV_STREAM_LEN : Z := (SNDRV_CTL_TLVO_LEN + 1) * 4.

(** The [while (pos + 4 <= len)] loop of the [DB_RANGE] case of
    [snd_tlv_convert_to_dB]; [convert] is the recursive call.  [pos]
    starts at 2, grows by at least 4 per turn and a turn needs
    [pos + 4 <= len <= 256], so a counter of 64 turns is never used
    up. *)
Fixpoint to_dB_range_loop
    (convert : list Z -> Z -> Z -> Z -> option tlv_ret)
    (n : nat) (tlv : list Z) (len pos volume : Z) {struct n}
  : option tlv_ret :=
  match n with
  | O => None
  | S n' =>
    if pos + 4 <=? len then
      let* w0 := word tlv pos in
      let* w1 := word tlv (pos + 1) in
      let rangemin := to_int w0 in
      let rangemax := to_int w1 in
      if (volume >=? rangemin) && (volume <=? rangemax) then
        convert (skipn (Z.to_nat (pos + 2)) tlv) rangemin rangemax volume
      else
        let* w3 := word tlv (pos + 3) in
        to_dB_range_loop convert n' tlv len (pos + int_index w3 + 4) volume
    else Some (Fail (- EINVAL))
  end.

(** [depth] bounds the nesting of [DB_RANGE] entries followed. *)
Fixpoint snd_tlv_convert_to_dB (depth : nat) (tlv : list Z)
    (rangemin rangemax volume : Z) {struct depth} : option tlv_ret :=
  match depth with
  | O => None
  | S depth' =>
    let* type := word tlv SNDRV_CTL_TLVO_TYPE in
    if type =? SND_CTL_TLVT_DB_RANGE then
      let* size := word tlv SNDRV_CTL_TLVO_LEN in
      let len := int_index size in
      if len >? MAX_TLV_RANGE_SIZE then Some (Fail (- EINVAL))
      else
        to_dB_range_loop (snd_tlv_convert_to_dB depth') 64 tlv len 2 volume
    else if type =? SND_CTL_TLVT_DB_SCALE then
      let* w2 := word tlv SNDRV_CTL_TLVO_DB_SCALE_MIN in
      let* w3 := word tlv SNDRV_CTL_TLVO_DB_SCALE_MUTE_AND_STEP in
      let min := to_int w2 in
      let step := to_int (Z.land w3 65535) in
      let mute := to_int (Z.land (Z.shiftr w3 16) 1) in
      if negb (mute =? 0) && (volume <=? rangemin)
      then Some (Done SND_CTL_TLV_DB_GAIN_MUTE)
      else
        let* d := long_result (volume - rangemin) in
        let* p := long_result (d * step) in
        let* g := long_result (p + min) in
        Some (Done g)
    else if (type =? SND_CTL_TLVT_DB_MINMAX)
            || (type =? SND_CTL_TLVT_DB_MINMAX_MUTE) then
      let* w2 := word tlv SNDRV_CTL_TLVO_DB_MINMAX_MIN in
      let* w3 := word tlv SNDRV_CTL_TLVO_DB_MINMAX_MAX in
      let mindb := to_int w2 in
      let maxdb := to_int w3 in
      if (volume <=? rangemin) || (rangemax <=? rangemin) then
        if type =? SND_CTL_TLVT_DB_MINMAX_MUTE
        then Some (Done SND_CTL_TLV_DB_GAIN_MUTE)
        else Some (Done mindb)
      else if volume >=? rangemax then Some (Done maxdb)
      else
        let* span := int_result (maxdb - mindb) in
        let* d := long_result (volume - rangemin) in
        let* p := long_result (span * d) in
        let* r := long_result (rangemax - rangemin) in
        let* g := long_result (p ÷ r + mindb) in
        Some (Done g)
    else if negb HAVE_SOFT_FLOAT && (type =? SND_CTL_TLVT_DB_LINEAR) then
      let* w2 := word tlv SNDRV_CTL_TLVO_DB_LINEAR_MIN in
      let* w3 := word tlv SNDRV_CTL_TLVO_DB_LINEAR_MAX in
      let mindb := to_int w2 in
      let maxdb := to_int w3 in
      if (volume <=? rangemin) || (rangemax <=? rangemin)
      then Some (Done mindb)
      else if volume >=? rangemax then Some (Done maxdb)
      else Some (Done (linear_to_dB mindb maxdb rangemin rangemax volume))
    else Some (Fail (- EINVAL))
  end.

(** The [while (pos + 4 <= len)] loop of the [DB_RANGE] case of
    [snd_tlv_get_dB_range]; [get] is the recursive call, on the local
    variables [rmin] and [rmax], not yet assigned.  [min] and [max] are
    the contents of [*min] and [*max]; [None] stands for a variable
    never assigned, and reading one is undefined.  The loop counter is
    as in [to_dB_range_loop]. *)
Fixpoint get_dB_range_loop
    (get : list Z -> Z -> Z -> option Z -> option Z
           -> option (Z * option Z * option Z))
    (n : nat) (tlv : list Z) (len rangemax pos : Z) (min max : option Z)
    {struct n} : option (Z * option Z * option Z) :=
  match n with
  | O => None
  | S n' =>
    if pos + 4 <=? len then
      let* w0 := word tlv pos in
      let* w1 := word tlv (pos + 1) in
      let submin := to_int w0 in
      let submax := to_int w1 in
      let submax := if rangemax <? submax then rangemax else submax in
      let* sub := get (skipn (Z.to_nat (pos + 2)) tlv)
                    submin submax None None in
      let '(err, rmin, rmax) := sub in
      if err <? 0 then Some (err, min, max)
      else
        let* acc :=
          if pos >? 2 then
            let* rmin' := rmin in
            let* rmax' := rmax in
            let* min' := min in
            let* max' := max in
            Some (Some (if rmin' <? min' then rmin' else min'),
                  Some (if rmax' >? max' then rmax' else max'))
          else Some (rmin, rmax) in
        let '(min, max) := acc in
        if rangemax =? submax then Some (0, min, max)
        else
          let* w3 := word tlv (pos + 3) in
          get_dB_range_loop get n' tlv len rangemax
            (pos + int_index w3 + 4) min max
    else Some (0, min, max)
  end.

(** [snd_tlv_get_dB_range]: the result is the return value and the
    contents of [*min] and [*max] afterwards. *)
Fixpoint snd_tlv_get_dB_range (depth : nat) (tlv : list Z)
    (rangemin rangemax : Z) (min max : option Z) {struct depth}
  : option (Z * option Z * option Z) :=
  match depth with
  | O => None
  | S depth' =>
    let* type := word tlv SNDRV_CTL_TLVO_TYPE in
    if type =? SND_CTL_TLVT_DB_RANGE then
      let* size := word tlv SNDRV_CTL_TLVO_LEN in
      let len := int_index size in
      if len >? MAX_TLV_RANGE_SIZE then Some (- EINVAL, min, max)
      else
        get_dB_range_loop (snd_tlv_get_dB_range depth') 64 tlv len rangemax
          2 min max
    else if type =? SND_CTL_TLVT_DB_SCALE then
      let* w3 := word tlv SNDRV_CTL_TLVO_DB_SCALE_MUTE_AND_STEP in
      let* w2 := word tlv SNDRV_CTL_TLVO_DB_SCALE_MIN in
      let min' := if negb (Z.land w3 65536 =? 0)
                  then SND_CTL_TLV_DB_GAIN_MUTE else to_int w2 in
      let step := to_int (Z.land w3 65535) in
      let* r := long_result (rangemax - rangemin) in
      let* p := long_result (step * r) in
      let* m := long_result (to_int w2 + p) in
      Some (0, Some min', Some m)
    else if (type =? SND_CTL_TLVT_DB_MINMAX)
            || (type =? SND_CTL_TLVT_DB_LINEAR) then
      let* w2 := word tlv SNDRV_CTL_TLVO_DB_LINEAR_MIN in
      let* w3 := word tlv SNDRV_CTL_TLVO_DB_LINEAR_MAX in
      Some (0, Some (to_int w2), Some (to_int w3))
    else if type =? SND_CTL_TLVT_DB_MINMAX_MUTE then
      let* w3 := word tlv SNDRV_CTL_TLVO_DB_MINMAX_MAX in
      Some (0, Some SND_CTL_TLV_DB_GAIN_MUTE, Some (to_int w3))
    else Some (- EINVAL, min, max)
  end.

(** The shared tail of the [DB_SCALE] and [DB_MINMAX] cases of
    [snd_tlv_convert_from_dB], written twice in the source: [mute] is
    the third operand of the test before [rangemin + 1]. *)
Definition from_dB_between (min max : Z) (mute : bool)
    (rangemin rangemax db_gain xdir : Z) : option tlv_ret :=
  if db_gain <=? min then
    if (db_gain >? SND_CTL_TLV_DB_GAIN_MUTE) && (xdir >? 0) && mute
    then let* v := long_result (rangemin + 1) in Some (Done v)
    else Some (Done rangemin)
  else if db_gain >=? max then Some (Done rangemax)
  else
    let* d := long_result (db_gain - min) in
    let* r := long_result (rangemax - rangemin) in
    let* v := long_result (d * r) in
    let* span := int_result (max - min) in
    let* v :=
      if xdir >? 0 then
        let* s := int_result (span - 1) in long_result (v + s)
      else if xdir =? 0 then
        let* s := int_result (span + 1) in long_result (v + s ÷ 2)
      else Some v in
    if span =? 0 then None
    else
      let* v := long_result (v ÷ span + rangemin) in
      Some (Done v).

(** The [while (pos + 4 <= len)] loop of the [DB_RANGE] case of
    [snd_tlv_convert_from_dB]; [get] is the call of
    [snd_tlv_get_dB_range] on the local variables [dbmin] and [dbmax]
    and [convert] the recursive call.  The loop counter is as in
    [to_dB_range_loop]. *)
Fixpoint from_dB_range_loop
    (get : list Z -> Z -> Z -> option Z -> option Z
           -> option (Z * option Z * option Z))
    (convert : list Z -> Z -> Z -> Z -> Z -> option tlv_ret)
    (n : nat) (tlv : list Z) (len rangemax db_gain xdir pos : Z)
    (dbmin dbmax : option Z) (prev_submax : Z) {struct n}
  : option tlv_ret :=
  match n with
  | O => None
  | S n' =>
    if pos + 4 <=? len then
      let* w0 := word tlv pos in
      let* w1 := word tlv (pos + 1) in
      let submin := to_int w0 in
      let submax := to_int w1 in
      let submax := if rangemax <? submax then rangemax else submax in
      let* sub := get (skipn (Z.to_nat (pos + 2)) tlv)
                    submin submax dbmin dbmax in
      let '(err, dbmin, dbmax) := sub in
      let* inside :=
        if err =? 0 then
          let* lo := dbmin in
          if db_gain >=? lo then
            let* hi := dbmax in Some (db_gain <=? hi)
          else Some false
        else Some false in
      if inside : bool then
        convert (skipn (Z.to_nat (pos + 2)) tlv) submin submax db_gain xdir
      else
        let* lo := dbmin in
        if db_gain <? lo then
          Some (Done (if (xdir >? 0) || (pos =? 2)
                      then submin else prev_submax))
        else if rangemax =? submax then Some (Done submax)
        else
          let* w3 := word tlv (pos + 3) in
          from_dB_range_loop get convert n' tlv len rangemax db_gain xdir
            (pos + int_index w3 + 4) dbmin dbmax submax
    else Some (Done prev_submax)
  end.

Fixpoint snd_tlv_convert_from_dB (depth : nat) (tlv : list Z)
    (rangemin rangemax db_gain xdir : Z) {struct depth} : option tlv_ret :=
  match depth with
  | O => None
  | S depth' =>
    let* type := word tlv SNDRV_CTL_TLVO_TYPE in
    if type =? SND_CTL_TLVT_DB_RANGE then
      let* size := word tlv SNDRV_CTL_TLVO_LEN in
      let len := int_index size in
      if (len <? 6) || (len >? MAX_TLV_RANGE_SIZE) then Some (Fail (- EINVAL))
      else
        from_dB_range_loop (snd_tlv_get_dB_range depth')
          (snd_tlv_convert_from_dB depth') 64 tlv len rangemax db_gain xdir
          2 None None 0
    else if type =? SND_CTL_TLVT_DB_SCALE then
      let* w2 := word tlv SNDRV_CTL_TLVO_DB_SCALE_MIN in
      let* w3 := word tlv SNDRV_CTL_TLVO_DB_SCALE_MUTE_AND_STEP in
      let min := to_int w2 in
      let step := to_int (Z.land w3 65535) in
      let mute := to_int (Z.land w3 65536) in
      let* r := long_result (rangemax - rangemin) in
      let* p := long_result (step * r) in
      let* max := int_result (min + to_int p) in
      from_dB_between min max (negb (mute =? 0)) rangemin rangemax db_gain xdir
    else if (type =? SND_CTL_TLVT_DB_MINMAX)
            || (type =? SND_CTL_TLVT_DB_MINMAX_MUTE) then
      let* w2 := word tlv SNDRV_CTL_TLVO_DB_MINMAX_MIN in
      let* w3 := word tlv SNDRV_CTL_TLVO_DB_MINMAX_MAX in
      from_dB_between (to_int w2) (to_int w3)
        (type =? SND_CTL_TLVT_DB_MINMAX_MUTE) rangemin rangemax db_gain xdir
    else if negb HAVE_SOFT_FLOAT && (type =? SND_CTL_TLVT_DB_LINEAR) then
      let* w2 := word tlv SNDRV_CTL_TLVO_DB_LINEAR_MIN in
      let* w3 := word tlv SNDRV_CTL_TLVO_DB_LINEAR_MAX in
      let min := to_int w2 in
      let max := to_int w3 in
      if db_gain <=? min then Some (Done rangemin)
      else if db_gain >=? max then Some (Done rangemax)
      else Some (Done (linear_from_dB min max rangemin rangemax db_gain xdir))
    else Some (Fail (- EINVAL))
  end.

(** The [while (size > 0)] loop of the [CONTAINER] case of
    [snd_tlv_parse_dB_info]; [parse] is the recursive call.  [tlv] is
    the array from the current pointer on and [base] the index of that
    pointer in the caller's array.  A turn that goes on has read a word
    of [tlv] and moves on by at least two words, so a counter above the
    number of words is not used up before a read past the end. *)
Fixpoint container_loop
    (parse : list Z -> Z -> Z -> option Z -> option (Z * option Z))
    (n : nat) (tlv : list Z) (base size : Z) (db_tlvp : option Z)
    {struct n} : option (Z * option Z) :=
  match n with
  | O => None
  | S n' =>
    if size >? 0 then
      let* sub := parse tlv base size db_tlvp in
      let '(err, db_tlvp) := sub in
      if (err <? 0) && negb (err =? - ENOENT) then Some (err, db_tlvp)
      else if err >? 0 then Some (err, db_tlvp)
      else
        let* w := word tlv SNDRV_CTL_TLVO_LEN in
        let len := to_uint (int_index w + 2) in
        container_loop parse n' (skipn (Z.to_nat len) tlv) (base + len)
          (to_uint (size - len * 4)) db_tlvp
    else Some (- ENOENT, db_tlvp)
  end.

(** The case labels that [snd_tlv_parse_dB_info] accepts as dB
    information. *)
Definition is_dB_type (type : Z) : bool :=
  (type =? SND_CTL_TLVT_DB_SCALE)
  || (type =? SND_CTL_TLVT_DB_MINMAX)
  || (type =? SND_CTL_TLVT_DB_MINMAX_MUTE)
  || (negb HAVE_SOFT_FLOAT && (type =? SND_CTL_TLVT_DB_LINEAR))
  || (type =? SND_CTL_TLVT_DB_RANGE).

(** [snd_tlv_parse_dB_info]: the result is the return value and the
    contents of [*db_tlvp] afterwards, [None] for [NULL] and [Some i]
    for a pointer to index [i] of the caller's array.  [depth] bounds
    the nesting of containers. *)
Fixpoint snd_tlv_parse_dB_info (depth : nat) (tlv : list Z) (base : Z)
    (tlv_size : Z) (db_tlvp : option Z) {struct depth}
  : option (Z * option Z) :=
  match depth with
  | O => None
  | S depth' =>
    if tlv_size <? MIN_TLV_STREAM_LEN then Some (- EINVAL, db_tlvp)
    else
      let* type := word tlv SNDRV_CTL_TLVO_TYPE in
      let* size := word tlv SNDRV_CTL_TLVO_LEN in
      let tlv_size := to_uint (tlv_size - 2 * 4) in
      if size >? tlv_size then Some (- EINVAL, None)
      else if type =? SND_CTL_TLVT_CONTAINER then
        container_loop (snd_tlv_parse_dB_info depth') (S (length tlv))
          (skipn 2 tlv) (base + 2) (to_uint (int_index size * 4)) None
      else if is_dB_type type then
        let minsize := if type =? SND_CTL_TLVT_DB_RANGE then 4 * 4 else 2 * 4 in
        if size <? minsize then Some (- EINVAL, None)
        else if size >? MAX_TLV_RANGE_SIZE then Some (- EINVAL, None)
        else Some (to_int (size + 4 * 2), Some base)
      else Some (- ENOENT, None)
  end.

End Tlv.

(** ** Notions used in the statements on [tlv.c]

    None of what follows is code of [tlv.c]: these are the words in
    which the properties are stated -- what the fields of an entry
    decode to, how a stream is laid out from its entries, and the
    conditions put on them. *)

(** The fields of a [DB_SCALE] entry: minimum gain, step and mute flag,
    as the three functions decode them. *)
Definition db_scale_entry {h : tlv_h} (tlv : list Z) (min step : Z)
    (mute : bool) : Prop :=
  exists w2 w3,
    word tlv SNDRV_CTL_TLVO_TYPE = Some SND_CTL_TLVT_DB_SCALE
    /\ word tlv SNDRV_CTL_TLVO_DB_SCALE_MIN = Some w2
    /\ word tlv SNDRV_CTL_TLVO_DB_SCALE_MUTE_AND_STEP = Some w3
    /\ min = to_int w2
    /\ step = Z.land w3 65535
    /\ mute = negb (Z.land w3 65536 =? 0).

(** The fields of a [DB_MINMAX] ([mute = false]) or [DB_MINMAX_MUTE]
    ([mute = true]) entry.  The conversions read them at the
    [DB_MINMAX] offsets and [snd_tlv_get_dB_range] reads a [DB_MINMAX]
    entry at the [DB_LINEAR] ones: the entry has the same two words at
    both. *)
Definition db_minmax_entry {h : tlv_h} (tlv : list Z) (mindb maxdb : Z)
    (mute : bool) : Prop :=
  exists w2 w3,
    word tlv SNDRV_CTL_TLVO_TYPE
    = Some (if mute then SND_CTL_TLVT_DB_MINMAX_MUTE else SND_CTL_TLVT_DB_MINMAX)
    /\ word tlv SNDRV_CTL_TLVO_DB_MINMAX_MIN = Some w2
    /\ word tlv SNDRV_CTL_TLVO_DB_MINMAX_MAX = Some w3
    /\ word tlv SNDRV_CTL_TLVO_DB_LINEAR_MIN = Some w2
    /\ word tlv SNDRV_CTL_TLVO_DB_LINEAR_MAX = Some w3
    /\ mindb = to_int w2
    /\ maxdb = to_int w3.

(** The gain of raw [volume] on a linear dB scale. *)
Definition scale_gain (min step rangemin volume : Z) : Z :=
  (volume - rangemin) * step + min.

(** What [snd_tlv_parse_dB_info] takes for granted of the headers: an
    entry starts with its type and its length, which [tlv += 2] and
    [2 * sizeof(int)] step over, and the error codes are positive and
    distinct. *)
Definition tlv_layout (h : tlv_h) : Prop :=
  SNDRV_CTL_TLVO_TYPE = 0 /\ SNDRV_CTL_TLVO_LEN = 1
  /\ 0 < EINVAL /\ 0 < ENOENT /\ EINVAL <> ENOENT.

(** The words of a TLV are [unsigned int]. *)
Definition is_uint (w : Z) : Prop := 0 <= w < 2 ^ 32.

(** A dB entry of [r] bytes, header included, at index [i] of [tlv]. *)
Definition dB_entry_at {h : tlv_h} (tlv : list Z) (i r : Z) : Prop :=
  exists type size,
    word tlv (i + SNDRV_CTL_TLVO_TYPE) = Some type
    /\ word tlv (i + SNDRV_CTL_TLVO_LEN) = Some size
    /\ is_dB_type type = true
    /\ (if type =? SND_CTL_TLVT_DB_RANGE then 16 else 8) <= size
    /\ size <= MAX_TLV_RANGE_SIZE
    /\ r = size + 8.

(** What a call of [snd_tlv_parse_dB_info] on [tlv_size] bytes at index
    [base] may hand back: an error, nothing found and a [NULL] pointer,
    or a dB entry that lies within the bytes given. *)
Definition parse_ok {h : tlv_h} (tlv : list Z) (base tlv_size : Z)
    (res : Z * option Z) : Prop :=
  fst res = - EINVAL
  \/ (fst res = - ENOENT /\ snd res = None)
  \/ exists i,
       snd res = Some (base + i) /\ 0 <= i
       /\ dB_entry_at tlv i (fst res)
       /\ 4 * i + fst res <= tlv_size.

(** What one call of the parser promises of its result, and of its
    input when it did not fail with [-EINVAL]. *)
Definition parse_spec {h : tlv_h}
    (parse : list Z -> Z -> Z -> option Z -> option (Z * option Z)) : Prop :=
  forall tlv base size p res,
    Forall is_uint tlv -> 0 <= size < 2 ^ 32 -> size mod 4 = 0 ->
    parse tlv base size p = Some res ->
    parse_ok tlv base size res
    /\ (fst res <> - EINVAL ->
        exists w, word tlv 1 = Some w /\ w + 8 <= size).

(** The words of an entry of the given type and data words, of a
    sequence of entries, and of a container that holds them. *)
Definition encode_entry (type : Z) (data : list Z) : list Z :=
  type :: 4 * Z.of_nat (length data) :: data.

Definition encode_entries (es : list (Z * list Z)) : list Z :=
  concat (map (fun e => encode_entry (fst e) (snd e)) es).

Definition encode_container {h : tlv_h} (es : list (Z * list Z)) : list Z :=
  encode_entry SND_CTL_TLVT_CONTAINER (encode_entries es).

(** A sub-range of a [DB_RANGE] entry: the bounds of the raw volume and
    the dB entry that holds between them; the words it takes, and the
    words of a [DB_RANGE] entry of such sub-ranges. *)
Record db_range_item : Type := {
  item_min : Z;
  item_max : Z;
  item_type : Z;
  item_data : list Z
}.

Definition encode_item (it : db_range_item) : list Z :=
  to_uint (item_min it) :: to_uint (item_max it)
  :: encode_entry (item_type it) (item_data it).

Definition encode_items (items : list db_range_item) : list Z :=
  concat (map encode_item items).

Definition encode_range {h : tlv_h} (items : list db_range_item) : list Z :=
  encode_entry SND_CTL_TLVT_DB_RANGE (encode_items items).

(** The first sub-range that holds [volume], with the words from its dB
    entry on; [rest] is what follows the [DB_RANGE] entry. *)
Fixpoint range_lookup (items : list db_range_item) (rest : list Z)
    (volume : Z) : option (db_range_item * list Z) :=
  match items with
  | nil => None
  | it :: items' =>
      if (item_min it <=? volume) && (volume <=? item_max it)
      then Some (it, encode_entry (item_type it) (item_data it)
                     ++ encode_items items' ++ rest)
      else range_lookup items' rest volume
  end.

(** Bounds that fit [int], and a dB entry of at least two data words. *)
Definition item_ok (it : db_range_item) : Prop :=
  INT_MIN <= item_min it <= INT_MAX
  /\ INT_MIN <= item_max it <= INT_MAX
  /\ (2 <= length (item_data it))%nat.

(** A sub-range with a [DB_SCALE] entry, whatever follows it in the
    stream: non-empty, and with the mute gain not above the entry's
    minimum when the mute flag is set. *)
Definition scale_item_ok {h : tlv_h} (it : db_range_item) : Prop :=
  item_ok it
  /\ item_min it <= item_max it
  /\ exists min step mute,
       (forall tail,
          db_scale_entry
            (encode_entry (item_type it) (item_data it) ++ tail) min step mute)
       /\ (mute = true -> SND_CTL_TLV_DB_GAIN_MUTE <= min).

(** Sub-ranges in ascending order, without overlap. *)
Fixpoint ascending (items : list db_range_item) : Prop :=
  match items with
  | nil => True
  | it :: items' =>
      Forall (fun it' => item_max it < item_min it') items'
      /\ ascending items'
  end.

(** [volume] lies in the sub-range. *)
Definition holds (volume : Z) (it : db_range_item) : Prop :=
  item_min it <= volume <= item_max it.

(** The data words of a [DB_SCALE] entry follow its header. *)
Definition scale_layout (h : tlv_h) : Prop :=
  SNDRV_CTL_TLVO_DB_SCALE_MIN = 2
  /\ SNDRV_CTL_TLVO_DB_SCALE_MUTE_AND_STEP = 3.

(** A sub-range of raw volumes with a linear scale without mute flag:
    [sr_dbmin] at [sr_min], [sr_step] more for each volume above. *)
Record scale_range : Type := {
  sr_min : Z;
  sr_max : Z;
  sr_dbmin : Z;
  sr_step : Z
}.

Definition scale_item {h : tlv_h} (s : scale_range) : db_range_item := {|
  item_min := sr_min s;
  item_max := sr_max s;
  item_type := SND_CTL_TLVT_DB_SCALE;
  item_data := [to_uint (sr_dbmin s); sr_step s]
|}.

(** The gain at the top of the sub-range. *)
Definition sr_top (s : scale_range) : Z :=
  sr_dbmin s + sr_step s * (sr_max s - sr_min s).

(** Values that fit [int], a positive step that fits its 16 bits. *)
Definition sr_ok (s : scale_range) : Prop :=
  INT_MIN <= sr_min s /\ sr_min s <= sr_max s /\ sr_max s <= INT_MAX
  /\ INT_MIN <= sr_dbmin s
  /\ 0 < sr_step s <= 65535
  /\ sr_step s * (sr_max s - sr_min s) < INT_MAX
  /\ sr_top s <= INT_MAX.

(** Sub-ranges in ascending order of volume and of gain. *)
Fixpoint rising (ranges : list scale_range) : Prop :=
  match ranges with
  | nil => True
  | s :: ranges' =>
      Forall (fun s' => sr_max s < sr_min s' /\ sr_top s < sr_dbmin s') ranges'
      /\ rising ranges'
  end.

(** Example entries: a [DB_SCALE] entry from -60.00 dB in steps of
    1.00 dB with the mute flag, a [DB_MINMAX] entry from -30.00 dB to
    0 dB, and a container that holds a non-dB entry before the scale. *)
Definition db_scale_example : list Z := [1; 8; 4294961296; 65636].
Definition db_minmax_example : list Z := [4; 8; 4294964296; 0].
Definition container_example : list Z :=
  [0; 28; 255; 4; 7; 1; 8; 4294961296; 65636].

(** A [DB_RANGE] of two scales: volumes 0 to 10 from -60.00 dB in steps
    of 3.00 dB, volumes 11 to 20 from -29.00 dB in steps of 1.00 dB. *)
Definition range_example : list db_range_item :=
  [ {| item_min := 0; item_max := 10; item_type := 1;
       item_data := [4294961296; 300] |};
    {| item_min := 11; item_max := 20; item_type := 1;
       item_data := [4294964396; 100] |} ].

(** The two scales of [range_example]. *)
Definition low_scale : scale_range :=
  {| sr_min := 0; sr_max := 10; sr_dbmin := -6000; sr_step := 300 |}.
Definition high_scale : scale_range :=
  {| sr_min := 11; sr_max := 20; sr_dbmin := -2900; sr_step := 100 |}.

(** ** [ump.c]: UMP sysex helpers and packet lengths

    A UMP packet is an array of [uint32_t], read through [word]; the
    output buffer is a list of bytes whose length is its allocated size,
    and a store outside it is undefined ([None]). *)

(** [buf[i] = v]. *)
Fixpoint store (buf : list Z) (i : nat) (v : Z) : option (list Z) :=
  match buf, i with
  | nil, _ => None
  | _ :: buf', O => Some (v :: buf')
  | b :: buf', S i' =>
      match store buf' i' v with
      | Some buf'' => Some (b :: buf'')
      | None => None
      end
  end.

(** The [for] loop of [expand_sysex_data], from the current values of
    [data], [bytes], [offset] and [size]; the result is the final [size]
    and the buffer. *)
Fixpoint expand_sysex_data_loop (data buf : list Z) (maxlen : Z)
    (bytes : nat) (offset : Z) (size : nat) {struct bytes}
  : option (Z * list Z) :=
  match bytes with
  | O => Some (Z.of_nat size, buf)
  | S bytes' =>
    if maxlen =? 0 then Some (Z.of_nat size, buf)
    else
      let* w := word data 0 in
      let* buf' := store buf size (Z.land (Z.shiftr w offset) 127) in
      if offset =? 0
      then expand_sysex_data_loop (skipn 1 data) buf' maxlen bytes' 24 (S size)
      else expand_sysex_data_loop data buf' maxlen bytes' (offset - 8) (S size)
  end.

Definition expand_sysex_data (data buf : list Z) (maxlen : Z)
    (bytes : nat) (offset : Z) : option (Z * list Z) :=
  expand_sysex_data_loop data buf maxlen bytes offset 0.

(** Byte [j] of a packet, most significant byte of a word first. *)
Definition ump_byte (data : list Z) (j : Z) : option Z :=
  let* w := word data (j / 4) in
  Some (Z.land (Z.shiftr w (24 - 8 * (j mod 4))) 255).

(** The table of [snd_ump_packet_length]. *)
Definition packet_length : list Z :=
  [1; 1; 1; 2; 2; 4; 1; 1; 2; 2; 2; 3; 3; 4; 4; 4].

(** [snd_ump_packet_length]; [None] is a read past the end of the
    table. *)
Definition snd_ump_packet_length (type : Z) : option Z :=
  if type >? 16 then Some 0 else word packet_length type.

(** * Properties *)

(** ** Wrap-around lemmas *)

Lemma two_LONG_BIT : 2 ^ LONG_BIT = 18446744073709551616.
Proof. reflexivity. Qed.

Lemma two_LONG_BIT_pred : 2 ^ (LONG_BIT - 1) = 9223372036854775808.
Proof. reflexivity. Qed.

Lemma LONG_MAX_value : LONG_MAX = 9223372036854775807.
Proof. reflexivity. Qed.

Lemma LONG_MIN_value : LONG_MIN = -9223372036854775808.
Proof. reflexivity. Qed.

Lemma ULONG_MAX_value : ULONG_MAX = 18446744073709551615.
Proof. reflexivity. Qed.

Ltac limits :=
  unfold is_uframes in *;
  rewrite ?LONG_MAX_value, ?LONG_MIN_value, ?ULONG_MAX_value in *.

Lemma to_uframes_small x : 0 <= x <= ULONG_MAX -> to_uframes x = x.
Proof.
  intros Hx. unfold to_uframes. rewrite two_LONG_BIT.
  apply Z.mod_small. limits. lia.
Qed.

Lemma to_sframes_small x : LONG_MIN <= x <= LONG_MAX -> to_sframes x = x.
Proof.
  intros Hx. unfold to_sframes. rewrite two_LONG_BIT, two_LONG_BIT_pred.
  limits. rewrite Z.mod_small; lia.
Qed.

Lemma to_uframes_range x : 0 <= to_uframes x <= ULONG_MAX.
Proof.
  unfold to_uframes. rewrite two_LONG_BIT. limits.
  pose proof (Z.mod_pos_bound x 18446744073709551616). lia.
Qed.

Lemma to_sframes_range x : LONG_MIN <= to_sframes x <= LONG_MAX.
Proof.
  unfold to_sframes. rewrite two_LONG_BIT, two_LONG_BIT_pred. limits.
  pose proof (Z.mod_pos_bound (x + 9223372036854775808) 18446744073709551616).
  lia.
Qed.

Lemma to_sframes_to_uframes x : to_sframes (to_uframes x) = to_sframes x.
Proof.
  unfold to_sframes, to_uframes. now rewrite Zplus_mod_idemp_l.
Qed.

Lemma to_uframes_to_sframes x : to_uframes (to_sframes x) = to_uframes x.
Proof.
  unfold to_sframes, to_uframes.
  rewrite Zminus_mod_idemp_l.
  replace (x + 2 ^ (LONG_BIT - 1) - 2 ^ (LONG_BIT - 1)) with x by lia.
  reflexivity.
Qed.

Lemma uframes_add_to_uframes_l x y :
  uframes_add (to_uframes x) y = to_uframes (x + y).
Proof. unfold uframes_add, to_uframes. now rewrite Zplus_mod_idemp_l. Qed.

Lemma uframes_sub_to_uframes_l x y :
  uframes_sub (to_uframes x) y = to_uframes (x - y).
Proof. unfold uframes_sub, to_uframes. now rewrite Zminus_mod_idemp_l. Qed.

Lemma uframes_sub_uframes_add x y z :
  uframes_sub (uframes_add x y) z = to_uframes (x + y - z).
Proof. unfold uframes_add. apply uframes_sub_to_uframes_l. Qed.

Lemma to_uframes_idem x : to_uframes (to_uframes x) = to_uframes x.
Proof. unfold to_uframes. apply Z.mod_mod. now rewrite two_LONG_BIT. Qed.

Create Rewrite HintDb frames.
#[local] Hint Rewrite to_sframes_to_uframes to_uframes_to_sframes
  to_uframes_idem uframes_add_to_uframes_l uframes_sub_to_uframes_l
  uframes_sub_uframes_add : frames.

(** The signed difference of two frame counts, when it is representable. *)
Lemma sframes_sub_exact x y :
  LONG_MIN <= x - y <= LONG_MAX -> to_sframes (uframes_sub x y) = x - y.
Proof.
  intros H. unfold uframes_sub. rewrite to_sframes_to_uframes.
  now apply to_sframes_small.
Qed.

(** ** Playback: the value computed, without any overflow *)

Lemma playback_avail_mod {World} (pcm : snd_pcm_t World) hw appl :
  0 <= appl < boundary pcm ->
  0 <= hw < boundary pcm ->
  0 <= buffer_size pcm <= boundary pcm ->
  boundary pcm + buffer_size pcm <= LONG_MAX + 1 ->
  __snd_pcm_playback_avail pcm hw appl
  = (hw + buffer_size pcm - appl) mod boundary pcm.
Proof.
  intros Ha Hh Hb Hfit. unfold __snd_pcm_playback_avail.
  autorewrite with frames.
  set (v := hw + buffer_size pcm - appl).
  assert (Hv : LONG_MIN <= v <= LONG_MAX) by (subst v; limits; lia).
  rewrite (to_sframes_small v Hv).
  destruct (Z.ltb_spec v 0) as [Hneg | Hpos].
  - (* avail += boundary *)
    autorewrite with frames.
    rewrite to_uframes_small by (limits; subst v; lia).
    apply Z.mod_unique with (q := -1); subst v; lia.
  - rewrite (to_uframes_small v) by (limits; lia).
    destruct (Z.geb_spec v (boundary pcm)) as [Hge | Hlt].
    + (* avail -= boundary *)
      unfold uframes_sub. autorewrite with frames.
      rewrite to_uframes_small by (limits; lia).
      apply Z.mod_unique with (q := 1); subst v; lia.
    + rewrite to_uframes_small by (limits; lia).
      symmetry. apply Z.mod_small. lia.
Qed.

Lemma capture_avail_mod {World} (pcm : snd_pcm_t World) hw appl :
  0 <= appl < boundary pcm ->
  0 <= hw < boundary pcm ->
  boundary pcm <= LONG_MAX + 1 ->
  __snd_pcm_capture_avail pcm hw appl = (hw - appl) mod boundary pcm.
Proof.
  intros Ha Hh Hfit. unfold __snd_pcm_capture_avail.
  rewrite sframes_sub_exact by (limits; lia).
  destruct (Z.ltb_spec (hw - appl) 0) as [Hneg | Hpos].
  - autorewrite with frames.
    rewrite to_uframes_small by (limits; lia).
    apply Z.mod_unique with (q := -1); lia.
  - rewrite to_uframes_small by (limits; lia).
    symmetry. apply Z.mod_small. lia.
Qed.

Ltac concrete := cbn; limits; lia.

(** ** Playback: available frames *)

(** C1, as stated, fails: the code never clamps to [buffer_size].  With
    [buffer_size = 1024], [boundary = 4096], [appl_ptr = 0] and
    [hw_ptr = 2048] it returns 3072 where the clamped value is 1024. *)
Lemma playback_avail_exceeds_buffer_size :
  ~ (forall (pcm : snd_pcm_t unit) hw appl,
        0 <= appl < boundary pcm ->
        0 <= hw < boundary pcm ->
        buffer_size pcm <= boundary pcm ->
        __snd_pcm_playback_avail pcm hw appl
        = available_for_write_spec pcm hw appl).
Proof.
  intros claim.
  assert (E : __snd_pcm_playback_avail (ring SND_PCM_STREAM_PLAYBACK 1024 4096 0 2048) 2048 0
              = available_for_write_spec (ring SND_PCM_STREAM_PLAYBACK 1024 4096 0 2048) 2048 0)
    by (apply claim; concrete).
  vm_compute in E. discriminate E.
Qed.

(** C1, amended: for [0 <= appl_ptr < boundary], [0 <= hw_ptr < boundary]
    and [buffer_size <= boundary], with [boundary + buffer_size] within
    the signed frame type, [__snd_pcm_playback_avail] returns
    [hw_ptr + buffer_size - appl_ptr] normalized modulo [boundary] into
    [[0, boundary)], and nothing more: there is no clamp to
    [buffer_size]. *)
Theorem playback_avail_normalized {World} (pcm : snd_pcm_t World) hw appl :
  0 <= appl < boundary pcm ->
  0 <= hw < boundary pcm ->
  0 <= buffer_size pcm <= boundary pcm ->
  boundary pcm + buffer_size pcm <= LONG_MAX + 1 ->
  __snd_pcm_playback_avail pcm hw appl
  = (hw + buffer_size pcm - appl) mod boundary pcm
  /\ 0 <= __snd_pcm_playback_avail pcm hw appl < boundary pcm.
Proof.
  intros Ha Hh Hb Hfit.
  rewrite (playback_avail_mod pcm hw appl Ha Hh Hb Hfit).
  split; [reflexivity | apply Z.mod_pos_bound; lia].
Qed.

Lemma playback_avail_normalized_witness :
  let pcm := ring SND_PCM_STREAM_PLAYBACK 1024 4096 0 2048 in
  __snd_pcm_playback_avail pcm 2048 0 = (2048 + 1024 - 0) mod 4096
  /\ 0 <= __snd_pcm_playback_avail pcm 2048 0 < 4096.
Proof.
  intros pcm.
  apply (playback_avail_normalized pcm 2048 0); concrete.
Defined.

(** C3, as stated, fails: with [buffer_size = 8192], [boundary = 16384],
    [appl_ptr = 0] and [hw_ptr = 4096] the playback computation reports
    12288 frames, not 4096. *)
Lemma playback_scenario_is_not_4096 :
  ~ (forall N, 2 <= N ->
        snd_pcm_mmap_playback_avail
          (ring SND_PCM_STREAM_PLAYBACK 8192 (8192 * N) 0 4096) = 4096).
Proof.
  intros claim. specialize (claim 2 ltac:(lia)).
  vm_compute in claim. discriminate claim.
Qed.

(** C3, amended: with [buffer_size = 8192], [boundary = 8192 * N] for
    [N >= 2], [appl_ptr = 0] and [hw_ptr = 4096], the playback
    available-for-write computation reports [8192 + 4096 = 12288] frames
    (the whole buffer was free before the hardware moved); it is the
    capture available-for-read computation that reports 4096. *)
Theorem scenario_hw_advanced_4096 {World} (pcm : snd_pcm_t World) N :
  buffer_size pcm = 8192 ->
  boundary pcm = 8192 * N ->
  2 <= N ->
  appl_ptr pcm = 0 ->
  hw_ptr pcm = 4096 ->
  snd_pcm_mmap_playback_avail pcm = 12288
  /\ snd_pcm_mmap_capture_avail pcm = 4096.
Proof.
  intros Hbs Hbnd HN Happl Hhw.
  unfold snd_pcm_mmap_playback_avail, snd_pcm_mmap_capture_avail,
    __snd_pcm_playback_avail, __snd_pcm_capture_avail.
  rewrite Hbs, Happl, Hhw.
  change (to_sframes (uframes_sub (uframes_add 4096 8192) 0)) with 12288.
  change (to_sframes (uframes_sub 4096 0)) with 4096.
  change (to_uframes 12288) with 12288.
  cbn [Z.ltb Z.compare Pos.compare].
  split; [| reflexivity].
  destruct (Z.geb_spec 12288 (boundary pcm)) as [Hge | _]; [lia | reflexivity].
Qed.

Lemma scenario_hw_advanced_4096_witness :
  let pcm := ring SND_PCM_STREAM_PLAYBACK 8192 32768 0 4096 in
  snd_pcm_mmap_playback_avail pcm = 12288
  /\ snd_pcm_mmap_capture_avail pcm = 4096.
Proof.
  intros pcm.
  apply (scenario_hw_advanced_4096 pcm 4); try reflexivity; concrete.
Defined.

(** ** Capture: available frames *)

(** C4: for [0 <= appl_ptr < boundary] and [0 <= hw_ptr < boundary], on
    a ring whose [boundary] fits the signed frame type
    ([boundary <= LONG_MAX + 1], which the choice of [boundary] of
    section 3 gives: [boundary_chosen_fits]), [__snd_pcm_capture_avail]
    returns [(hw_ptr - appl_ptr + boundary) mod boundary], which lies in
    [[0, boundary)]. *)
Theorem capture_avail_normalized {World} (pcm : snd_pcm_t World) hw appl :
  0 <= appl < boundary pcm ->
  0 <= hw < boundary pcm ->
  boundary pcm <= LONG_MAX + 1 ->
  __snd_pcm_capture_avail pcm hw appl
  = (hw - appl + boundary pcm) mod boundary pcm
  /\ 0 <= __snd_pcm_capture_avail pcm hw appl < boundary pcm.
Proof.
  intros Ha Hh Hfit.
  rewrite (capture_avail_mod pcm hw appl Ha Hh Hfit).
  split.
  - replace (hw - appl + boundary pcm) with (hw - appl + 1 * boundary pcm) by lia.
    now rewrite Z.mod_add by lia.
  - apply Z.mod_pos_bound; lia.
Qed.

Lemma capture_avail_normalized_witness :
  let pcm := ring SND_PCM_STREAM_CAPTURE 8192 16384 16000 100 in
  __snd_pcm_capture_avail pcm 100 16000 = (100 - 16000 + 16384) mod 16384
  /\ 0 <= __snd_pcm_capture_avail pcm 100 16000 < 16384.
Proof.
  intros pcm.
  apply (capture_avail_normalized pcm 100 16000); concrete.
Defined.

(** ** Reachable states *)

Section Reachable.

Context {World : Type}.
Implicit Types pcm : snd_pcm_t World.



Lemma boundary_chosen_fits pcm :
  boundary_chosen pcm -> boundary pcm <= LONG_MAX + 1.
Proof.
  intros (Hbs & _ & _ & Hfit). lia.
Qed.









Lemma run_app l1 : forall l2 pcm0 pcm1 pcm,
  run pcm0 l1 = Some pcm1 -> run pcm1 l2 = Some pcm ->
  run pcm0 (l1 ++ l2) = Some pcm.
Proof.
  induction l1 as [| a l1 IH]; intros l2 pcm0 pcm1 pcm H1 H2; cbn in *.
  - now injection H1 as ->.
  - destruct (do_advance pcm0 a) as [pcm' |]; [| discriminate H1].
    now apply IH with pcm1.
Qed.

Lemma reachable_run pcm0 pcm :
  reachable pcm0 pcm -> exists l, run pcm0 l = Some pcm.
Proof.
  induction 1 as [| pcm pcm' _ (l & Hl) [a pcm'' Hdo]].
  - now exists [].
  - exists (l ++ [a]). apply run_app with pcm; [exact Hl |].
    cbn [run]. now rewrite Hdo.
Qed.

End Reachable.




(** The run of the witness and the two ends of a run: the buffer
    written full and played to the end, then an underrun of 4096
    frames. *)
Example run_examples :
  let pcm0 := ring SND_PCM_STREAM_PLAYBACK 8192 16384 0 0 in
  option_map snd_pcm_mmap_avail (run pcm0 []) = Some 8192
  /\ option_map snd_pcm_mmap_avail (run pcm0 [Appl 8192]) = Some 0
  /\ option_map snd_pcm_mmap_avail (run pcm0 [Appl 8192; Hw 8192])
     = Some 8192
  /\ option_map snd_pcm_mmap_avail (run pcm0 [Appl 8192; Hw 12288])
     = Some 12288
  /\ option_map snd_pcm_mmap_playback_hw_avail
       (run pcm0 [Appl 8192; Hw 12288]) = Some (-4096)
  /\ run pcm0 [Appl 8193] = None
  /\ option_map snd_pcm_mmap_avail
       (run (ring SND_PCM_STREAM_CAPTURE 8192 16384 0 0) [Hw 12288])
     = Some 12288.
Proof. repeat split; reflexivity. Qed.

(** ** Wrap-around at the boundary *)

(** C5: for [appl_ptr] and [hw_ptr] in [[0, boundary)], advancing
    [appl_ptr] by exactly [boundary] frames gives back the same pointer,
    so [pcm_frame_diff] (either way round) and the available-frames
    computations return what they returned before. *)
Theorem advance_appl_by_boundary {World} (pcm : snd_pcm_t World) :
  0 <= appl_ptr pcm < boundary pcm ->
  0 <= hw_ptr pcm < boundary pcm ->
  let pcm' := advance_appl_ptr pcm (boundary pcm) in
  appl_ptr pcm' = appl_ptr pcm
  /\ pcm_frame_diff (appl_ptr pcm') (hw_ptr pcm') (boundary pcm')
     = pcm_frame_diff (appl_ptr pcm) (hw_ptr pcm) (boundary pcm)
  /\ pcm_frame_diff (hw_ptr pcm') (appl_ptr pcm') (boundary pcm')
     = pcm_frame_diff (hw_ptr pcm) (appl_ptr pcm) (boundary pcm)
  /\ snd_pcm_mmap_playback_avail pcm' = snd_pcm_mmap_playback_avail pcm
  /\ snd_pcm_mmap_capture_avail pcm' = snd_pcm_mmap_capture_avail pcm
  /\ snd_pcm_mmap_avail pcm' = snd_pcm_mmap_avail pcm.
Proof.
  intros Ha Hh pcm'.
  assert (Hwrap : (appl_ptr pcm + boundary pcm) mod boundary pcm = appl_ptr pcm).
  { replace (appl_ptr pcm + boundary pcm)
      with (appl_ptr pcm + 1 * boundary pcm) by lia.
    rewrite Z.mod_add by lia. apply Z.mod_small. exact Ha. }
  assert (Hsame : pcm' = pcm).
  { subst pcm'. unfold advance_appl_ptr, with_appl_ptr. rewrite Hwrap.
    destruct pcm; reflexivity. }
  rewrite Hsame. repeat split; reflexivity.
Qed.

Lemma advance_appl_by_boundary_witness :
  let pcm := ring SND_PCM_STREAM_PLAYBACK 8192 16384 5000 9000 in
  let pcm' := advance_appl_ptr pcm (boundary pcm) in
  appl_ptr pcm' = appl_ptr pcm
  /\ pcm_frame_diff (appl_ptr pcm') (hw_ptr pcm') (boundary pcm')
     = pcm_frame_diff (appl_ptr pcm) (hw_ptr pcm) (boundary pcm)
  /\ pcm_frame_diff (hw_ptr pcm') (appl_ptr pcm') (boundary pcm')
     = pcm_frame_diff (hw_ptr pcm) (appl_ptr pcm) (boundary pcm)
  /\ snd_pcm_mmap_playback_avail pcm' = snd_pcm_mmap_playback_avail pcm
  /\ snd_pcm_mmap_capture_avail pcm' = snd_pcm_mmap_capture_avail pcm
  /\ snd_pcm_mmap_avail pcm' = snd_pcm_mmap_avail pcm.
Proof.
  intros pcm.
  apply (advance_appl_by_boundary pcm); concrete.
Defined.

(** ** Rewindable frames *)

Lemma clamp_at_zero x : (if x >=? 0 then x else 0) = Z.max x 0.
Proof. destruct (Z.geb_spec x 0); lia. Qed.

(** C9: in every stream state, each of the three rewindable-frames
    computations returns [max (buffer_size - avail, 0)], where
    [buffer_size - avail] is the signed frame count of the matching
    [hw_avail] function, and so never returns a negative count.  That
    signed count is the mathematical difference whenever the difference
    fits [snd_pcm_sframes_t], in particular when [avail] exceeds
    [buffer_size] after an xrun. *)
Theorem rewindable_never_negative {World} (pcm : snd_pcm_t World) :
  (snd_pcm_mmap_playback_hw_rewindable pcm
   = Z.max (snd_pcm_mmap_playback_hw_avail pcm) 0
   /\ 0 <= snd_pcm_mmap_playback_hw_rewindable pcm
   /\ (LONG_MIN <= buffer_size pcm - snd_pcm_mmap_playback_avail pcm <= LONG_MAX ->
       snd_pcm_mmap_playback_hw_rewindable pcm
       = Z.max (buffer_size pcm - snd_pcm_mmap_playback_avail pcm) 0))
  /\
  (snd_pcm_mmap_capture_hw_rewindable pcm
   = Z.max (snd_pcm_mmap_capture_hw_avail pcm) 0
   /\ 0 <= snd_pcm_mmap_capture_hw_rewindable pcm
   /\ (LONG_MIN <= buffer_size pcm - snd_pcm_mmap_capture_avail pcm <= LONG_MAX ->
       snd_pcm_mmap_capture_hw_rewindable pcm
       = Z.max (buffer_size pcm - snd_pcm_mmap_capture_avail pcm) 0))
  /\
  (snd_pcm_mmap_hw_rewindable pcm = Z.max (snd_pcm_mmap_hw_avail pcm) 0
   /\ 0 <= snd_pcm_mmap_hw_rewindable pcm
   /\ (LONG_MIN <= buffer_size pcm - snd_pcm_mmap_avail pcm <= LONG_MAX ->
       snd_pcm_mmap_hw_rewindable pcm
       = Z.max (buffer_size pcm - snd_pcm_mmap_avail pcm) 0)).
Proof.
  unfold snd_pcm_mmap_playback_hw_rewindable, snd_pcm_mmap_capture_hw_rewindable,
    snd_pcm_mmap_hw_rewindable.
  cbv zeta. rewrite !clamp_at_zero.
  assert (Hgen : to_uframes (Z.max (snd_pcm_mmap_hw_avail pcm) 0)
                 = Z.max (snd_pcm_mmap_hw_avail pcm) 0).
  { apply to_uframes_small.
    pose proof (to_sframes_range
                  (uframes_sub (buffer_size pcm) (snd_pcm_mmap_avail pcm))) as Hr.
    fold (snd_pcm_mmap_hw_avail pcm) in Hr. limits. lia. }
  rewrite Hgen.
  repeat split; try lia; intros Hfit;
    unfold snd_pcm_mmap_playback_hw_avail, snd_pcm_mmap_capture_hw_avail,
      snd_pcm_mmap_hw_avail;
    now rewrite sframes_sub_exact.
Qed.

(** After an xrun ([avail = 12288] exceeds [buffer_size = 8192]) nothing
    can be rewound; in a half-filled buffer half of it can. *)
Example rewindable_after_xrun :
  snd_pcm_mmap_playback_avail (ring SND_PCM_STREAM_PLAYBACK 8192 16384 0 4096) = 12288
  /\ snd_pcm_mmap_playback_hw_avail (ring SND_PCM_STREAM_PLAYBACK 8192 16384 0 4096) = -4096
  /\ snd_pcm_mmap_playback_hw_rewindable (ring SND_PCM_STREAM_PLAYBACK 8192 16384 0 4096) = 0
  /\ snd_pcm_mmap_hw_rewindable (ring SND_PCM_STREAM_PLAYBACK 8192 16384 0 4096) = 0
  /\ snd_pcm_mmap_hw_rewindable (ring SND_PCM_STREAM_PLAYBACK 8192 16384 4096 0) = 4096
  /\ snd_pcm_mmap_capture_hw_rewindable (ring SND_PCM_STREAM_CAPTURE 8192 16384 0 12288) = 0.
Proof. repeat split; reflexivity. Qed.

(** ** Dispatch through [fast_ops] *)

Lemma invoke_runs_callback {World R} (op : fast_op) (cb : @callback World R) :
  runs_callback (invoke op cb) op cb.
Proof.
  intros m. unfold invoke. now destruct (cb (world m)).
Qed.

(** C10: a wrapper whose member of [fast_ops] is NULL returns [-ENOSYS]
    ([SND_PCM_STATE_OPEN] for the state wrapper) and enters no callback;
    a wrapper whose member is set is exactly one call of that member on
    [fast_op_arg] and the wrapper's own arguments. *)
Theorem fast_ops_dispatch {World} (pcm : snd_pcm_t World) :
  ((avail_update (fast_ops pcm) = None ->
    returns_without_call (__snd_pcm_avail_update pcm) (- ENOSYS))
   /\ (forall cb, avail_update (fast_ops pcm) = Some cb ->
       runs_callback (__snd_pcm_avail_update pcm) OP_avail_update
         (cb (fast_op_arg pcm))))
  /\
  ((start (fast_ops pcm) = None ->
    returns_without_call (__snd_pcm_start pcm) (- ENOSYS))
   /\ (forall cb, start (fast_ops pcm) = Some cb ->
       runs_callback (__snd_pcm_start pcm) OP_start (cb (fast_op_arg pcm))))
  /\
  ((state (fast_ops pcm) = None ->
    returns_without_call (__snd_pcm_state pcm) SND_PCM_STATE_OPEN)
   /\ (forall cb, state (fast_ops pcm) = Some cb ->
       runs_callback (__snd_pcm_state pcm) OP_state (cb (fast_op_arg pcm))))
  /\
  ((hwsync (fast_ops pcm) = None ->
    returns_without_call (__snd_pcm_hwsync pcm) (- ENOSYS))
   /\ (forall cb, hwsync (fast_ops pcm) = Some cb ->
       runs_callback (__snd_pcm_hwsync pcm) OP_hwsync (cb (fast_op_arg pcm))))
  /\
  (forall delayp,
     (delay (fast_ops pcm) = None ->
      returns_without_call (__snd_pcm_delay pcm delayp) (- ENOSYS))
     /\ (forall cb, delay (fast_ops pcm) = Some cb ->
         runs_callback (__snd_pcm_delay pcm delayp) OP_delay
           (cb (fast_op_arg pcm) delayp)))
  /\
  (forall buffer size,
     (writei (fast_ops pcm) = None ->
      returns_without_call (_snd_pcm_writei pcm buffer size) (- ENOSYS))
     /\ (forall cb, writei (fast_ops pcm) = Some cb ->
         runs_callback (_snd_pcm_writei pcm buffer size) OP_writei
           (cb (fast_op_arg pcm) buffer size)))
  /\
  (forall bufs size,
     (writen (fast_ops pcm) = None ->
      returns_without_call (_snd_pcm_writen pcm bufs size) (- ENOSYS))
     /\ (forall cb, writen (fast_ops pcm) = Some cb ->
         runs_callback (_snd_pcm_writen pcm bufs size) OP_writen
           (cb (fast_op_arg pcm) bufs size)))
  /\
  (forall buffer size,
     (readi (fast_ops pcm) = None ->
      returns_without_call (_snd_pcm_readi pcm buffer size) (- ENOSYS))
     /\ (forall cb, readi (fast_ops pcm) = Some cb ->
         runs_callback (_snd_pcm_readi pcm buffer size) OP_readi
           (cb (fast_op_arg pcm) buffer size)))
  /\
  (forall bufs size,
     (readn (fast_ops pcm) = None ->
      returns_without_call (_snd_pcm_readn pcm bufs size) (- ENOSYS))
     /\ (forall cb, readn (fast_ops pcm) = Some cb ->
         runs_callback (_snd_pcm_readn pcm bufs size) OP_readn
           (cb (fast_op_arg pcm) bufs size))).
Proof.
  unfold __snd_pcm_avail_update, __snd_pcm_start, __snd_pcm_state,
    __snd_pcm_hwsync, __snd_pcm_delay, _snd_pcm_writei, _snd_pcm_writen,
    _snd_pcm_readi, _snd_pcm_readn.
  repeat match goal with
         | |- _ /\ _ => split
         | |- forall _ : Z, _ => intro
         end.
  all: first [ intros -> m; reflexivity
             | intros cb ->; apply invoke_runs_callback ].
Qed.

(** ** [snd_pcm_may_wait_for_avail_min] *)

(** C8: with [avail >= avail_min] the function returns 0 (the caller must
    not block); with [avail < avail_min] and no [may_wait_for_avail_min]
    callback it returns 1 (the caller may block).  Neither case enters a
    callback; when the callback is set and [avail < avail_min], the answer
    is the callback's. *)
Theorem may_wait_for_avail_min_cases {World} (pcm : snd_pcm_t World) (avail : Z) :
  (avail_min pcm <= avail ->
   returns_without_call (snd_pcm_may_wait_for_avail_min pcm avail) 0)
  /\ (avail < avail_min pcm ->
      may_wait_for_avail_min (fast_ops pcm) = None ->
      returns_without_call (snd_pcm_may_wait_for_avail_min pcm avail) 1)
  /\ (avail < avail_min pcm ->
      forall cb, may_wait_for_avail_min (fast_ops pcm) = Some cb ->
      runs_callback (snd_pcm_may_wait_for_avail_min pcm avail)
        OP_may_wait_for_avail_min (cb (fast_op_arg pcm) avail)).
Proof.
  unfold snd_pcm_may_wait_for_avail_min.
  destruct (Z.geb_spec avail (avail_min pcm)) as [Hge | Hlt].
  - split; [intros _ m; reflexivity | split; intros Hlt; lia].
  - split; [intros Hge; lia |].
    split.
    + intros _ -> m. reflexivity.
    + intros _ cb ->. apply invoke_runs_callback.
Qed.

Example may_wait_examples :
  snd_pcm_may_wait_for_avail_min (ring SND_PCM_STREAM_PLAYBACK 8192 16384 0 0) 1 idle
  = (0, idle)
  /\ snd_pcm_may_wait_for_avail_min (ring SND_PCM_STREAM_PLAYBACK 8192 16384 0 0) 0 idle
     = (1, idle).
Proof. split; reflexivity. Qed.

(** ** [snd_pcm_check_error] *)

(** C7, as stated, fails: [-EPIPE] is also returned when [err] is already
    [-EPIPE], whatever the state.  In state RUNNING,
    [snd_pcm_check_error (pcm, -EPIPE)] is [-EPIPE] although [err] is not
    [-EINTR]. *)
Lemma check_error_EPIPE_not_only_from_EINTR :
  ~ (forall (pcm : snd_pcm_t unit) err m,
        fst (snd_pcm_check_error pcm err m) = - EPIPE
        <-> (err = - EINTR
             /\ fst (__snd_pcm_state pcm m) = SND_PCM_STATE_XRUN)).
Proof.
  intros claim.
  destruct (claim (pcm_in_state SND_PCM_STATE_RUNNING) (- EPIPE) idle)
    as [Hexact _].
  destruct (Hexact eq_refl) as [Herr _]. discriminate Herr.
Qed.

(** C7, amended: when [err] is [-EINTR], [snd_pcm_check_error] returns
    [-EPIPE] in state XRUN, [-ESTRPIPE] in state SUSPENDED and [-ENODEV]
    in state DISCONNECTED; for every other combination it returns [err]
    unchanged.  Hence the result is [-EPIPE] exactly when either [err] is
    [-EINTR] in state XRUN or [err] is [-EPIPE] itself.  The state is
    the one [__snd_pcm_state] reports, and it is not queried unless [err]
    is [-EINTR]. *)
Theorem check_error_cases {World} (pcm : snd_pcm_t World) (err : Z)
    (m : machine World) :
  let st := fst (__snd_pcm_state pcm m) in
  let r := fst (snd_pcm_check_error pcm err m) in
  (err = - EINTR -> st = SND_PCM_STATE_XRUN -> r = - EPIPE)
  /\ (err = - EINTR -> st = SND_PCM_STATE_SUSPENDED -> r = - ESTRPIPE)
  /\ (err = - EINTR -> st = SND_PCM_STATE_DISCONNECTED -> r = - ENODEV)
  /\ (err <> - EINTR
      \/ (st <> SND_PCM_STATE_XRUN /\ st <> SND_PCM_STATE_SUSPENDED
          /\ st <> SND_PCM_STATE_DISCONNECTED) ->
      r = err)
  /\ (r = - EPIPE <->
      (err = - EINTR /\ st = SND_PCM_STATE_XRUN) \/ err = - EPIPE)
  /\ (err <> - EINTR -> snd_pcm_check_error pcm err m = (err, m)).
Proof.
  intros st r. subst st r. unfold snd_pcm_check_error.
  destruct (Z.eqb_spec err (- EINTR)) as [-> | Hne].
  - unfold bind. destruct (__snd_pcm_state pcm m) as [st m'].
    cbn [fst]. unfold EINTR, EPIPE, ESTRPIPE, ENODEV.
    destruct st; cbn [fst ret];
      repeat split; intros; try reflexivity; try congruence; try lia;
      intuition (try congruence; try lia).
  - cbn [fst ret]. repeat split; intros; try reflexivity; try congruence;
      intuition (try congruence; try lia).
Qed.

Example check_error_examples :
  fst (snd_pcm_check_error (pcm_in_state SND_PCM_STATE_XRUN) (- EINTR) idle) = - EPIPE
  /\ fst (snd_pcm_check_error (pcm_in_state SND_PCM_STATE_SUSPENDED) (- EINTR) idle)
     = - ESTRPIPE
  /\ fst (snd_pcm_check_error (pcm_in_state SND_PCM_STATE_DISCONNECTED) (- EINTR) idle)
     = - ENODEV
  /\ fst (snd_pcm_check_error (pcm_in_state SND_PCM_STATE_RUNNING) (- EINTR) idle)
     = - EINTR
  /\ fst (snd_pcm_check_error (pcm_in_state SND_PCM_STATE_XRUN) 0 idle) = 0
  /\ fst (snd_pcm_check_error (ring SND_PCM_STREAM_PLAYBACK 8192 16384 0 0)
            (- EINTR) idle) = - EINTR.
Proof. repeat split; reflexivity. Qed.

(** ** [muldiv_near] *)

Lemma INT_MAX_value : INT_MAX = 2147483647.
Proof. reflexivity. Qed.

Lemma INT_MIN_value : INT_MIN = -2147483648.
Proof. reflexivity. Qed.

Lemma int_result_fits x : INT_MIN <= x <= INT_MAX -> int_result x = Some x.
Proof.
  intros [Hlo Hhi]. unfold int_result.
  apply Z.leb_le in Hlo, Hhi. now rewrite Hlo, Hhi.
Qed.

(** The rounding of a non-negative [n] over [c]: the quotient, plus one
    when the remainder is at least half of [c]. *)
Lemma nearest_ties_up_value n c :
  0 <= n -> 0 < c ->
  nearest_ties_up n c (n / c + (if 2 * (n mod c) >=? c then 1 else 0)).
Proof.
  intros Hn Hc.
  pose proof (Z.div_mod n c ltac:(lia)) as Hdiv.
  pose proof (Z.mod_pos_bound n c Hc) as Hr.
  set (q := n / c) in *. set (r := n mod c) in *.
  assert (Hdist : forall k, Z.abs (k * c - n) = Z.abs ((k - q) * c - r))
    by (intros k; f_equal; lia).
  assert (Hbelow : forall k, k <= q -> Z.abs ((k - q) * c - r) = (q - k) * c + r).
  { intros k Hk. assert (0 <= (q - k) * c) by (apply Z.mul_nonneg_nonneg; lia).
    lia. }
  assert (Habove : forall k, q < k -> Z.abs ((k - q) * c - r) = (k - q) * c - r
                                      /\ c <= (k - q) * c).
  { intros k Hk.
    assert (1 * c <= (k - q) * c) by (apply Z.mul_le_mono_nonneg_r; lia).
    lia. }
  split; intros k; rewrite !Hdist;
    destruct (Z.geb_spec (2 * r) c) as [Hup | Hdown].
  - (* rounded up: distance c - r *)
    replace (q + 1 - q) with 1 by lia.
    destruct (Z_le_gt_dec k q) as [Hk | Hk].
    + rewrite (Hbelow k Hk).
      assert (0 <= (q - k) * c) by (apply Z.mul_nonneg_nonneg; lia). lia.
    + destruct (Habove k ltac:(lia)) as [-> ?]. lia.
  - (* rounded down: distance r *)
    replace (q + 0 - q) with 0 by lia.
    destruct (Z_le_gt_dec k q) as [Hk | Hk].
    + rewrite (Hbelow k Hk).
      assert (0 <= (q - k) * c) by (apply Z.mul_nonneg_nonneg; lia). lia.
    + destruct (Habove k ltac:(lia)) as [-> ?]. lia.
  - replace (q + 1 - q) with 1 by lia.
    intros Htie.
    destruct (Z_le_gt_dec k (q + 1)) as [Hk | Hk]; [lia | exfalso].
    destruct (Habove k ltac:(lia)) as [E _]. rewrite E in Htie.
    assert (2 * c <= (k - q) * c) by (apply Z.mul_le_mono_nonneg_r; lia).
    lia.
  - replace (q + 0 - q) with 0 by lia.
    intros Htie.
    destruct (Z_le_gt_dec k q) as [Hk | Hk]; [lia | exfalso].
    destruct (Habove k ltac:(lia)) as [E Hc']. rewrite E in Htie.
    lia.
Qed.

Lemma nearest_ties_up_unique n c m m' :
  nearest_ties_up n c m -> nearest_ties_up n c m' -> m = m'.
Proof.
  intros [Hmin Htie] [Hmin' Htie'].
  assert (E : Z.abs (m * c - n) = Z.abs (m' * c - n)).
  { apply Z.le_antisymm; [apply Hmin | apply Hmin']. }
  apply Z.le_antisymm.
  - apply Htie'. exact E.
  - apply Htie. symmetry. exact E.
Qed.

(** What the code computes on a non-negative product. *)
Lemma muldiv_near_nonneg a b c :
  0 <= a * b ->
  0 < c < INT_MAX ->
  a * b / c + (if 2 * (a * b mod c) >=? c then 1 else 0) <= INT_MAX ->
  muldiv_near a b c
  = Some (a * b / c + (if 2 * (a * b mod c) >=? c then 1 else 0)).
Proof.
  intros Hn Hc Hfit.
  pose proof (Z.mod_pos_bound (a * b) c ltac:(lia)) as Hr.
  pose proof (Z.div_pos (a * b) c Hn ltac:(lia)) as Hq.
  unfold muldiv_near, muldiv.
  rewrite Z.quot_div_nonneg, Z.rem_mod_nonneg by lia.
  set (q := a * b / c) in *. set (r := a * b mod c) in *.
  rewrite INT_MAX_value in *.
  destruct (Z.eqb_spec c 0) as [? | _]; [lia |].
  assert (Hq' : q <= 2147483647) by (destruct (2 * r >=? c); lia).
  destruct (Z.gtb_spec q 2147483647) as [? | _]; [lia |].
  destruct (Z.ltb_spec q INT_MIN) as [? | _];
    [rewrite INT_MIN_value in *; lia |].
  rewrite int_result_fits by (rewrite INT_MAX_value, INT_MIN_value; lia).
  rewrite Z.quot_div_nonneg by lia.
  assert (Hhalf : (r >=? (c + 1) / 2) = (2 * r >=? c)).
  { pose proof (Z.div_mod (c + 1) 2 ltac:(lia)).
    pose proof (Z.mod_pos_bound (c + 1) 2 ltac:(lia)).
    destruct (Z.geb_spec r ((c + 1) / 2)), (Z.geb_spec (2 * r) c);
      try reflexivity; lia. }
  rewrite Hhalf.
  destruct (2 * r >=? c).
  - apply int_result_fits. rewrite INT_MAX_value, INT_MIN_value. lia.
  - f_equal. lia.
Qed.

(** C6, as stated, fails on negative products: C division truncates
    toward zero and a negative remainder never reaches the half-way
    test.  [muldiv_near (-7, 1, 4)] is [-1], but the integer nearest to
    [-7/4] is [-2]. *)
Lemma muldiv_near_negative_product :
  ~ (forall a b c,
        INT_MIN <= a <= INT_MAX ->
        INT_MIN <= b <= INT_MAX ->
        INT_MIN <= c <= INT_MAX ->
        0 < c ->
        INT_MIN <= a * b ÷ c <= INT_MAX ->
        exists m, muldiv_near a b c = Some m /\ nearest_ties_up (a * b) c m).
Proof.
  intros claim.
  destruct (claim (-7) 1 4) as (m & Hret & Hnear & _);
    try (vm_compute; split; discriminate); try lia.
  vm_compute in Hret. injection Hret as <-.
  specialize (Hnear (-2)). vm_compute in Hnear. apply Hnear. reflexivity.
Qed.

(** C6, amended: for machine integers [a], [b], [c] with a non-negative
    product [a * b] and [0 < c < INT_MAX], such that the integer nearest
    to [a * b / c] does not overflow the [int] range, [muldiv_near]
    returns the integer nearest to the exact rational [a * b / c], the
    larger of the two when they are equally near. *)
Theorem muldiv_near_rounds_to_nearest a b c :
  INT_MIN <= a <= INT_MAX ->
  INT_MIN <= b <= INT_MAX ->
  0 < c < INT_MAX ->
  0 <= a * b ->
  (forall k, nearest_ties_up (a * b) c k -> k <= INT_MAX) ->
  exists m, muldiv_near a b c = Some m /\ nearest_ties_up (a * b) c m.
Proof.
  intros _ _ Hc Hn Hfit.
  pose proof (nearest_ties_up_value (a * b) c Hn ltac:(lia)) as Hnear.
  eexists. split; [| exact Hnear].
  apply muldiv_near_nonneg; [assumption | assumption |].
  apply Hfit. exact Hnear.
Qed.

Lemma muldiv_near_rounds_to_nearest_witness :
  exists m, muldiv_near 3 1 2 = Some m /\ nearest_ties_up (3 * 1) 2 m.
Proof.
  apply (muldiv_near_rounds_to_nearest 3 1 2);
    try (rewrite ?INT_MAX_value, ?INT_MIN_value; lia).
  intros k Hk.
  rewrite (nearest_ties_up_unique (3 * 1) 2 k 2 Hk
             (nearest_ties_up_value (3 * 1) 2 ltac:(lia) ltac:(lia))).
  rewrite INT_MAX_value. lia.
Defined.

Example muldiv_near_examples :
  muldiv_near 3 1 2 = Some 2          (* 1.5: the tie goes up *)
  /\ muldiv_near 7 1 4 = Some 2       (* 1.75 *)
  /\ muldiv_near 5 1 4 = Some 1       (* 1.25 *)
  /\ muldiv_near (-7) 1 4 = Some (-1) (* -1.75 is truncated *)
  /\ muldiv_near 44100 1024 48000 = Some 941
  /\ muldiv_near INT_MAX INT_MAX 1 = Some INT_MAX.
Proof. repeat split; reflexivity. Qed.

(** ** The bounds on [boundary] cannot be dropped

    The kernel keeps [boundary + buffer_size] within [LONG_MAX].  Past
    that, the signed intermediate [avail] of the two computations
    overflows and they stop being reductions modulo [boundary]. *)

Example playback_avail_past_signed_range :
  let pcm := ring SND_PCM_STREAM_PLAYBACK (2 ^ 62) (2 ^ 62 + 1) 0 (2 ^ 62) in
  boundary pcm + buffer_size pcm = LONG_MAX + 2
  /\ __snd_pcm_playback_avail pcm (2 ^ 62) 0 = 2 ^ 64 - 2 ^ 62 + 1
  /\ (2 ^ 62 + buffer_size pcm - 0) mod boundary pcm = 2 ^ 62 - 1.
Proof. repeat split; reflexivity. Qed.

(** Capture, with [boundary = 2^63 + 1]: the difference [2^63] reads as
    [LONG_MIN], [boundary] is added and the code returns 1. *)
Example capture_avail_past_signed_range :
  let pcm := ring SND_PCM_STREAM_CAPTURE 8192 (2 ^ 63 + 1) 0 (2 ^ 63) in
  boundary pcm = LONG_MAX + 2
  /\ __snd_pcm_capture_avail pcm (2 ^ 63) 0 = 1
  /\ (2 ^ 63 - 0 + boundary pcm) mod boundary pcm = 2 ^ 63.
Proof. repeat split; reflexivity. Qed.

(** * Further properties of [pcm_local.h] *)

(** ** [pcm_frame_diff] *)

Lemma frame_diff_mod ptr1 ptr2 boundary :
  0 <= ptr1 < boundary ->
  0 <= ptr2 < boundary ->
  boundary <= LONG_MAX + 1 ->
  pcm_frame_diff ptr1 ptr2 boundary = (ptr1 - ptr2) mod boundary.
Proof.
  intros H1 H2 Hfit. unfold pcm_frame_diff.
  destruct (Z.ltb_spec ptr1 ptr2) as [Hlt | Hge].
  - unfold uframes_add, uframes_sub. autorewrite with frames.
    rewrite (to_uframes_small (boundary - ptr2)) by (limits; lia).
    rewrite to_sframes_small by (limits; lia).
    apply Z.mod_unique with (q := -1); lia.
  - rewrite sframes_sub_exact by (limits; lia).
    symmetry. apply Z.mod_small. lia.
Qed.

(** X1: for two pointers in [[0, boundary)], with [boundary] within the
    signed frame type, [pcm_frame_diff ptr1 ptr2] is the number of frames
    from [ptr2] forward to [ptr1] around the ring:
    [(ptr1 - ptr2) mod boundary], a value in [[0, boundary)]. *)
Theorem pcm_frame_diff_forward_distance ptr1 ptr2 boundary :
  0 <= ptr1 < boundary ->
  0 <= ptr2 < boundary ->
  boundary <= LONG_MAX + 1 ->
  pcm_frame_diff ptr1 ptr2 boundary = (ptr1 - ptr2) mod boundary
  /\ 0 <= pcm_frame_diff ptr1 ptr2 boundary < boundary.
Proof.
  intros H1 H2 Hfit. rewrite frame_diff_mod by assumption.
  split; [reflexivity | apply Z.mod_pos_bound; lia].
Qed.

Lemma pcm_frame_diff_forward_distance_witness :
  pcm_frame_diff 100 16000 16384 = (100 - 16000) mod 16384
  /\ 0 <= pcm_frame_diff 100 16000 16384 < 16384.
Proof.
  apply (pcm_frame_diff_forward_distance 100 16000 16384); limits; lia.
Defined.

(** X2: the two ways round the ring add up to [boundary]: for distinct
    pointers [pcm_frame_diff ptr1 ptr2 + pcm_frame_diff ptr2 ptr1] is
    [boundary], and the distance from a pointer to itself is 0. *)
Theorem pcm_frame_diff_complement ptr1 ptr2 boundary :
  0 <= ptr1 < boundary ->
  0 <= ptr2 < boundary ->
  boundary <= LONG_MAX + 1 ->
  (ptr1 <> ptr2 ->
   pcm_frame_diff ptr1 ptr2 boundary + pcm_frame_diff ptr2 ptr1 boundary
   = boundary)
  /\ (ptr1 = ptr2 -> pcm_frame_diff ptr1 ptr2 boundary = 0).
Proof.
  intros H1 H2 Hfit.
  rewrite !frame_diff_mod by assumption.
  split.
  - intros Hne.
    destruct (Z_lt_le_dec ptr1 ptr2) as [Hlt | Hge].
    + rewrite (Z.mod_small (ptr2 - ptr1)) by lia.
      rewrite <- (Z.mod_unique (ptr1 - ptr2) boundary (-1) (ptr1 - ptr2 + boundary));
        lia.
    + rewrite (Z.mod_small (ptr1 - ptr2)) by lia.
      rewrite <- (Z.mod_unique (ptr2 - ptr1) boundary (-1) (ptr2 - ptr1 + boundary));
        lia.
  - intros ->. rewrite Z.sub_diag. apply Z.mod_0_l. lia.
Qed.

Lemma pcm_frame_diff_complement_witness :
  (100 <> 16000 ->
   pcm_frame_diff 100 16000 16384 + pcm_frame_diff 16000 100 16384 = 16384)
  /\ (100 = 16000 -> pcm_frame_diff 100 16000 16384 = 0).
Proof.
  apply (pcm_frame_diff_complement 100 16000 16384); limits; lia.
Defined.

(** X3: the available-frames computations are [pcm_frame_diff] in
    disguise: the capture value is the distance from [appl_ptr] forward
    to [hw_ptr], and the playback value is that distance plus
    [buffer_size], reduced modulo [boundary]. *)
Theorem avail_by_frame_diff {World} (pcm : snd_pcm_t World) hw appl :
  0 <= appl < boundary pcm ->
  0 <= hw < boundary pcm ->
  0 <= buffer_size pcm <= boundary pcm ->
  boundary pcm + buffer_size pcm <= LONG_MAX + 1 ->
  __snd_pcm_capture_avail pcm hw appl = pcm_frame_diff hw appl (boundary pcm)
  /\ __snd_pcm_playback_avail pcm hw appl
     = (pcm_frame_diff hw appl (boundary pcm) + buffer_size pcm)
       mod boundary pcm.
Proof.
  intros Ha Hh Hb Hfit.
  rewrite capture_avail_mod, playback_avail_mod, frame_diff_mod by lia.
  split; [reflexivity |].
  rewrite Zplus_mod_idemp_l. f_equal. lia.
Qed.

Lemma avail_by_frame_diff_witness :
  let pcm := ring SND_PCM_STREAM_PLAYBACK 8192 16384 16000 100 in
  __snd_pcm_capture_avail pcm 100 16000 = pcm_frame_diff 100 16000 16384
  /\ __snd_pcm_playback_avail pcm 100 16000
     = (pcm_frame_diff 100 16000 16384 + 8192) mod 16384.
Proof.
  intros pcm. apply (avail_by_frame_diff pcm 100 16000); concrete.
Defined.

(** X4: playback accounting.  When the frames queued for the hardware
    ([pcm_frame_diff appl_ptr hw_ptr]) do not exceed [buffer_size], and
    the buffer is not the degenerate one that fills the whole boundary
    while empty, the frames free for writing and the frames queued add
    up to [buffer_size]: the playback avail is [buffer_size - queued] and
    the playback hw_avail is [queued]. *)
Theorem playback_free_plus_queued {World} (pcm : snd_pcm_t World) :
  0 <= appl_ptr pcm < boundary pcm ->
  0 <= hw_ptr pcm < boundary pcm ->
  0 <= buffer_size pcm <= boundary pcm ->
  boundary pcm + buffer_size pcm <= LONG_MAX + 1 ->
  pcm_frame_diff (appl_ptr pcm) (hw_ptr pcm) (boundary pcm) <= buffer_size pcm ->
  buffer_size pcm < boundary pcm
  \/ 0 < pcm_frame_diff (appl_ptr pcm) (hw_ptr pcm) (boundary pcm) ->
  snd_pcm_mmap_playback_avail pcm
  = buffer_size pcm - pcm_frame_diff (appl_ptr pcm) (hw_ptr pcm) (boundary pcm)
  /\ snd_pcm_mmap_playback_hw_avail pcm
     = pcm_frame_diff (appl_ptr pcm) (hw_ptr pcm) (boundary pcm).
Proof.
  intros Ha Hh Hb Hfit.
  rewrite frame_diff_mod by lia.
  intros Hq Hnondeg.
  pose proof (Z.mod_pos_bound (appl_ptr pcm - hw_ptr pcm) (boundary pcm)
                ltac:(lia)) as Hbound.
  set (q := (appl_ptr pcm - hw_ptr pcm) mod boundary pcm) in *.
  assert (E : snd_pcm_mmap_playback_avail pcm = buffer_size pcm - q).
  { unfold snd_pcm_mmap_playback_avail.
    rewrite playback_avail_mod by lia.
    rewrite <- (Z.mod_small (buffer_size pcm - q) (boundary pcm)) by lia.
    subst q. rewrite Zminus_mod_idemp_r. f_equal. lia. }
  split; [exact E |].
  unfold snd_pcm_mmap_playback_hw_avail. rewrite E.
  rewrite sframes_sub_exact by (limits; lia). lia.
Qed.

Lemma playback_free_plus_queued_witness :
  let pcm := ring SND_PCM_STREAM_PLAYBACK 8192 16384 1000 15000 in
  snd_pcm_mmap_playback_avail pcm
  = buffer_size pcm - pcm_frame_diff (appl_ptr pcm) (hw_ptr pcm) (boundary pcm)
  /\ snd_pcm_mmap_playback_hw_avail pcm
     = pcm_frame_diff (appl_ptr pcm) (hw_ptr pcm) (boundary pcm).
Proof.
  intros pcm. apply (playback_free_plus_queued pcm); try concrete.
  all: try (vm_compute; discriminate).
  all: left; concrete.
Defined.

(** X5: a buffer as large as the boundary is degenerate for playback.
    With [buffer_size = boundary] the playback computation returns what
    the capture computation returns, so an empty buffer
    ([appl_ptr = hw_ptr]) is reported as having no room at all. *)
Theorem playback_avail_buffer_fills_boundary {World} (pcm : snd_pcm_t World)
    hw appl :
  buffer_size pcm = boundary pcm ->
  0 <= appl < boundary pcm ->
  0 <= hw < boundary pcm ->
  2 * boundary pcm <= LONG_MAX + 1 ->
  __snd_pcm_playback_avail pcm hw appl = __snd_pcm_capture_avail pcm hw appl
  /\ (hw = appl -> __snd_pcm_playback_avail pcm hw appl = 0).
Proof.
  intros Hbs Ha Hh Hfit.
  rewrite playback_avail_mod, capture_avail_mod by lia.
  rewrite Hbs.
  assert (E : (hw + boundary pcm - appl) mod boundary pcm
              = (hw - appl) mod boundary pcm).
  { replace (hw + boundary pcm - appl) with (hw - appl + 1 * boundary pcm) by lia.
    apply Z.mod_add. lia. }
  rewrite E. split; [reflexivity |].
  intros ->. rewrite Z.sub_diag. apply Z.mod_0_l. lia.
Qed.

Lemma playback_avail_buffer_fills_boundary_witness :
  let pcm := ring SND_PCM_STREAM_PLAYBACK 8192 8192 0 0 in
  __snd_pcm_playback_avail pcm 0 0 = __snd_pcm_capture_avail pcm 0 0
  /\ (0 = 0 -> __snd_pcm_playback_avail pcm 0 0 = 0).
Proof.
  intros pcm. apply (playback_avail_buffer_fills_boundary pcm 0 0); concrete.
Defined.

(** X6: only the distance between the pointers matters.  Moving both
    pointers forward by the same number of frames, each wrapping at
    [boundary], changes neither the playback nor the capture value. *)
Theorem avail_shift_invariant {World} (pcm : snd_pcm_t World) hw appl k :
  0 <= appl < boundary pcm ->
  0 <= hw < boundary pcm ->
  0 <= buffer_size pcm <= boundary pcm ->
  boundary pcm + buffer_size pcm <= LONG_MAX + 1 ->
  __snd_pcm_playback_avail pcm ((hw + k) mod boundary pcm)
    ((appl + k) mod boundary pcm)
  = __snd_pcm_playback_avail pcm hw appl
  /\ __snd_pcm_capture_avail pcm ((hw + k) mod boundary pcm)
       ((appl + k) mod boundary pcm)
     = __snd_pcm_capture_avail pcm hw appl.
Proof.
  intros Ha Hh Hb Hfit.
  pose proof (Z.mod_pos_bound (hw + k) (boundary pcm) ltac:(lia)).
  pose proof (Z.mod_pos_bound (appl + k) (boundary pcm) ltac:(lia)).
  rewrite !playback_avail_mod, !capture_avail_mod by lia.
  rewrite !Zminus_mod_idemp_r.
  split.
  - replace ((hw + k) mod boundary pcm + buffer_size pcm - (appl + k))
      with ((hw + k) mod boundary pcm + (buffer_size pcm - (appl + k))) by lia.
    rewrite Zplus_mod_idemp_l. f_equal. lia.
  - rewrite Zminus_mod_idemp_l. f_equal. lia.
Qed.

Lemma avail_shift_invariant_witness :
  let pcm := ring SND_PCM_STREAM_PLAYBACK 8192 16384 0 0 in
  __snd_pcm_playback_avail pcm ((9000 + 10000) mod 16384) ((5000 + 10000) mod 16384)
  = __snd_pcm_playback_avail pcm 9000 5000
  /\ __snd_pcm_capture_avail pcm ((9000 + 10000) mod 16384) ((5000 + 10000) mod 16384)
     = __snd_pcm_capture_avail pcm 9000 5000.
Proof.
  intros pcm. apply (avail_shift_invariant pcm 9000 5000 10000); concrete.
Defined.

(** ** [pcm_frame_diff2] *)

(** X7: [pcm_frame_diff2] folds a forward distance of half the boundary
    or more back: for [ptr2 <= ptr1 < boundary] it returns
    [ptr1 - ptr2] when that is below [boundary / 2] and
    [boundary - (ptr1 - ptr2)] otherwise, never more than
    [(boundary + 1) / 2]; when [ptr1] is below [ptr2] the negative
    difference is returned as it is. *)
Theorem pcm_frame_diff2_folds ptr1 ptr2 boundary :
  0 <= ptr1 < boundary ->
  0 <= ptr2 < boundary ->
  boundary <= LONG_MAX ->
  (ptr2 <= ptr1 ->
   pcm_frame_diff2 ptr1 ptr2 boundary
   = (if ptr1 - ptr2 <? boundary / 2 then ptr1 - ptr2
      else boundary - (ptr1 - ptr2))
   /\ 0 <= pcm_frame_diff2 ptr1 ptr2 boundary <= (boundary + 1) / 2)
  /\ (ptr1 < ptr2 -> pcm_frame_diff2 ptr1 ptr2 boundary = ptr1 - ptr2).
Proof.
  intros H1 H2 Hfit. unfold pcm_frame_diff2.
  rewrite sframes_sub_exact by (limits; lia).
  rewrite (to_sframes_small boundary) by (limits; lia).
  rewrite Z.quot_div_nonneg by lia.
  pose proof (Z.div_mod boundary 2 ltac:(lia)) as Hhalf.
  pose proof (Z.mod_pos_bound boundary 2 ltac:(lia)) as Hrem.
  pose proof (Z.div_mod (boundary + 1) 2 ltac:(lia)) as Hhalf'.
  pose proof (Z.mod_pos_bound (boundary + 1) 2 ltac:(lia)) as Hrem'.
  split.
  - intros Hle.
    destruct (Z.geb_spec (ptr1 - ptr2) (boundary / 2)) as [Hfar | Hnear];
      destruct (Z.ltb_spec (ptr1 - ptr2) (boundary / 2)) as [Hlt | Hge];
      try lia.
    rewrite to_uframes_small by (limits; lia).
    rewrite sframes_sub_exact by (limits; lia). lia.
  - intros Hlt.
    destruct (Z.geb_spec (ptr1 - ptr2) (boundary / 2)) as [Hfar | Hnear];
      [lia | reflexivity].
Qed.

Lemma pcm_frame_diff2_folds_witness :
  (10 <= 90 ->
   pcm_frame_diff2 90 10 100
   = (if 90 - 10 <? 100 / 2 then 90 - 10 else 100 - (90 - 10))
   /\ 0 <= pcm_frame_diff2 90 10 100 <= (100 + 1) / 2)
  /\ (90 < 10 -> pcm_frame_diff2 90 10 100 = 90 - 10).
Proof.
  apply (pcm_frame_diff2_folds 90 10 100); limits; lia.
Defined.

(** ** Offsets into the buffer *)

(** X8: offsets follow the pointers.  With a non-empty buffer whose size
    divides [boundary], when [appl_ptr] (or [hw_ptr]) moves forward by
    [delta] frames and wraps at [boundary], [snd_pcm_mmap_offset] (or
    [snd_pcm_mmap_hw_offset]) moves forward by [delta] and wraps at
    [buffer_size]; it stays a valid index into the buffer. *)
Theorem mmap_offset_follows_pointer {World} (pcm : snd_pcm_t World) delta :
  0 < buffer_size pcm ->
  0 < boundary pcm ->
  boundary pcm mod buffer_size pcm = 0 ->
  (exists o o',
      snd_pcm_mmap_offset pcm = Some o
      /\ snd_pcm_mmap_offset
           (with_appl_ptr pcm ((appl_ptr pcm + delta) mod boundary pcm))
         = Some o'
      /\ o' = (o + delta) mod buffer_size pcm
      /\ 0 <= o' < buffer_size pcm)
  /\ (exists o o',
         snd_pcm_mmap_hw_offset pcm = Some o
         /\ snd_pcm_mmap_hw_offset
              (with_hw_ptr pcm ((hw_ptr pcm + delta) mod boundary pcm))
            = Some o'
         /\ o' = (o + delta) mod buffer_size pcm
         /\ 0 <= o' < buffer_size pcm).
Proof.
  intros Hbs Hbnd Hmul.
  assert (Hdiv : (buffer_size pcm | boundary pcm))
    by (apply Z.mod_divide; [lia | exact Hmul]).
  assert (Hwrap : forall p,
             ((p + delta) mod boundary pcm) mod buffer_size pcm
             = (p mod buffer_size pcm + delta) mod buffer_size pcm).
  { intros p.
    rewrite Z.mod_mod_divide by assumption.
    now rewrite Zplus_mod_idemp_l. }
  unfold snd_pcm_mmap_offset, snd_pcm_mmap_hw_offset. cbn.
  destruct (Z.eqb_spec (buffer_size pcm) 0) as [? | _]; [lia |].
  split; do 2 eexists; (split; [reflexivity |]); (split; [reflexivity |]);
    rewrite Hwrap; (split; [reflexivity | apply Z.mod_pos_bound; lia]).
Qed.

Lemma mmap_offset_follows_pointer_witness :
  let pcm := ring SND_PCM_STREAM_PLAYBACK 8192 16384 16000 12000 in
  (exists o o',
      snd_pcm_mmap_offset pcm = Some o
      /\ snd_pcm_mmap_offset
           (with_appl_ptr pcm ((appl_ptr pcm + 1000) mod boundary pcm))
         = Some o'
      /\ o' = (o + 1000) mod buffer_size pcm
      /\ 0 <= o' < buffer_size pcm)
  /\ (exists o o',
         snd_pcm_mmap_hw_offset pcm = Some o
         /\ snd_pcm_mmap_hw_offset
              (with_hw_ptr pcm ((hw_ptr pcm + 1000) mod boundary pcm))
            = Some o'
         /\ o' = (o + 1000) mod buffer_size pcm
         /\ 0 <= o' < buffer_size pcm).
Proof.
  intros pcm. apply (mmap_offset_follows_pointer pcm 1000); concrete.
Defined.

(** When [buffer_size] does not divide [boundary] the offset jumps at the
    wrap: with [buffer_size = 3] and [boundary = 10], one frame after
    [appl_ptr = 9] (offset 0) the offset is 0 again, not 1. *)
Example mmap_offset_needs_multiple :
  snd_pcm_mmap_offset (ring SND_PCM_STREAM_PLAYBACK 3 10 9 0) = Some 0
  /\ snd_pcm_mmap_offset
       (with_appl_ptr (ring SND_PCM_STREAM_PLAYBACK 3 10 9 0) ((9 + 1) mod 10))
     = Some 0.
Proof. split; reflexivity. Qed.

(** ** Delay and rewindable frames *)

Lemma hw_avail_exact {World} (pcm : snd_pcm_t World) avail :
  0 <= avail < boundary pcm ->
  0 <= buffer_size pcm <= boundary pcm ->
  boundary pcm + buffer_size pcm <= LONG_MAX + 1 ->
  to_sframes (uframes_sub (buffer_size pcm) avail) = buffer_size pcm - avail.
Proof.
  intros Hav Hb Hfit. apply sframes_sub_exact. limits. lia.
Qed.

Lemma to_sframes_range_id x : to_sframes (to_sframes x) = to_sframes x.
Proof. apply to_sframes_small. apply to_sframes_range. Qed.

(** X9: the delay of a playback stream is [buffer_size - avail], as a
    signed count: it is negative once [avail] exceeds [buffer_size]
    (underrun), and there the unsigned [snd_pcm_mmap_playback_delay]
    wraps to [2^64 + buffer_size - avail].  The delay of a capture stream
    is its avail, between 0 and [boundary]. *)
Theorem mmap_delay_accounts {World} (pcm : snd_pcm_t World) :
  0 <= appl_ptr pcm < boundary pcm ->
  0 <= hw_ptr pcm < boundary pcm ->
  0 <= buffer_size pcm <= boundary pcm ->
  boundary pcm + buffer_size pcm <= LONG_MAX + 1 ->
  (stream pcm = SND_PCM_STREAM_PLAYBACK ->
   snd_pcm_mmap_delay pcm = buffer_size pcm - snd_pcm_mmap_playback_avail pcm
   /\ (snd_pcm_mmap_playback_avail pcm <= buffer_size pcm ->
       snd_pcm_mmap_playback_delay pcm
       = buffer_size pcm - snd_pcm_mmap_playback_avail pcm)
   /\ (buffer_size pcm < snd_pcm_mmap_playback_avail pcm ->
       snd_pcm_mmap_delay pcm < 0
       /\ snd_pcm_mmap_playback_delay pcm
          = ULONG_MAX + 1 + buffer_size pcm - snd_pcm_mmap_playback_avail pcm))
  /\ (stream pcm = SND_PCM_STREAM_CAPTURE ->
      snd_pcm_mmap_delay pcm = snd_pcm_mmap_capture_avail pcm
      /\ 0 <= snd_pcm_mmap_delay pcm < boundary pcm).
Proof.
  intros Ha Hh Hb Hfit.
  assert (Hp : 0 <= snd_pcm_mmap_playback_avail pcm < boundary pcm).
  { unfold snd_pcm_mmap_playback_avail. rewrite playback_avail_mod by lia.
    apply Z.mod_pos_bound. lia. }
  assert (Hc : 0 <= snd_pcm_mmap_capture_avail pcm < boundary pcm).
  { unfold snd_pcm_mmap_capture_avail. rewrite capture_avail_mod by lia.
    apply Z.mod_pos_bound. lia. }
  unfold snd_pcm_mmap_delay, snd_pcm_mmap_playback_delay,
    snd_pcm_mmap_capture_delay, snd_pcm_mmap_playback_hw_avail.
  split; intros ->.
  - rewrite to_sframes_to_uframes, to_sframes_range_id.
    rewrite hw_avail_exact by lia.
    split; [reflexivity |].
    split; intros Hcmp.
    + apply to_uframes_small. limits. lia.
    + split; [lia |].
      unfold to_uframes. rewrite two_LONG_BIT. limits.
      symmetry. apply Z.mod_unique with (q := -1); lia.
  - rewrite to_sframes_small by (limits; lia).
    split; [reflexivity | exact Hc].
Qed.

Lemma mmap_delay_accounts_witness :
  let pcm := ring SND_PCM_STREAM_PLAYBACK 8192 16384 0 4096 in
  (stream pcm = SND_PCM_STREAM_PLAYBACK ->
   snd_pcm_mmap_delay pcm = buffer_size pcm - snd_pcm_mmap_playback_avail pcm
   /\ (snd_pcm_mmap_playback_avail pcm <= buffer_size pcm ->
       snd_pcm_mmap_playback_delay pcm
       = buffer_size pcm - snd_pcm_mmap_playback_avail pcm)
   /\ (buffer_size pcm < snd_pcm_mmap_playback_avail pcm ->
       snd_pcm_mmap_delay pcm < 0
       /\ snd_pcm_mmap_playback_delay pcm
          = ULONG_MAX + 1 + buffer_size pcm - snd_pcm_mmap_playback_avail pcm))
  /\ (stream pcm = SND_PCM_STREAM_CAPTURE ->
      snd_pcm_mmap_delay pcm = snd_pcm_mmap_capture_avail pcm
      /\ 0 <= snd_pcm_mmap_delay pcm < boundary pcm).
Proof.
  intros pcm. apply (mmap_delay_accounts pcm); concrete.
Defined.

Example delay_after_underrun :
  snd_pcm_mmap_delay (ring SND_PCM_STREAM_PLAYBACK 8192 16384 0 4096) = -4096
  /\ snd_pcm_mmap_playback_delay (ring SND_PCM_STREAM_PLAYBACK 8192 16384 0 4096)
     = 2 ^ 64 - 4096
  /\ snd_pcm_mmap_delay (ring SND_PCM_STREAM_PLAYBACK 8192 16384 4096 0) = 4096
  /\ snd_pcm_mmap_delay (ring SND_PCM_STREAM_CAPTURE 8192 16384 0 4096) = 4096.
Proof. repeat split; reflexivity. Qed.

(** X10: what can be rewound never exceeds the buffer.  In a state with
    both pointers in [[0, boundary)], each rewindable-frames computation
    returns a value between 0 and [buffer_size]; it is
    [buffer_size - avail] while [avail <= buffer_size] and 0 from there
    on. *)
Theorem rewindable_within_buffer {World} (pcm : snd_pcm_t World) :
  0 <= appl_ptr pcm < boundary pcm ->
  0 <= hw_ptr pcm < boundary pcm ->
  0 <= buffer_size pcm <= boundary pcm ->
  boundary pcm + buffer_size pcm <= LONG_MAX + 1 ->
  (0 <= snd_pcm_mmap_playback_hw_rewindable pcm <= buffer_size pcm
   /\ (snd_pcm_mmap_playback_avail pcm <= buffer_size pcm ->
       snd_pcm_mmap_playback_hw_rewindable pcm + snd_pcm_mmap_playback_avail pcm
       = buffer_size pcm)
   /\ (buffer_size pcm <= snd_pcm_mmap_playback_avail pcm ->
       snd_pcm_mmap_playback_hw_rewindable pcm = 0))
  /\
  (0 <= snd_pcm_mmap_capture_hw_rewindable pcm <= buffer_size pcm
   /\ (snd_pcm_mmap_capture_avail pcm <= buffer_size pcm ->
       snd_pcm_mmap_capture_hw_rewindable pcm + snd_pcm_mmap_capture_avail pcm
       = buffer_size pcm)
   /\ (buffer_size pcm <= snd_pcm_mmap_capture_avail pcm ->
       snd_pcm_mmap_capture_hw_rewindable pcm = 0))
  /\
  (0 <= snd_pcm_mmap_hw_rewindable pcm <= buffer_size pcm
   /\ (snd_pcm_mmap_avail pcm <= buffer_size pcm ->
       snd_pcm_mmap_hw_rewindable pcm + snd_pcm_mmap_avail pcm
       = buffer_size pcm)
   /\ (buffer_size pcm <= snd_pcm_mmap_avail pcm ->
       snd_pcm_mmap_hw_rewindable pcm = 0)).
Proof.
  intros Ha Hh Hb Hfit.
  assert (Hp : 0 <= snd_pcm_mmap_playback_avail pcm < boundary pcm).
  { unfold snd_pcm_mmap_playback_avail. rewrite playback_avail_mod by lia.
    apply Z.mod_pos_bound. lia. }
  assert (Hc : 0 <= snd_pcm_mmap_capture_avail pcm < boundary pcm).
  { unfold snd_pcm_mmap_capture_avail. rewrite capture_avail_mod by lia.
    apply Z.mod_pos_bound. lia. }
  assert (Hg : 0 <= snd_pcm_mmap_avail pcm < boundary pcm).
  { unfold snd_pcm_mmap_avail, __snd_pcm_avail.
    destruct (stream pcm); assumption. }
  unfold snd_pcm_mmap_playback_hw_rewindable, snd_pcm_mmap_capture_hw_rewindable,
    snd_pcm_mmap_hw_rewindable, snd_pcm_mmap_playback_hw_avail,
    snd_pcm_mmap_capture_hw_avail, snd_pcm_mmap_hw_avail.
  cbv zeta. rewrite !clamp_at_zero.
  rewrite !hw_avail_exact by lia.
  rewrite (to_uframes_small (Z.max _ 0)) by (limits; lia).
  lia.
Qed.

Lemma rewindable_within_buffer_witness :
  let pcm := ring SND_PCM_STREAM_PLAYBACK 8192 16384 6000 1000 in
  (0 <= snd_pcm_mmap_playback_hw_rewindable pcm <= buffer_size pcm
   /\ (snd_pcm_mmap_playback_avail pcm <= buffer_size pcm ->
       snd_pcm_mmap_playback_hw_rewindable pcm + snd_pcm_mmap_playback_avail pcm
       = buffer_size pcm)
   /\ (buffer_size pcm <= snd_pcm_mmap_playback_avail pcm ->
       snd_pcm_mmap_playback_hw_rewindable pcm = 0))
  /\
  (0 <= snd_pcm_mmap_capture_hw_rewindable pcm <= buffer_size pcm
   /\ (snd_pcm_mmap_capture_avail pcm <= buffer_size pcm ->
       snd_pcm_mmap_capture_hw_rewindable pcm + snd_pcm_mmap_capture_avail pcm
       = buffer_size pcm)
   /\ (buffer_size pcm <= snd_pcm_mmap_capture_avail pcm ->
       snd_pcm_mmap_capture_hw_rewindable pcm = 0))
  /\
  (0 <= snd_pcm_mmap_hw_rewindable pcm <= buffer_size pcm
   /\ (snd_pcm_mmap_avail pcm <= buffer_size pcm ->
       snd_pcm_mmap_hw_rewindable pcm + snd_pcm_mmap_avail pcm
       = buffer_size pcm)
   /\ (buffer_size pcm <= snd_pcm_mmap_avail pcm ->
       snd_pcm_mmap_hw_rewindable pcm = 0)).
Proof.
  intros pcm. apply (rewindable_within_buffer pcm); concrete.
Defined.

(** ** [muldiv], [muldiv_down], [muldiv_near] *)

Ltac int_limits := rewrite ?INT_MAX_value, ?INT_MIN_value in *.

(** X11: [muldiv] divides exactly or saturates.  For a non-zero [c] it
    returns a value within [int]; when the quotient truncated toward zero
    fits [int], the value and [*r] are that quotient and its remainder
    ([a * b = c * n + r], [|r| < |c|], [r] of the sign of [a * b]);
    otherwise the value is the [int] bound on that side and [*r] is 0.
    The quotient of [INT_MIN] by [-1] is such a case: it saturates at
    [INT_MAX]. *)
Theorem muldiv_divides_or_saturates a b c :
  c <> 0 ->
  exists n r,
    muldiv a b c = Some (n, r)
    /\ INT_MIN <= n <= INT_MAX
    /\ (INT_MIN <= a * b ÷ c <= INT_MAX ->
        n = a * b ÷ c /\ a * b = c * n + r /\ Z.abs r < Z.abs c
        /\ 0 <= r * (a * b))
    /\ (INT_MAX < a * b ÷ c -> n = INT_MAX /\ r = 0)
    /\ (a * b ÷ c < INT_MIN -> n = INT_MIN /\ r = 0).
Proof.
  intros Hc. unfold muldiv.
  destruct (Z.eqb_spec c 0) as [? | _]; [contradiction |].
  pose proof (Z.quot_rem' (a * b) c) as Hqr.
  pose proof (Z.rem_bound_abs (a * b) c Hc) as Habs.
  pose proof (Z.rem_sign_mul (a * b) c Hc) as Hsign.
  destruct (Z.gtb_spec (a * b ÷ c) INT_MAX) as [Hhi | Hhi].
  - exists INT_MAX, 0. int_limits. repeat split; lia.
  - destruct (Z.ltb_spec (a * b ÷ c) INT_MIN) as [Hlo | Hlo].
    + exists INT_MIN, 0. int_limits. repeat split; lia.
    + exists (a * b ÷ c), (Z.rem (a * b) c).
      repeat split; try lia.
Qed.

Lemma muldiv_divides_or_saturates_witness :
  exists n r,
    muldiv INT_MIN 1 (-1) = Some (n, r)
    /\ INT_MIN <= n <= INT_MAX
    /\ (INT_MIN <= INT_MIN * 1 ÷ (-1) <= INT_MAX ->
        n = INT_MIN * 1 ÷ (-1) /\ INT_MIN * 1 = (-1) * n + r
        /\ Z.abs r < Z.abs (-1) /\ 0 <= r * (INT_MIN * 1))
    /\ (INT_MAX < INT_MIN * 1 ÷ (-1) -> n = INT_MAX /\ r = 0)
    /\ (INT_MIN * 1 ÷ (-1) < INT_MIN -> n = INT_MIN /\ r = 0).
Proof.
  apply (muldiv_divides_or_saturates INT_MIN 1 (-1)). lia.
Defined.

Example muldiv_examples :
  muldiv INT_MIN 1 (-1) = Some (INT_MAX, 0)
  /\ muldiv (-7) 1 4 = Some (-1, -3)
  /\ muldiv 7 1 (-4) = Some (-1, 3)
  /\ muldiv INT_MAX INT_MAX 1 = Some (INT_MAX, 0)
  /\ muldiv INT_MIN INT_MAX 1 = Some (INT_MIN, 0)
  /\ muldiv 1 1 0 = None.
Proof. repeat split; reflexivity. Qed.

Lemma half_test r c :
  0 < c < INT_MAX -> (r >=? (c + 1) ÷ 2) = (2 * r >=? c).
Proof.
  intros Hc. rewrite Z.quot_div_nonneg by lia.
  pose proof (Z.div_mod (c + 1) 2 ltac:(lia)).
  pose proof (Z.mod_pos_bound (c + 1) 2 ltac:(lia)).
  destruct (Z.geb_spec r ((c + 1) / 2)), (Z.geb_spec (2 * r) c);
    try reflexivity; lia.
Qed.

(** What [muldiv_near] does with the result of [muldiv], for
    [0 < c < INT_MAX]. *)
Lemma muldiv_near_unfold a b c :
  0 < c < INT_MAX ->
  muldiv_near a b c
  = match muldiv a b c with
    | None => None
    | Some (n, r) => if 2 * r >=? c then int_result (n + 1) else Some n
    end.
Proof.
  intros Hc. unfold muldiv_near.
  destruct (muldiv a b c) as [[n r] |]; [| reflexivity].
  rewrite int_result_fits by (int_limits; lia).
  now rewrite half_test.
Qed.

(** X12: for [0 < c < INT_MAX], [muldiv_down] returns the value of
    [muldiv], and [muldiv_near], when it returns, returns that value or
    the next integer.  It returns that value itself, without rounding,
    whenever the product is not positive or the quotient saturates. *)
Theorem muldiv_near_brackets_down a b c :
  0 < c < INT_MAX ->
  exists d r,
    muldiv a b c = Some (d, r)
    /\ muldiv_down a b c = Some d
    /\ (forall n, muldiv_near a b c = Some n -> d <= n <= d + 1)
    /\ (a * b <= 0 -> muldiv_near a b c = Some d)
    /\ (INT_MAX < a * b ÷ c \/ a * b ÷ c < INT_MIN ->
        muldiv_near a b c = Some d).
Proof.
  intros Hc. rewrite muldiv_near_unfold by assumption.
  unfold muldiv, muldiv_down.
  destruct (Z.eqb_spec c 0) as [? | _]; [lia |].
  pose proof (Z.rem_bound_abs (a * b) c ltac:(lia)) as Habs.
  pose proof (Z.rem_sign_mul (a * b) c ltac:(lia)) as Hsign.
  assert (Hneg : a * b <= 0 -> Z.rem (a * b) c <= 0).
  { intros Hle.
    destruct (Z.eq_dec (a * b) 0) as [E | Hnz].
    - rewrite E, Z.rem_0_l; lia.
    - destruct (Z_le_gt_dec (Z.rem (a * b) c) 0) as [? | Hpos];
        [assumption | exfalso].
      assert (Z.rem (a * b) c * (a * b) < 0)
        by (apply Z.mul_pos_neg; lia).
      lia. }
  destruct (Z.gtb_spec (a * b ÷ c) INT_MAX) as [Hhi | Hhi];
    [| destruct (Z.ltb_spec (a * b ÷ c) INT_MIN) as [Hlo | Hlo]].
  - exists INT_MAX, 0.
    destruct (Z.geb_spec (2 * 0) c) as [? | _]; [lia |].
    split; [reflexivity |]. split; [reflexivity |].
    split; [intros k [= <-]; lia |].
    split; intros _; reflexivity.
  - exists INT_MIN, 0.
    destruct (Z.geb_spec (2 * 0) c) as [? | _]; [lia |].
    split; [reflexivity |]. split; [reflexivity |].
    split; [intros k [= <-]; lia |].
    split; intros _; reflexivity.
  - exists (a * b ÷ c), (Z.rem (a * b) c).
    split; [reflexivity |]. split; [reflexivity |].
    destruct (Z.geb_spec (2 * Z.rem (a * b) c) c) as [Hup | Hdown].
    + split; [| split].
      * intros k Hn. unfold int_result in Hn.
        destruct ((INT_MIN <=? a * b ÷ c + 1) && (a * b ÷ c + 1 <=? INT_MAX));
          [| discriminate Hn].
        injection Hn as <-. lia.
      * intros Hle. specialize (Hneg Hle). lia.
      * intros [? | ?]; lia.
    + split; [| split].
      * intros k [= <-]. lia.
      * intros _. reflexivity.
      * intros _. reflexivity.
Qed.

Lemma muldiv_near_brackets_down_witness :
  exists d r,
    muldiv (-7) 1 4 = Some (d, r)
    /\ muldiv_down (-7) 1 4 = Some d
    /\ (forall n, muldiv_near (-7) 1 4 = Some n -> d <= n <= d + 1)
    /\ (-7 * 1 <= 0 -> muldiv_near (-7) 1 4 = Some d)
    /\ (INT_MAX < -7 * 1 ÷ 4 \/ -7 * 1 ÷ 4 < INT_MIN ->
        muldiv_near (-7) 1 4 = Some d).
Proof.
  apply (muldiv_near_brackets_down (-7) 1 4). int_limits. lia.
Defined.

(** X13: the one way [muldiv_near] overflows.  For [0 < c < INT_MAX]
    the increment [n++] leaves the [int] range, which is undefined,
    exactly when the truncated quotient is [INT_MAX] and the remainder is
    at least half of [c]; in every other case a value is returned.  A
    quotient above [INT_MAX] is safe: it saturates with remainder 0. *)
Theorem muldiv_near_overflow_iff a b c :
  0 < c < INT_MAX ->
  (muldiv_near a b c = None
   <-> a * b ÷ c = INT_MAX /\ c <= 2 * Z.rem (a * b) c).
Proof.
  intros Hc. rewrite muldiv_near_unfold by assumption.
  unfold muldiv.
  destruct (Z.eqb_spec c 0) as [? | _]; [lia |].
  destruct (Z.gtb_spec (a * b ÷ c) INT_MAX) as [Hhi | Hhi];
    [| destruct (Z.ltb_spec (a * b ÷ c) INT_MIN) as [Hlo | Hlo]].
  - destruct (Z.geb_spec (2 * 0) c) as [? | _]; [lia |].
    split; [discriminate | lia].
  - destruct (Z.geb_spec (2 * 0) c) as [? | _]; [lia |].
    split; [discriminate |]. int_limits. lia.
  - destruct (Z.geb_spec (2 * Z.rem (a * b) c) c) as [Hup | Hdown].
    + unfold int_result.
      destruct (Z.leb_spec INT_MIN (a * b ÷ c + 1)) as [_ | ?]; [| lia].
      destruct (Z.leb_spec (a * b ÷ c + 1) INT_MAX) as [Hok | Hover];
        cbn [andb].
      * split; [discriminate | int_limits; lia].
      * split; [intros _; int_limits; lia | reflexivity].
    + split; [discriminate | lia].
Qed.

Lemma muldiv_near_overflow_iff_witness :
  muldiv_near 65535 65537 2 = None
  <-> 65535 * 65537 ÷ 2 = INT_MAX /\ 2 <= 2 * Z.rem (65535 * 65537) 2.
Proof.
  apply (muldiv_near_overflow_iff 65535 65537 2). int_limits. lia.
Defined.

Example muldiv_near_overflow_example :
  muldiv_near 65535 65537 2 = None
  /\ muldiv_down 65535 65537 2 = Some INT_MAX
  /\ muldiv_near 65536 65536 2 = Some INT_MAX.
Proof. repeat split; reflexivity. Qed.

(** ** [snd_pcm_check_error], once more *)

Lemma check_error_value {World} (pcm : snd_pcm_t World) err m :
  fst (snd_pcm_check_error pcm err m)
  = if err =? - EINTR
    then match fst (__snd_pcm_state pcm m) with
         | SND_PCM_STATE_XRUN => - EPIPE
         | SND_PCM_STATE_SUSPENDED => - ESTRPIPE
         | SND_PCM_STATE_DISCONNECTED => - ENODEV
         | _ => err
         end
    else err.
Proof.
  unfold snd_pcm_check_error.
  destruct (err =? - EINTR); [| reflexivity].
  unfold bind. destruct (__snd_pcm_state pcm m) as [st m'].
  now destruct st.
Qed.

Lemma check_error_calls {World} (pcm : snd_pcm_t World) err m :
  calls (snd (snd_pcm_check_error pcm err m)) = calls m
  \/ calls (snd (snd_pcm_check_error pcm err m)) = OP_state :: calls m.
Proof.
  unfold snd_pcm_check_error.
  destruct (err =? - EINTR); [| now left].
  unfold bind, __snd_pcm_state.
  destruct (state (fast_ops pcm)) as [cb |].
  - right. unfold invoke.
    destruct (cb (fast_op_arg pcm) (world m)) as [st w].
    now destruct st.
  - now left.
Qed.

(** X14: [snd_pcm_check_error] keeps the sign of the code it is given,
    so a successful result is never turned into an error and an error is
    never dropped; a non-negative code comes back unchanged with no
    callback entered.  At most the [state] callback is entered, and
    checking the checked code again (in the same plugin state) changes
    nothing. *)
Theorem check_error_keeps_sign {World} (pcm : snd_pcm_t World) (err : Z)
    (m : machine World) :
  (fst (snd_pcm_check_error pcm err m) < 0 <-> err < 0)
  /\ (0 <= err -> snd_pcm_check_error pcm err m = (err, m))
  /\ (calls (snd (snd_pcm_check_error pcm err m)) = calls m
      \/ calls (snd (snd_pcm_check_error pcm err m)) = OP_state :: calls m)
  /\ fst (snd_pcm_check_error pcm (fst (snd_pcm_check_error pcm err m)) m)
     = fst (snd_pcm_check_error pcm err m).
Proof.
  split; [| split; [| split]].
  - rewrite check_error_value.
    destruct (Z.eqb_spec err (- EINTR)) as [-> | Hne]; [| reflexivity].
    unfold EINTR, EPIPE, ESTRPIPE, ENODEV.
    destruct (fst (__snd_pcm_state pcm m)); lia.
  - intros Hpos. unfold snd_pcm_check_error.
    destruct (Z.eqb_spec err (- EINTR)) as [-> | Hne]; [| reflexivity].
    unfold EINTR in Hpos. lia.
  - apply check_error_calls.
  - rewrite !check_error_value.
    destruct (Z.eqb_spec err (- EINTR)) as [-> | Hne].
    + destruct (fst (__snd_pcm_state pcm m)); reflexivity.
    + rewrite (proj2 (Z.eqb_neq err (- EINTR)) Hne). reflexivity.
Qed.

Example check_error_keeps_success :
  snd_pcm_check_error (pcm_in_state SND_PCM_STATE_XRUN) 1024 idle = (1024, idle)
  /\ snd_pcm_check_error (pcm_in_state SND_PCM_STATE_XRUN) (- EINTR) idle
     = (- EPIPE, {| world := tt; calls := [OP_state] |}).
Proof. split; reflexivity. Qed.

(** * [control/tlv.c]: conversions between raw volume and dB *)

Lemma to_int_small x : INT_MIN <= x <= INT_MAX -> to_int x = x.
Proof.
  intros Hx. unfold to_int. int_limits.
  change (2 ^ 31) with 2147483648. change (2 ^ 32) with 4294967296.
  rewrite Z.mod_small; lia.
Qed.

Lemma long_result_fits x : LONG_MIN <= x <= LONG_MAX -> long_result x = Some x.
Proof.
  intros [Hlo Hhi]. unfold long_result.
  apply Z.leb_le in Hlo, Hhi. now rewrite Hlo, Hhi.
Qed.

(** The low 16 bits of the mute-and-step word, as the code takes them. *)
Lemma step_field w : 0 <= Z.land w 65535 <= 65535.
Proof.
  pose proof (Z.land_ones w 16 ltac:(lia)) as E.
  change (Z.ones 16) with 65535 in E. change (2 ^ 16) with 65536 in E.
  rewrite E. pose proof (Z.mod_pos_bound w 65536 ltac:(lia)). lia.
Qed.

Lemma low_bit x : Z.land x 1 = 0 \/ Z.land x 1 = 1.
Proof.
  pose proof (Z.land_ones x 1 ltac:(lia)) as E.
  change (Z.ones 1) with 1 in E. change (2 ^ 1) with 2 in E.
  rewrite E. pose proof (Z.mod_pos_bound x 2 ltac:(lia)). lia.
Qed.

(** The two ways the code tests the mute bit agree. *)
Lemma mute_word w :
  (Z.land w 65536 = 0 /\ Z.land (Z.shiftr w 16) 1 = 0)
  \/ (Z.land w 65536 = 65536 /\ Z.land (Z.shiftr w 16) 1 = 1).
Proof.
  assert (E : Z.land w 65536 = Z.shiftl (Z.land (Z.shiftr w 16) 1) 16).
  { apply Z.bits_inj'. intros n Hn.
    rewrite Z.land_spec, Z.shiftl_spec by assumption.
    change 65536 with (2 ^ 16). rewrite Z.pow2_bits_eqb by lia.
    destruct (Z.eqb_spec 16 n) as [<- | Hne].
    - change (16 - 16) with 0.
      rewrite Z.land_spec, Z.shiftr_spec by lia.
      reflexivity.
    - rewrite andb_false_r.
      destruct (Z_lt_le_dec n 16) as [Hlt | Hge].
      + rewrite Z.testbit_neg_r by lia. reflexivity.
      + rewrite Z.land_spec.
        change 1 with (2 ^ 0). rewrite Z.pow2_bits_eqb by lia.
        destruct (Z.eqb_spec 0 (n - 16)); [lia |].
        now rewrite andb_false_r. }
  rewrite E.
  destruct (low_bit (Z.shiftr w 16)) as [-> | ->]; [left | right];
    split; reflexivity.
Qed.

Lemma mute_field_int w :
  (to_int (Z.land (Z.shiftr w 16) 1) =? 0) = (Z.land w 65536 =? 0)
  /\ (to_int (Z.land w 65536) =? 0) = (Z.land w 65536 =? 0).
Proof.
  destruct (mute_word w) as [[-> ->] | [-> ->]]; split; reflexivity.
Qed.

Section TlvEntries.

Context {h : tlv_h}.
Hypothesis Hdistinct : tlvt_distinct h.

Lemma tlvt_neq :
  SND_CTL_TLVT_DB_SCALE <> SND_CTL_TLVT_DB_RANGE
  /\ SND_CTL_TLVT_DB_MINMAX <> SND_CTL_TLVT_DB_RANGE
  /\ SND_CTL_TLVT_DB_MINMAX <> SND_CTL_TLVT_DB_SCALE
  /\ SND_CTL_TLVT_DB_MINMAX_MUTE <> SND_CTL_TLVT_DB_RANGE
  /\ SND_CTL_TLVT_DB_MINMAX_MUTE <> SND_CTL_TLVT_DB_SCALE
  /\ SND_CTL_TLVT_DB_MINMAX_MUTE <> SND_CTL_TLVT_DB_MINMAX
  /\ SND_CTL_TLVT_DB_MINMAX_MUTE <> SND_CTL_TLVT_DB_LINEAR
  /\ SND_CTL_TLVT_DB_SCALE <> SND_CTL_TLVT_CONTAINER
  /\ SND_CTL_TLVT_DB_MINMAX <> SND_CTL_TLVT_CONTAINER
  /\ SND_CTL_TLVT_DB_MINMAX_MUTE <> SND_CTL_TLVT_CONTAINER
  /\ SND_CTL_TLVT_DB_RANGE <> SND_CTL_TLVT_CONTAINER
  /\ SND_CTL_TLVT_DB_LINEAR <> SND_CTL_TLVT_CONTAINER.
Proof.
  pose proof Hdistinct as H. unfold tlvt_distinct in H.
  repeat match type of H with
         | NoDup (_ :: _) =>
             let Hin := fresh "Hin" in
             apply NoDup_cons_iff in H; destruct H as [Hin H];
             cbn [In] in Hin
         end.
  repeat split; intros E; rewrite ?E in *; intuition congruence.
Qed.

Ltac tlvt_tests :=
  let Hneq := fresh "Hneq" in
  pose proof tlvt_neq as Hneq;
  repeat match goal with
         | |- context [?a =? ?a] => rewrite (Z.eqb_refl a)
         | |- context [?a =? ?b] =>
             rewrite (proj2 (Z.eqb_neq a b)) by intuition congruence
         end;
  cbn [orb andb negb].

Lemma to_dB_scale tlv min step mute depth rangemin rangemax volume :
  db_scale_entry tlv min step mute ->
  snd_tlv_convert_to_dB (S depth) tlv rangemin rangemax volume
  = if mute && (volume <=? rangemin)
    then Some (Done SND_CTL_TLV_DB_GAIN_MUTE)
    else match long_result (volume - rangemin) with
         | Some d =>
             match long_result (d * step) with
             | Some p => option_map Done (long_result (p + min))
             | None => None
             end
         | None => None
         end.
Proof.
  intros (w2 & w3 & Ht & H2 & H3 & -> & -> & ->).
  cbn [snd_tlv_convert_to_dB]. rewrite Ht, H2, H3.
  tlvt_tests.
  rewrite (proj1 (mute_field_int w3)).
  rewrite (to_int_small (Z.land w3 65535))
    by (pose proof (step_field w3); int_limits; lia).
  destruct (negb (Z.land w3 65536 =? 0) && (volume <=? rangemin));
    [reflexivity |].
  destruct (long_result (volume - rangemin)) as [d |]; [| reflexivity].
  destruct (long_result (d * Z.land w3 65535)) as [p |]; [| reflexivity].
  now destruct (long_result (p + to_int w2)).
Qed.

Lemma from_dB_scale tlv min step mute depth rangemin rangemax db_gain xdir :
  db_scale_entry tlv min step mute ->
  snd_tlv_convert_from_dB (S depth) tlv rangemin rangemax db_gain xdir
  = match long_result (rangemax - rangemin) with
    | Some r =>
        match long_result (step * r) with
        | Some p =>
            match int_result (min + to_int p) with
            | Some max =>
                from_dB_between min max mute rangemin rangemax db_gain xdir
            | None => None
            end
        | None => None
        end
    | None => None
    end.
Proof.
  intros (w2 & w3 & Ht & H2 & H3 & -> & -> & ->).
  cbn [snd_tlv_convert_from_dB]. rewrite Ht, H2, H3.
  tlvt_tests.
  rewrite (proj2 (mute_field_int w3)).
  rewrite (to_int_small (Z.land w3 65535))
    by (pose proof (step_field w3); int_limits; lia).
  reflexivity.
Qed.

Lemma get_dB_range_scale tlv min step mute depth rangemin rangemax m0 M0 :
  db_scale_entry tlv min step mute ->
  snd_tlv_get_dB_range (S depth) tlv rangemin rangemax m0 M0
  = match long_result (rangemax - rangemin) with
    | Some r =>
        match long_result (step * r) with
        | Some p =>
            match long_result (min + p) with
            | Some hi =>
                Some (0, Some (if mute then SND_CTL_TLV_DB_GAIN_MUTE else min),
                      Some hi)
            | None => None
            end
        | None => None
        end
    | None => None
    end.
Proof.
  intros (w2 & w3 & Ht & H2 & H3 & -> & -> & ->).
  cbn [snd_tlv_get_dB_range]. rewrite Ht, H2, H3.
  tlvt_tests.
  rewrite (to_int_small (Z.land w3 65535))
    by (pose proof (step_field w3); int_limits; lia).
  reflexivity.
Qed.

Lemma scale_step_range tlv min step mute :
  db_scale_entry tlv min step mute ->
  0 <= step <= 65535 /\ INT_MIN <= min <= INT_MAX.
Proof.
  intros (w2 & w3 & _ & _ & _ & -> & -> & _).
  split; [apply step_field |].
  unfold to_int. int_limits.
  pose proof (Z.mod_pos_bound (w2 + 2 ^ 31) (2 ^ 32) ltac:(lia)).
  change (2 ^ 31) with 2147483648 in *. change (2 ^ 32) with 4294967296 in *.
  lia.
Qed.

Lemma to_dB_minmax tlv mindb maxdb mute depth rangemin rangemax volume :
  db_minmax_entry tlv mindb maxdb mute ->
  snd_tlv_convert_to_dB (S depth) tlv rangemin rangemax volume
  = if (volume <=? rangemin) || (rangemax <=? rangemin)
    then Some (Done (if mute then SND_CTL_TLV_DB_GAIN_MUTE else mindb))
    else if volume >=? rangemax then Some (Done maxdb)
    else match int_result (maxdb - mindb) with
         | Some span =>
             match long_result (volume - rangemin) with
             | Some d =>
                 match long_result (span * d) with
                 | Some p =>
                     match long_result (rangemax - rangemin) with
                     | Some r => option_map Done (long_result (p ÷ r + mindb))
                     | None => None
                     end
                 | None => None
                 end
             | None => None
             end
         | None => None
         end.
Proof.
  intros (w2 & w3 & Ht & H2 & H3 & _ & _ & -> & ->).
  cbn [snd_tlv_convert_to_dB]. rewrite Ht.
  destruct mute; tlvt_tests; rewrite H2, H3;
    (destruct ((volume <=? rangemin) || (rangemax <=? rangemin));
     [reflexivity |]);
    (destruct (volume >=? rangemax); [reflexivity |]);
    (destruct (int_result (to_int w3 - to_int w2)) as [span |];
     [| reflexivity]);
    (destruct (long_result (volume - rangemin)) as [d |]; [| reflexivity]);
    (destruct (long_result (span * d)) as [p |]; [| reflexivity]);
    (destruct (long_result (rangemax - rangemin)) as [r |]; [| reflexivity]);
    now destruct (long_result (p ÷ r + to_int w2)).
Qed.


Lemma get_dB_range_minmax tlv mindb maxdb mute depth rangemin rangemax m0 M0 :
  db_minmax_entry tlv mindb maxdb mute ->
  snd_tlv_get_dB_range (S depth) tlv rangemin rangemax m0 M0
  = Some (0, Some (if mute then SND_CTL_TLV_DB_GAIN_MUTE else mindb),
          Some maxdb).
Proof.
  intros (w2 & w3 & Ht & H2 & H3 & L2 & L3 & -> & ->).
  cbn [snd_tlv_get_dB_range]. rewrite Ht.
  destruct mute; tlvt_tests; rewrite ?L2, ?L3, ?H3; reflexivity.
Qed.

Lemma minmax_range tlv mindb maxdb mute :
  db_minmax_entry tlv mindb maxdb mute ->
  INT_MIN <= mindb <= INT_MAX /\ INT_MIN <= maxdb <= INT_MAX.
Proof.
  intros (w2 & w3 & _ & _ & _ & _ & _ & -> & ->).
  unfold to_int. int_limits.
  pose proof (Z.mod_pos_bound (w2 + 2 ^ 31) (2 ^ 32) ltac:(lia)).
  pose proof (Z.mod_pos_bound (w3 + 2 ^ 31) (2 ^ 32) ltac:(lia)).
  change (2 ^ 31) with 2147483648 in *. change (2 ^ 32) with 4294967296 in *.
  lia.
Qed.

End TlvEntries.

Ltac long_limits := rewrite ?LONG_MAX_value, ?LONG_MIN_value in *.

Ltac fits :=
  repeat first
    [ rewrite long_result_fits by (int_limits; long_limits; nia)
    | rewrite int_result_fits by (int_limits; long_limits; nia)
    | rewrite to_int_small by (int_limits; long_limits; nia) ];
  cbn [option_map].

(** Truncating division of a non-negative number by a positive one. *)
Lemma quot_unique a b q :
  0 <= a -> 0 < b -> b * q <= a < b * (q + 1) -> a ÷ b = q.
Proof.
  intros Ha Hb Hq.
  rewrite Z.quot_div_nonneg by lia.
  symmetry. apply (Z.div_unique a b q (a - b * q)); lia.
Qed.

(** The rounding of [snd_tlv_convert_from_dB] between the two ends of a
    scale: the stored value is [q + rangemin] for the quotient [q] of
    [(db_gain - min) * (rangemax - rangemin)] by [max - min], rounded up,
    down or to nearest as [xdir] asks. *)
Lemma from_dB_between_interior {h : tlv_h} min max mute
    rangemin rangemax db_gain xdir :
  INT_MIN <= min -> max <= INT_MAX -> max - min < INT_MAX ->
  INT_MIN <= rangemin -> rangemax <= INT_MAX -> rangemin <= rangemax ->
  min < db_gain < max ->
  exists q,
    from_dB_between min max mute rangemin rangemax db_gain xdir
    = Some (Done (q + rangemin))
    /\ 0 <= q <= rangemax - rangemin
    /\ (0 < xdir ->
          (max - min) * (q - 1)
          < (db_gain - min) * (rangemax - rangemin)
          <= (max - min) * q)
    /\ (xdir < 0 ->
          (max - min) * q
          <= (db_gain - min) * (rangemax - rangemin)
          < (max - min) * (q + 1))
    /\ (xdir = 0 ->
          2 * ((max - min) * q - (db_gain - min) * (rangemax - rangemin))
          <= max - min + 1
          /\ 2 * ((db_gain - min) * (rangemax - rangemin) - (max - min) * q)
             < max - min).
Proof.
  intros Hmin Hmax Hspan Hrmin Hrmax HR Hdb.
  unfold from_dB_between.
  destruct (Z.leb_spec db_gain min); [lia |].
  destruct (Z.geb_spec db_gain max); [lia |].
  set (a := db_gain - min) in *.
  set (R := rangemax - rangemin) in *.
  set (S := max - min) in *.
  assert (Ha : 0 < a < S) by (unfold a, S; lia).
  assert (HR' : 0 <= R <= 4294967295) by (unfold R; int_limits; lia).
  assert (HS : 2 <= S < 2147483647) by (unfold S; int_limits; lia).
  assert (HaR : 0 <= a * R <= 2147483647 * 4294967295) by nia.
  fits.
  rewrite (proj2 (Z.eqb_neq S 0)) by lia.
  destruct (Z.gtb_spec xdir 0); [| destruct (Z.eqb_spec xdir 0)]; fits.
  - pose proof (Z.div_mod (a * R + (S - 1)) S ltac:(lia)) as E.
    pose proof (Z.mod_pos_bound (a * R + (S - 1)) S ltac:(lia)) as Hm.
    rewrite Z.quot_div_nonneg by lia.
    set (q := (a * R + (S - 1)) / S) in *.
    assert (Hq : 0 <= q <= R) by nia.
    exists q. fits. repeat split; try lia; nia.
  - assert (Hh : S <= 2 * ((S + 1) ÷ 2) <= S + 1).
    { rewrite Z.quot_div_nonneg by lia.
      pose proof (Z.div_mod (S + 1) 2 ltac:(lia)).
      pose proof (Z.mod_pos_bound (S + 1) 2 ltac:(lia)). lia. }
    set (c := (S + 1) ÷ 2) in *.
    fits.
    pose proof (Z.div_mod (a * R + c) S ltac:(lia)) as E.
    pose proof (Z.mod_pos_bound (a * R + c) S ltac:(lia)) as Hm.
    rewrite Z.quot_div_nonneg by lia.
    set (q := (a * R + c) / S) in *.
    assert (Hq : 0 <= q <= R) by nia.
    exists q. fits. repeat split; try lia; nia.
  - pose proof (Z.div_mod (a * R) S ltac:(lia)) as E.
    pose proof (Z.mod_pos_bound (a * R) S ltac:(lia)) as Hm.
    rewrite Z.quot_div_nonneg by lia.
    set (q := (a * R) / S) in *.
    assert (Hq : 0 <= q <= R) by nia.
    exists q. fits. repeat split; try lia; nia.
Qed.

Lemma from_dB_scale_between {h : tlv_h} tlv min step mute depth
    rangemin rangemax db_gain xdir :
  tlvt_distinct h ->
  db_scale_entry tlv min step mute ->
  INT_MIN <= rangemin -> rangemax <= INT_MAX -> rangemin <= rangemax ->
  step * (rangemax - rangemin) <= INT_MAX ->
  min + step * (rangemax - rangemin) <= INT_MAX ->
  snd_tlv_convert_from_dB (S depth) tlv rangemin rangemax db_gain xdir
  = from_dB_between min (min + step * (rangemax - rangemin)) mute
      rangemin rangemax db_gain xdir.
Proof.
  intros Hd He Hrmin Hrmax HR Hspan Htop.
  destruct (scale_step_range _ _ _ _ He) as [Hs Hmin].
  erewrite (from_dB_scale Hd) by exact He.
  assert (0 <= rangemax - rangemin <= 4294967295) by (int_limits; lia).
  assert (0 <= step * (rangemax - rangemin)) by nia.
  now fits.
Qed.

(** The two conversions on a [DB_SCALE] entry, one after the other. *)
Lemma scale_round_trip_value {h : tlv_h} tlv min step mute
    rangemin rangemax volume xdir depth depth' :
  tlvt_distinct h ->
  db_scale_entry tlv min step mute ->
  0 < step ->
  INT_MIN <= rangemin -> rangemax <= INT_MAX ->
  rangemin <= volume <= rangemax ->
  step * (rangemax - rangemin) < INT_MAX ->
  min + step * (rangemax - rangemin) <= INT_MAX ->
  (mute = true -> SND_CTL_TLV_DB_GAIN_MUTE <= min) ->
  let db := if mute && (volume <=? rangemin)
            then SND_CTL_TLV_DB_GAIN_MUTE
            else scale_gain min step rangemin volume in
  snd_tlv_convert_to_dB (S depth) tlv rangemin rangemax volume
  = Some (Done db)
  /\ snd_tlv_convert_from_dB (S depth') tlv rangemin rangemax db xdir
     = Some (Done volume).
Proof.
  intros Hd He Hstep Hrmin Hrmax Hvol Hspan Htop Hmute db. subst db.
  destruct (scale_step_range _ _ _ _ He) as [Hs Hmin].
  erewrite (to_dB_scale Hd) by exact He.
  assert (Hfrom := fun db =>
            from_dB_scale_between tlv min step mute depth' rangemin rangemax
              db xdir Hd He Hrmin Hrmax
              ltac:(lia) ltac:(lia) Htop).
  destruct (mute && (volume <=? rangemin)) eqn:Hbottom.
  - (* the muted bottom of the range *)
    apply andb_prop in Hbottom. destruct Hbottom as [-> Hle].
    apply Z.leb_le in Hle. specialize (Hmute eq_refl).
    split; [reflexivity |].
    rewrite Hfrom. unfold from_dB_between.
    rewrite (proj2 (Z.leb_le _ _) Hmute).
    rewrite Z.gtb_ltb, Z.ltb_irrefl. cbn [andb].
    do 2 f_equal. lia.
  - unfold scale_gain.
    split; [now fits |].
    rewrite Hfrom. clear Hfrom.
    set (db := (volume - rangemin) * step + min).
    assert (db <= min \/ min < db < min + step * (rangemax - rangemin)
            \/ min < db /\ min + step * (rangemax - rangemin) <= db)
      as [Hlow | [Hmid | [Hlow Hhigh]]] by lia.
    + assert (volume = rangemin) as -> by (unfold db in Hlow; nia).
      assert (mute = false) as ->.
      { destruct mute; [| reflexivity].
        rewrite Z.leb_refl in Hbottom. discriminate. }
      unfold from_dB_between.
      rewrite (proj2 (Z.leb_le _ _) Hlow).
      now rewrite andb_false_r.
    + destruct (from_dB_between_interior (h := h) min
                  (min + step * (rangemax - rangemin)) mute rangemin rangemax
                  db xdir) as (q & -> & Hq & Hup & Hdown & Hnear);
        try lia.
      do 2 f_equal. unfold db in *.
      set (k := volume - rangemin) in *.
      set (R := rangemax - rangemin) in *.
      replace (min + step * R - min) with (step * R) in * by lia.
      replace (k * step + min - min) with (k * step) in * by lia.
      assert (HRpos : 0 < R) by nia.
      assert (q = k); [| unfold k in *; lia].
      assert (xdir < 0 \/ xdir = 0 \/ 0 < xdir) as [Hx | [Hx | Hx]] by lia.
      * specialize (Hdown Hx). nia.
      * specialize (Hnear Hx). nia.
      * specialize (Hup Hx). nia.
    + assert (Hk : step * (rangemax - volume) <= 0) by (unfold db in Hhigh; lia).
      assert (volume = rangemax) as ->.
      { destruct (Z.eq_dec volume rangemax) as [E | Hne]; [exact E |].
        assert (Hgap : 1 <= rangemax - volume) by lia.
        clear - Hk Hstep Hgap. nia. }
      unfold from_dB_between.
      destruct (Z.leb_spec db min); [lia |].
      destruct (Z.geb_spec db (min + step * (rangemax - rangemin)));
        [reflexivity | lia].
Qed.


(** X15: on a [DB_SCALE] entry with a positive step, converting a raw
    volume of the range to dB and back gives the volume again, whatever
    the rounding direction -- provided the top of the scale fits [int]
    and, when the entry has the mute flag, the mute gain is not above
    the entry's minimum. *)
Theorem db_scale_round_trip {h : tlv_h} tlv min step mute
    rangemin rangemax volume xdir depth depth' :
  tlvt_distinct h ->
  db_scale_entry tlv min step mute ->
  0 < step ->
  INT_MIN <= rangemin -> rangemax <= INT_MAX ->
  rangemin <= volume <= rangemax ->
  step * (rangemax - rangemin) < INT_MAX ->
  min + step * (rangemax - rangemin) <= INT_MAX ->
  (mute = true -> SND_CTL_TLV_DB_GAIN_MUTE <= min) ->
  exists db,
    snd_tlv_convert_to_dB (S depth) tlv rangemin rangemax volume
    = Some (Done db)
    /\ snd_tlv_convert_from_dB (S depth') tlv rangemin rangemax db xdir
       = Some (Done volume).
Proof.
  intros Hd He Hstep Hrmin Hrmax Hvol Hspan Htop Hmute.
  destruct (scale_round_trip_value tlv min step mute rangemin rangemax
              volume xdir depth depth' Hd He Hstep Hrmin Hrmax Hvol Hspan
              Htop Hmute) as [Hto Hfrom].
  eexists. split; [exact Hto | exact Hfrom].
Qed.

(** The gain [snd_tlv_convert_to_dB] stores for a volume of the range. *)
Lemma to_dB_scale_value {h : tlv_h} tlv min step mute depth
    rangemin rangemax volume :
  tlvt_distinct h ->
  db_scale_entry tlv min step mute ->
  INT_MIN <= rangemin -> rangemax <= INT_MAX ->
  rangemin <= volume <= rangemax ->
  snd_tlv_convert_to_dB (S depth) tlv rangemin rangemax volume
  = Some (Done (if mute && (volume <=? rangemin)
                then SND_CTL_TLV_DB_GAIN_MUTE
                else scale_gain min step rangemin volume)).
Proof.
  intros Hd He Hrmin Hrmax Hvol.
  destruct (scale_step_range _ _ _ _ He) as [Hs Hmin].
  erewrite (to_dB_scale Hd) by exact He.
  destruct (mute && (volume <=? rangemin)); [reflexivity |].
  unfold scale_gain.
  assert (0 <= volume - rangemin <= 4294967295) by (int_limits; lia).
  assert (0 <= (volume - rangemin) * step <= 4294967295 * 65535) by nia.
  now fits.
Qed.

(** X16: on a [DB_SCALE] entry, [snd_tlv_get_dB_range] returns 0 with
    the gains of the two ends of the raw range, and
    [snd_tlv_convert_to_dB] is monotone between them: a higher volume
    never has a lower gain.  (With the mute flag the low end is the mute
    gain, which must not be above the entry's minimum.) *)
Theorem db_scale_range_bounds {h : tlv_h} tlv min step mute
    rangemin rangemax depth depth' min0 max0 :
  tlvt_distinct h ->
  db_scale_entry tlv min step mute ->
  INT_MIN <= rangemin -> rangemax <= INT_MAX -> rangemin <= rangemax ->
  (mute = true -> SND_CTL_TLV_DB_GAIN_MUTE <= min) ->
  exists lo hi,
    snd_tlv_get_dB_range (S depth) tlv rangemin rangemax min0 max0
    = Some (0, Some lo, Some hi)
    /\ snd_tlv_convert_to_dB (S depth') tlv rangemin rangemax rangemin
       = Some (Done lo)
    /\ (rangemin < rangemax ->
        snd_tlv_convert_to_dB (S depth') tlv rangemin rangemax rangemax
        = Some (Done hi))
    /\ forall v1 v2, rangemin <= v1 -> v1 <= v2 -> v2 <= rangemax ->
       exists g1 g2,
         snd_tlv_convert_to_dB (S depth') tlv rangemin rangemax v1
         = Some (Done g1)
         /\ snd_tlv_convert_to_dB (S depth') tlv rangemin rangemax v2
            = Some (Done g2)
         /\ lo <= g1 /\ g1 <= g2 /\ g2 <= hi.
Proof.
  intros Hd He Hrmin Hrmax HR Hmute.
  destruct (scale_step_range _ _ _ _ He) as [Hs Hmin].
  exists (if mute then SND_CTL_TLV_DB_GAIN_MUTE else min),
         (min + step * (rangemax - rangemin)).
  assert (HRb : 0 <= rangemax - rangemin <= 4294967295) by (int_limits; lia).
  assert (HSb : 0 <= step * (rangemax - rangemin) <= 65535 * 4294967295)
    by nia.
  split; [| split; [| split]].
  - erewrite (get_dB_range_scale Hd) by exact He. now fits.
  - rewrite (to_dB_scale_value tlv min step mute) by (assumption || lia).
    rewrite Z.leb_refl. unfold scale_gain.
    destruct mute; cbn [andb]; do 2 f_equal; lia.
  - intros Hlt.
    rewrite (to_dB_scale_value tlv min step mute) by (assumption || lia).
    rewrite (proj2 (Z.leb_gt _ _) Hlt), andb_false_r.
    unfold scale_gain. do 2 f_equal; lia.
  - intros v1 v2 H1 H12 H2.
    rewrite !(to_dB_scale_value tlv min step mute) by (assumption || lia).
    do 2 eexists. split; [reflexivity |]. split; [reflexivity |].
    unfold scale_gain.
    destruct mute; cbn [andb].
    + specialize (Hmute eq_refl).
      destruct (Z.leb_spec v1 rangemin), (Z.leb_spec v2 rangemin);
        repeat split; try lia; nia.
    + repeat split; try lia; nia.
Qed.


(** The gain [snd_tlv_convert_to_dB] stores on a [DB_MINMAX] or
    [DB_MINMAX_MUTE] entry. *)
Lemma to_dB_minmax_value {h : tlv_h} tlv mindb maxdb mute depth
    rangemin rangemax volume :
  tlvt_distinct h ->
  db_minmax_entry tlv mindb maxdb mute ->
  INT_MIN <= rangemin -> rangemax <= INT_MAX ->
  rangemin <= volume <= rangemax ->
  0 <= maxdb - mindb <= INT_MAX ->
  snd_tlv_convert_to_dB (S depth) tlv rangemin rangemax volume
  = Some (Done
      (if (volume <=? rangemin) || (rangemax <=? rangemin)
       then if mute then SND_CTL_TLV_DB_GAIN_MUTE else mindb
       else if volume >=? rangemax then maxdb
       else (maxdb - mindb) * (volume - rangemin) / (rangemax - rangemin)
            + mindb)).
Proof.
  intros Hd He Hrmin Hrmax Hvol Hspan.
  destruct (minmax_range _ _ _ _ He) as [Hmin Hmax].
  erewrite (to_dB_minmax Hd) by exact He.
  destruct (Z.leb_spec volume rangemin), (Z.leb_spec rangemax rangemin);
    cbn [orb]; try reflexivity.
  destruct (Z.geb_spec volume rangemax); [reflexivity |].
  set (k := volume - rangemin) in *.
  set (R := rangemax - rangemin) in *.
  set (span := maxdb - mindb) in *.
  assert (Hk : 0 < k < R) by (unfold k, R; lia).
  assert (HR : R <= 4294967295) by (unfold R; int_limits; lia).
  assert (Hp : 0 <= span * k <= 2147483647 * 4294967295)
    by (int_limits; nia).
  fits.
  rewrite Z.quot_div_nonneg by lia.
  pose proof (Z.div_mod (span * k) R ltac:(lia)) as E.
  pose proof (Z.mod_pos_bound (span * k) R ltac:(lia)) as Hm.
  assert (0 <= span * k / R <= span) by nia.
  now fits.
Qed.

(** X18: on a [DB_MINMAX] or [DB_MINMAX_MUTE] entry whose maximum is not
    below its minimum, [snd_tlv_get_dB_range] returns 0 with the gains
    of the two ends of the raw range, and [snd_tlv_convert_to_dB] is
    monotone between them.  (On a [DB_MINMAX_MUTE] entry the low end is
    the mute gain, which must not be above the entry's minimum.) *)
Theorem db_minmax_range_bounds {h : tlv_h} tlv mindb maxdb mute
    rangemin rangemax depth depth' min0 max0 :
  tlvt_distinct h ->
  db_minmax_entry tlv mindb maxdb mute ->
  INT_MIN <= rangemin -> rangemax <= INT_MAX -> rangemin <= rangemax ->
  0 <= maxdb - mindb <= INT_MAX ->
  (mute = true -> SND_CTL_TLV_DB_GAIN_MUTE <= mindb) ->
  exists lo hi,
    snd_tlv_get_dB_range (S depth) tlv rangemin rangemax min0 max0
    = Some (0, Some lo, Some hi)
    /\ snd_tlv_convert_to_dB (S depth') tlv rangemin rangemax rangemin
       = Some (Done lo)
    /\ (rangemin < rangemax ->
        snd_tlv_convert_to_dB (S depth') tlv rangemin rangemax rangemax
        = Some (Done hi))
    /\ forall v1 v2, rangemin <= v1 -> v1 <= v2 -> v2 <= rangemax ->
       exists g1 g2,
         snd_tlv_convert_to_dB (S depth') tlv rangemin rangemax v1
         = Some (Done g1)
         /\ snd_tlv_convert_to_dB (S depth') tlv rangemin rangemax v2
            = Some (Done g2)
         /\ lo <= g1 /\ g1 <= g2 /\ g2 <= hi.
Proof.
  intros Hd He Hrmin Hrmax HR Hspan Hmute.
  exists (if mute then SND_CTL_TLV_DB_GAIN_MUTE else mindb), maxdb.
  assert (Hlo : (if mute then SND_CTL_TLV_DB_GAIN_MUTE else mindb) <= mindb).
  { destruct mute; [apply Hmute; reflexivity | lia]. }
  split; [| split; [| split]].
  - erewrite (get_dB_range_minmax Hd) by exact He. reflexivity.
  - rewrite (to_dB_minmax_value tlv mindb maxdb mute) by (assumption || lia).
    now rewrite Z.leb_refl.
  - intros Hlt.
    rewrite (to_dB_minmax_value tlv mindb maxdb mute) by (assumption || lia).
    rewrite !(proj2 (Z.leb_gt _ _) Hlt). cbn [orb].
    now rewrite (proj2 (Z.geb_le _ _) (Z.le_refl _)).
  - intros v1 v2 H1 H12 H2.
    rewrite !(to_dB_minmax_value tlv mindb maxdb mute) by (assumption || lia).
    do 2 eexists. split; [reflexivity |]. split; [reflexivity |].
    destruct (Z.leb_spec rangemax rangemin).
    { rewrite !orb_true_r. lia. }
    rewrite !orb_false_r.
    set (R := rangemax - rangemin) in *.
    set (span := maxdb - mindb) in *.
    assert (Hq : forall v, rangemin < v < rangemax ->
               0 <= span * (v - rangemin) / R <= span).
    { intros v Hv.
      pose proof (Z.div_mod (span * (v - rangemin)) R ltac:(lia)) as E.
      pose proof (Z.mod_pos_bound (span * (v - rangemin)) R ltac:(lia)).
      unfold R in *. nia. }
    destruct (Z.leb_spec v1 rangemin), (Z.leb_spec v2 rangemin);
      destruct (Z.geb_spec v1 rangemax), (Z.geb_spec v2 rangemax);
      try lia;
      try (pose proof (Hq v1 ltac:(lia))); try (pose proof (Hq v2 ltac:(lia)));
      unfold span in *; try lia.
    repeat split; try lia.
    apply Z.add_le_mono_r. apply Z.div_le_mono; [lia |].
    apply Z.mul_le_mono_nonneg_l; lia.
Qed.


(** ** [snd_tlv_parse_dB_info] *)

Lemma word_skipn tlv n i :
  0 <= n -> 0 <= i -> word (skipn (Z.to_nat n) tlv) i = word tlv (n + i).
Proof.
  intros Hn Hi. unfold word.
  destruct (Z.ltb_spec i 0), (Z.ltb_spec (n + i) 0); try lia.
  now rewrite nth_error_skipn, Z2Nat.inj_add by lia.
Qed.

Lemma word_is_uint tlv i w :
  Forall is_uint tlv -> word tlv i = Some w -> is_uint w.
Proof.
  intros Hall Hw. unfold word in Hw.
  destruct (i <? 0); [discriminate |].
  apply nth_error_In in Hw.
  now apply (proj1 (Forall_forall _ _) Hall).
Qed.

Lemma Forall_is_uint_skipn n tlv :
  Forall is_uint tlv -> Forall is_uint (skipn n tlv).
Proof.
  revert tlv. induction n as [| n IH]; intros tlv Hall; [exact Hall |].
  destruct Hall; [constructor | now apply IH].
Qed.

Lemma int_index_round w :
  0 <= w -> w <= 4 * int_index w <= w + 3 /\ (4 * int_index w) mod 4 = 0.
Proof.
  intros Hw. unfold int_index.
  pose proof (Z.div_mod (w + 4 - 1) 4 ltac:(lia)).
  pose proof (Z.mod_pos_bound (w + 4 - 1) 4 ltac:(lia)).
  split; [lia |].
  rewrite Z.mul_comm. apply Z.mod_mul. lia.
Qed.

Lemma to_uint_small x : 0 <= x < 2 ^ 32 -> to_uint x = x.
Proof. intros Hx. unfold to_uint. now apply Z.mod_small. Qed.

Section Parse.

Context {h : tlv_h}.
Hypothesis Hlayout : tlv_layout h.

Lemma parse_ok_shift tlv n base size size' res :
  0 <= n -> 4 * n + size' <= size ->
  parse_ok (skipn (Z.to_nat n) tlv) (base + n) size' res ->
  parse_ok tlv base size res.
Proof.
  intros Hn Hsize [He | [Hno | (i & Hq & Hi & Hentry & Hfit)]].
  - now left.
  - right. now left.
  - right. right. exists (n + i).
    split; [rewrite Hq; f_equal; lia |].
    split; [lia |].
    split; [| lia].
    destruct Hentry as (type & sz & Ht & Hs & Hrest).
    destruct Hlayout as (HT & HL & _).
    exists type, sz.
    rewrite word_skipn in Ht, Hs by lia.
    rewrite <- !Z.add_assoc. auto.
Qed.

Lemma container_loop_ok parse :
  parse_spec parse ->
  forall n tlv base size res,
    Forall is_uint tlv -> 0 <= size < 2 ^ 32 -> size mod 4 = 0 ->
    container_loop parse n tlv base size None = Some res ->
    parse_ok tlv base size res.
Proof.
  intros Hparse.
  destruct Hlayout as (HT & HL & HE & HN & HEN).
  induction n as [| n IH]; intros tlv base size res Hall Hsize Hmod Hloop;
    [discriminate |].
  cbn [container_loop] in Hloop.
  destruct (Z.gtb_spec size 0) as [Hpos | Hzero].
  2: { injection Hloop as <-. right. left. split; reflexivity. }
  destruct (parse tlv base size None) as [[err q] |] eqn:Hsub;
    [| discriminate].
  destruct (Hparse _ _ _ _ _ Hall Hsize Hmod Hsub) as [Hok Hin].
  cbn [fst snd] in Hin.
  destruct Hok as [He | [[Hno Hq] | Hfound]]; cbn [fst snd] in *.
  - (* the entry is refused *)
    subst err.
    destruct (Z.ltb_spec (- EINVAL) 0); [| lia].
    destruct (Z.eqb_spec (- EINVAL) (- ENOENT)); [lia |].
    cbn [andb negb] in Hloop. injection Hloop as <-. now left.
  - (* not a dB entry: on to the next one *)
    subst err q.
    rewrite Z.eqb_refl, andb_false_r in Hloop.
    destruct (Z.gtb_spec (- ENOENT) 0); [lia |].
    destruct (Hin ltac:(lia)) as (w & Hw & Hfit).
    rewrite HL, Hw in Hloop.
    pose proof (word_is_uint _ _ _ Hall Hw) as Hu. unfold is_uint in Hu.
    destruct (int_index_round w ltac:(lia)) as [Hround Hround4].
    assert (Hlen : 4 * int_index w + 8 <= size).
    { pose proof (Z.div_mod size 4 ltac:(lia)).
      pose proof (Z.div_mod (4 * int_index w) 4 ltac:(lia)). lia. }
    change (2 ^ 32) with 4294967296 in *.
    rewrite (to_uint_small (int_index w + 2)) in Hloop
      by (change (2 ^ 32) with 4294967296; lia).
    rewrite (to_uint_small (size - (int_index w + 2) * 4)) in Hloop
      by (change (2 ^ 32) with 4294967296; lia).
    apply IH in Hloop.
    + apply (parse_ok_shift tlv (int_index w + 2) base size
               (size - (int_index w + 2) * 4)); [lia | lia | exact Hloop].
    + now apply Forall_is_uint_skipn.
    + lia.
    + replace (size - (int_index w + 2) * 4)
        with (size + (- int_index w - 2) * 4) by lia.
      now rewrite Z.mod_add by lia.
  - (* found *)
    destruct Hfound as (i & Hq & Hi & Hentry & Hfit).
    assert (Herr : 0 < err).
    { destruct Hentry as (type & sz & _ & _ & _ & Hmin & _ & ->).
      destruct (type =? SND_CTL_TLVT_DB_RANGE); lia. }
    destruct (Z.ltb_spec err 0); [lia |].
    destruct (Z.gtb_spec err 0); [| lia].
    cbn [andb] in Hloop. injection Hloop as <-.
    right. right. exists i. cbn [fst snd]. auto.
Qed.

Lemma parse_dB_info_spec depth :
  parse_spec (snd_tlv_parse_dB_info depth).
Proof.
  induction depth as [| depth IH];
    intros tlv base size p res Hall Hsize Hmod Hres; [discriminate |].
  destruct Hlayout as (HT & HL & HE & HN & HEN).
  cbn [snd_tlv_parse_dB_info] in Hres.
  unfold MIN_TLV_STREAM_LEN in Hres. rewrite HT, HL in Hres.
  change ((1 + 1) * 4) with 8 in Hres. change (2 * 4) with 8 in Hres.
  change (4 * 4) with 16 in Hres. change (4 * 2) with 8 in Hres.
  change (2 ^ 32) with 4294967296 in *.
  destruct (Z.ltb_spec size 8) as [Hshort | Hlong].
  { injection Hres as <-. cbn [fst]. split; [now left | congruence]. }
  destruct (word tlv 0) as [type |] eqn:Htype; [| discriminate].
  destruct (word tlv 1) as [sz |] eqn:Hsz; [| discriminate].
  rewrite (to_uint_small (size - 8)) in Hres
    by (change (2 ^ 32) with 4294967296; lia).
  destruct (Z.gtb_spec sz (size - 8)) as [Hbig | Hfit].
  { injection Hres as <-. cbn [fst]. split; [now left | congruence]. }
  split; [| intros _; exists sz; split; [reflexivity | lia]].
  pose proof (word_is_uint _ _ _ Hall Hsz) as Hu. unfold is_uint in Hu.
  change (2 ^ 32) with 4294967296 in *.
  destruct (type =? SND_CTL_TLVT_CONTAINER).
  - destruct (int_index_round sz ltac:(lia)) as [Hround Hround4].
    assert (Hlen : 4 * int_index sz + 8 <= size).
    { pose proof (Z.div_mod size 4 ltac:(lia)).
      pose proof (Z.div_mod (4 * int_index sz) 4 ltac:(lia)). lia. }
    rewrite (to_uint_small (int_index sz * 4)) in Hres
      by (change (2 ^ 32) with 4294967296; lia).
    apply (container_loop_ok _ IH) in Hres.
    + apply (parse_ok_shift tlv 2 base size (int_index sz * 4));
        [lia | lia | exact Hres].
    + now apply (Forall_is_uint_skipn 2).
    + lia.
    + now rewrite Z.mul_comm.
  - destruct (is_dB_type type) eqn:Hdb.
    + destruct (Z.ltb_spec sz
                  (if type =? SND_CTL_TLVT_DB_RANGE then 16 else 8));
        [injection Hres as <-; now left |].
      unfold MAX_TLV_RANGE_SIZE in Hres.
      destruct (Z.gtb_spec sz 256); [injection Hres as <-; now left |].
      injection Hres as <-. right. right. exists 0. cbn [fst snd].
      rewrite to_int_small by (int_limits; lia).
      split; [f_equal; lia |]. split; [lia |]. split; [| lia].
      exists type, sz. rewrite HT, HL. unfold MAX_TLV_RANGE_SIZE.
      repeat split; auto.
    + injection Hres as <-. right. left. split; reflexivity.
Qed.

End Parse.

(** X20: whatever [snd_tlv_parse_dB_info] returns on a stream of
    [tlv_size] bytes ([tlv_size] a multiple of [sizeof(int)]), it is
    [-EINVAL], or [-ENOENT] with [*db_tlvp] set to [NULL], or the size in
    bytes of a dB entry, header included, with [*db_tlvp] pointing to it:
    an entry of one of the dB types, of at least 8 bytes of data (16 for
    a [DB_RANGE]) and at most [MAX_TLV_RANGE_SIZE], that lies within the
    first [tlv_size] bytes of the stream -- also when it was found inside
    containers. *)
Theorem parse_dB_info_sound {h : tlv_h} depth tlv base tlv_size db_tlvp r q :
  tlv_layout h ->
  Forall is_uint tlv ->
  0 <= tlv_size < 2 ^ 32 -> tlv_size mod 4 = 0 ->
  snd_tlv_parse_dB_info depth tlv base tlv_size db_tlvp = Some (r, q) ->
  r = - EINVAL
  \/ (r = - ENOENT /\ q = None)
  \/ exists i,
       q = Some (base + i) /\ 0 <= i
       /\ dB_entry_at tlv i r
       /\ 4 * i + r <= tlv_size.
Proof.
  intros Hlayout Hall Hsize Hmod Hres.
  exact (proj1 (parse_dB_info_spec Hlayout depth _ _ _ _ _
                  Hall Hsize Hmod Hres)).
Qed.

Section ParseFinds.

Context {h : tlv_h}.
Hypothesis Hlayout : tlv_layout h.

(** One call on an entry that is no container. *)
Lemma parse_leaf depth type data rest base size p :
  type <> SND_CTL_TLVT_CONTAINER ->
  4 * Z.of_nat (length data) + 8 <= size -> size < 2 ^ 32 ->
  snd_tlv_parse_dB_info (S depth) (encode_entry type data ++ rest)
    base size p
  = Some (if is_dB_type type
          then if 4 * Z.of_nat (length data)
                  <? (if type =? SND_CTL_TLVT_DB_RANGE then 16 else 8)
               then (- EINVAL, None)
               else if 4 * Z.of_nat (length data) >? MAX_TLV_RANGE_SIZE
                    then (- EINVAL, None)
                    else (to_int (4 * Z.of_nat (length data) + 8), Some base)
          else (- ENOENT, None)).
Proof.
  intros Htype Hfit Hsize.
  destruct Hlayout as (HT & HL & _).
  cbn [snd_tlv_parse_dB_info].
  unfold MIN_TLV_STREAM_LEN. rewrite HT, HL.
  change ((1 + 1) * 4) with 8. change (2 * 4) with 8.
  change (4 * 4) with 16. change (4 * 2) with 8.
  destruct (Z.ltb_spec size 8); [lia |].
  change (word (encode_entry type data ++ rest) 0) with (Some type).
  change (word (encode_entry type data ++ rest) 1)
    with (Some (4 * Z.of_nat (length data))).
  rewrite to_uint_small by lia.
  destruct (Z.gtb_spec (4 * Z.of_nat (length data)) (size - 8)); [lia |].
  rewrite (proj2 (Z.eqb_neq _ _) Htype).
  destruct (is_dB_type type); [| reflexivity].
  destruct (4 * Z.of_nat (length data)
            <? (if type =? SND_CTL_TLVT_DB_RANGE then 16 else 8));
    [reflexivity |].
  now destruct (4 * Z.of_nat (length data) >? MAX_TLV_RANGE_SIZE).
Qed.

Lemma skipn_entry type data rest :
  skipn (Z.to_nat (Z.of_nat (length data) + 2))
    (encode_entry type data ++ rest) = rest.
Proof.
  replace (Z.to_nat (Z.of_nat (length data) + 2))
    with (length (encode_entry type data)) by (cbn [encode_entry length]; lia).
  rewrite skipn_app, skipn_all, Nat.sub_diag. reflexivity.
Qed.

Lemma int_index_words n : 0 <= n -> int_index (4 * n) = n.
Proof.
  intros Hn. unfold int_index.
  symmetry. apply (Z.div_unique (4 * n + 4 - 1) 4 n 3); lia.
Qed.

Lemma encode_entries_cons type data es :
  encode_entries ((type, data) :: es)
  = encode_entry type data ++ encode_entries es.
Proof. reflexivity. Qed.

Lemma encode_entries_app es es' :
  encode_entries (es ++ es') = encode_entries es ++ encode_entries es'.
Proof.
  unfold encode_entries. now rewrite map_app, concat_app.
Qed.

Lemma length_encode_entries es :
  (2 * length es <= length (encode_entries es))%nat.
Proof.
  induction es as [| [t d] es IH]; [apply Nat.le_refl |].
  rewrite encode_entries_cons, length_app.
  cbn [encode_entry length]. lia.
Qed.

Lemma container_loop_finds depth type data post rest :
  type <> SND_CTL_TLVT_CONTAINER ->
  is_dB_type type = true ->
  (if type =? SND_CTL_TLVT_DB_RANGE then 4 else 2) <= Z.of_nat (length data)
  -> Z.of_nat (length data) <= 64 ->
  forall pre n base,
    Forall (fun e => is_dB_type (fst e) = false
                     /\ fst e <> SND_CTL_TLVT_CONTAINER) pre ->
    (length pre < n)%nat ->
    4 * Z.of_nat (length (encode_entries (pre ++ (type, data) :: post)))
    < 2 ^ 32 ->
    container_loop (snd_tlv_parse_dB_info (S depth)) n
      (encode_entries (pre ++ (type, data) :: post) ++ rest) base
      (4 * Z.of_nat (length (encode_entries (pre ++ (type, data) :: post))))
      None
    = Some (4 * Z.of_nat (length data) + 8,
            Some (base + Z.of_nat (length (encode_entries pre)))).
Proof.
  intros Htype Hdb Hmin Hmax.
  destruct Hlayout as (HT & HL & HE & HN & HEN).
  induction pre as [| [t0 d0] pre IH]; intros n base Hpre Hn Hsize;
    (destruct n as [| n]; [cbn [length] in Hn; lia |]).
  - cbn [app] in *. rewrite encode_entries_cons in *.
    rewrite <- app_assoc.
    rewrite length_app in *. cbn [encode_entry length] in *.
    cbn [container_loop].
    match goal with |- context [?s >? 0] =>
      destruct (Z.gtb_spec s 0); [| lia] end.
    rewrite parse_leaf by (assumption || lia).
    rewrite Hdb.
    match goal with |- context [?a <? ?b] =>
      destruct (Z.ltb_spec a b);
      [destruct (type =? SND_CTL_TLVT_DB_RANGE); lia |] end.
    unfold MAX_TLV_RANGE_SIZE.
    destruct (Z.gtb_spec (4 * Z.of_nat (length data)) 256); [lia |].
    rewrite to_int_small by (int_limits; lia).
    destruct (Z.ltb_spec (4 * Z.of_nat (length data) + 8) 0); [lia |].
    destruct (Z.gtb_spec (4 * Z.of_nat (length data) + 8) 0); [| lia].
    cbn [andb encode_entries map concat length].
    do 2 f_equal. f_equal. lia.
  - apply Forall_cons_iff in Hpre. destruct Hpre as [[Hnodb Hnoc] Hpre].
    cbn [fst] in Hnodb, Hnoc.
    cbn [app] in *. rewrite encode_entries_cons in *.
    rewrite <- app_assoc.
    rewrite length_app in *. cbn [encode_entry length] in *.
    cbn [container_loop].
    match goal with |- context [?s >? 0] =>
      destruct (Z.gtb_spec s 0); [| lia] end.
    rewrite parse_leaf by (assumption || lia).
    rewrite Hnodb.
    destruct (Z.ltb_spec (- ENOENT) 0); [| lia].
    rewrite Z.eqb_refl. cbn [andb negb].
    destruct (Z.gtb_spec (- ENOENT) 0); [lia |].
    rewrite HL.
    change (word (encode_entry t0 d0
                    ++ encode_entries (pre ++ (type, data) :: post) ++ rest) 1)
      with (Some (4 * Z.of_nat (length d0))).
    cbv beta iota.
    rewrite int_index_words by lia.
    rewrite (to_uint_small (Z.of_nat (length d0) + 2)) by lia.
    rewrite skipn_entry.
    rewrite to_uint_small by lia.
    match goal with
    | |- container_loop _ _ _ _ ?sz _ = _ =>
        replace sz
          with (4 * Z.of_nat (length
                                (encode_entries (pre ++ (type, data) :: post))))
          by lia
    end.
    rewrite IH by (assumption || lia).
    do 2 f_equal. f_equal. rewrite encode_entries_cons, length_app.
    cbn [encode_entry length]. lia.
Qed.

Lemma container_loop_none depth rest :
  forall es n base,
    Forall (fun e => is_dB_type (fst e) = false
                     /\ fst e <> SND_CTL_TLVT_CONTAINER) es ->
    (length es < n)%nat ->
    4 * Z.of_nat (length (encode_entries es)) < 2 ^ 32 ->
    container_loop (snd_tlv_parse_dB_info (S depth)) n
      (encode_entries es ++ rest) base
      (4 * Z.of_nat (length (encode_entries es))) None
    = Some (- ENOENT, None).
Proof.
  destruct Hlayout as (HT & HL & HE & HN & HEN).
  induction es as [| [t0 d0] es IH]; intros n base Hes Hn Hsize;
    (destruct n as [| n]; [cbn [length] in Hn; lia |]).
  - reflexivity.
  - apply Forall_cons_iff in Hes. destruct Hes as [[Hnodb Hnoc] Hes].
    cbn [fst] in Hnodb, Hnoc.
    rewrite encode_entries_cons in *.
    rewrite <- app_assoc.
    rewrite length_app in *. cbn [encode_entry length] in *.
    cbn [container_loop].
    match goal with |- context [?s >? 0] =>
      destruct (Z.gtb_spec s 0); [| lia] end.
    rewrite parse_leaf by (assumption || lia).
    rewrite Hnodb.
    destruct (Z.ltb_spec (- ENOENT) 0); [| lia].
    rewrite Z.eqb_refl. cbn [andb negb].
    destruct (Z.gtb_spec (- ENOENT) 0); [lia |].
    rewrite HL.
    change (word (encode_entry t0 d0 ++ encode_entries es ++ rest) 1)
      with (Some (4 * Z.of_nat (length d0))).
    cbv beta iota.
    rewrite int_index_words by lia.
    rewrite (to_uint_small (Z.of_nat (length d0) + 2)) by lia.
    rewrite skipn_entry.
    rewrite to_uint_small by lia.
    match goal with
    | |- container_loop _ _ _ _ ?sz _ = _ =>
        replace sz with (4 * Z.of_nat (length (encode_entries es))) by lia
    end.
    apply IH; [assumption | cbn [length] in Hn; lia | lia].
Qed.

End ParseFinds.

(** X21: in a container whose entries are laid out one after the other,
    [snd_tlv_parse_dB_info] steps over the entries that are neither dB
    information nor containers and returns the first dB entry: its size
    with the header, and [*db_tlvp] pointing to it. *)
Theorem parse_dB_info_finds_first {h : tlv_h} depth pre type data post rest
    base tlv_size db_tlvp :
  tlv_layout h ->
  Forall (fun e => is_dB_type (fst e) = false
                   /\ fst e <> SND_CTL_TLVT_CONTAINER) pre ->
  type <> SND_CTL_TLVT_CONTAINER ->
  is_dB_type type = true ->
  (if type =? SND_CTL_TLVT_DB_RANGE then 4 else 2) <= Z.of_nat (length data) ->
  Z.of_nat (length data) <= 64 ->
  4 * Z.of_nat (length (encode_container (pre ++ (type, data) :: post)))
  <= tlv_size ->
  tlv_size < 2 ^ 32 ->
  snd_tlv_parse_dB_info (S (S depth))
    (encode_container (pre ++ (type, data) :: post) ++ rest)
    base tlv_size db_tlvp
  = Some (4 * Z.of_nat (length data) + 8,
          Some (base + 2 + Z.of_nat (length (encode_entries pre)))).
Proof.
  intros Hlayout Hpre Htype Hdb Hmin Hmax Hfit Hsize.
  pose proof Hlayout as (HT & HL & HE & HN & HEN).
  set (es := pre ++ (type, data) :: post) in *.
  unfold encode_container in *. cbn [encode_entry length] in Hfit.
  remember (S depth) as depth' eqn:Edepth.
  cbn [snd_tlv_parse_dB_info]. subst depth'.
  unfold MIN_TLV_STREAM_LEN. rewrite HT, HL.
  change ((1 + 1) * 4) with 8. change (2 * 4) with 8.
  destruct (Z.ltb_spec tlv_size 8); [lia |].
  change (word (encode_entry SND_CTL_TLVT_CONTAINER (encode_entries es)
                ++ rest) 0) with (Some SND_CTL_TLVT_CONTAINER).
  change (word (encode_entry SND_CTL_TLVT_CONTAINER (encode_entries es)
                ++ rest) 1)
    with (Some (4 * Z.of_nat (length (encode_entries es)))).
  rewrite to_uint_small by lia.
  destruct (Z.gtb_spec (4 * Z.of_nat (length (encode_entries es)))
              (tlv_size - 8)); [lia |].
  rewrite Z.eqb_refl.
  rewrite int_index_words by lia.
  rewrite to_uint_small by lia.
  change (skipn 2 (encode_entry SND_CTL_TLVT_CONTAINER (encode_entries es)
                   ++ rest))
    with (encode_entries es ++ rest).
  rewrite (Z.mul_comm (Z.of_nat (length (encode_entries es))) 4).
  unfold es.
  assert (Hfuel : (length pre
                   < S (length (encode_entry SND_CTL_TLVT_CONTAINER
                                  (encode_entries es) ++ rest)))%nat).
  { pose proof (length_encode_entries es) as Hes.
    unfold es in Hes at 1. rewrite length_app in Hes.
    rewrite length_app. cbn [encode_entry length]. lia. }
  unfold es in *.
  rewrite (container_loop_finds Hlayout) by (assumption || lia).
  reflexivity.
Qed.

(** X28: in a container whose entries are laid out one after the other
    and are neither dB information nor containers,
    [snd_tlv_parse_dB_info] steps over all of them and returns
    [-ENOENT], with [*db_tlvp] set to [NULL]. *)
Theorem parse_dB_info_none {h : tlv_h} depth es rest base tlv_size db_tlvp :
  tlv_layout h ->
  Forall (fun e => is_dB_type (fst e) = false
                   /\ fst e <> SND_CTL_TLVT_CONTAINER) es ->
  4 * Z.of_nat (length (encode_container es)) <= tlv_size ->
  tlv_size < 2 ^ 32 ->
  snd_tlv_parse_dB_info (S (S depth)) (encode_container es ++ rest)
    base tlv_size db_tlvp
  = Some (- ENOENT, None).
Proof.
  intros Hlayout Hes Hfit Hsize.
  pose proof Hlayout as (HT & HL & HE & HN & HEN).
  unfold encode_container in *. cbn [encode_entry length] in Hfit.
  remember (S depth) as depth' eqn:Edepth.
  cbn [snd_tlv_parse_dB_info]. subst depth'.
  unfold MIN_TLV_STREAM_LEN. rewrite HT, HL.
  change ((1 + 1) * 4) with 8. change (2 * 4) with 8.
  destruct (Z.ltb_spec tlv_size 8); [lia |].
  change (word (encode_entry SND_CTL_TLVT_CONTAINER (encode_entries es)
                ++ rest) 0) with (Some SND_CTL_TLVT_CONTAINER).
  change (word (encode_entry SND_CTL_TLVT_CONTAINER (encode_entries es)
                ++ rest) 1)
    with (Some (4 * Z.of_nat (length (encode_entries es)))).
  rewrite to_uint_small by lia.
  destruct (Z.gtb_spec (4 * Z.of_nat (length (encode_entries es)))
              (tlv_size - 8)); [lia |].
  rewrite Z.eqb_refl.
  rewrite int_index_words by lia.
  rewrite to_uint_small by lia.
  change (skipn 2 (encode_entry SND_CTL_TLVT_CONTAINER (encode_entries es)
                   ++ rest))
    with (encode_entries es ++ rest).
  rewrite (Z.mul_comm (Z.of_nat (length (encode_entries es))) 4).
  pose proof (length_encode_entries es) as Hcount.
  apply (container_loop_none Hlayout); try assumption.
  - rewrite length_app. cbn [encode_entry length]. lia.
  - lia.
Qed.

(** * [ump.c]: sysex helpers and packet lengths *)

Lemma store_some buf i v :
  (i < length buf)%nat ->
  exists out,
    store buf i v = Some out
    /\ length out = length buf
    /\ nth_error out i = Some v
    /\ forall k, k <> i -> nth_error out k = nth_error buf k.
Proof.
  revert i. induction buf as [| b buf IH]; intros i Hi;
    [cbn [length] in Hi; lia |].
  destruct i as [| i].
  - exists (v :: buf). cbn [store]. repeat split.
    intros [| k] Hk; [congruence | reflexivity].
  - destruct (IH i ltac:(cbn [length] in Hi; lia))
      as (out & Hst & Hlen & Hat & Hother).
    exists (b :: out). cbn [store]. rewrite Hst.
    split; [reflexivity |]. split; [cbn [length]; lia |].
    split; [exact Hat |].
    intros [| k] Hk; [reflexivity |].
    cbn [nth_error]. apply Hother. lia.
Qed.

Lemma store_none buf i v : (length buf <= i)%nat -> store buf i v = None.
Proof.
  revert i. induction buf as [| b buf IH]; intros i Hi; [reflexivity |].
  destruct i as [| i]; [cbn [length] in Hi; lia |].
  cbn [store]. rewrite IH; [reflexivity | cbn [length] in Hi; lia].
Qed.

Lemma word_some data i :
  0 <= i < Z.of_nat (length data) -> exists w, word data i = Some w.
Proof.
  intros Hi. unfold word.
  destruct (Z.ltb_spec i 0); [lia |].
  destruct (nth_error data (Z.to_nat i)) as [w |] eqn:E; [now exists w |].
  apply nth_error_None in E. lia.
Qed.

Lemma low7_of_byte x : Z.land (Z.land x 255) 127 = Z.land x 127.
Proof. now rewrite <- Z.land_assoc. Qed.

Lemma expand_sysex_data_loop_spec maxlen :
  maxlen <> 0 ->
  forall bytes data buf r size,
    0 <= r <= 3 ->
    (size + bytes <= length buf)%nat ->
    r + Z.of_nat bytes <= 4 * Z.of_nat (length data) ->
    exists out,
      expand_sysex_data_loop data buf maxlen bytes (24 - 8 * r) size
      = Some (Z.of_nat (size + bytes), out)
      /\ length out = length buf
      /\ (forall k, (k < bytes)%nat ->
          exists b, ump_byte data (r + Z.of_nat k) = Some b
                    /\ nth_error out (size + k) = Some (Z.land b 127))
      /\ (forall i, (i < size)%nat \/ (size + bytes <= i)%nat ->
          nth_error out i = nth_error buf i).
Proof.
  intros Hmax.
  induction bytes as [| bytes IH]; intros data buf r size Hr Hbuf Hdata.
  - exists buf. cbn [expand_sysex_data_loop]. rewrite Nat.add_0_r.
    repeat split; intros; lia.
  - cbn [expand_sysex_data_loop].
    rewrite (proj2 (Z.eqb_neq _ _) Hmax).
    destruct (word_some data 0 ltac:(lia)) as (w & Hw). rewrite Hw.
    destruct (store_some buf size (Z.land (Z.shiftr w (24 - 8 * r)) 127)
                ltac:(lia)) as (buf' & -> & Hlen & Hat & Hother).
    assert (Hhead : ump_byte data r
                    = Some (Z.land (Z.shiftr w (24 - 8 * r)) 255)).
    { unfold ump_byte. rewrite Z.div_small, Z.mod_small by lia.
      now rewrite Hw. }
    destruct (Z.eqb_spec (24 - 8 * r) 0) as [Hlast | Hmore].
    + (* the last byte of a word: on to the next word *)
      assert (r = 3) as -> by lia.
      destruct data as [| w0 data']; [cbn [length] in Hdata; lia |].
      cbn [skipn].
      destruct (IH data' buf' 0 (S size) ltac:(lia) ltac:(lia)
                  ltac:(cbn [length] in Hdata; lia))
        as (out & Hrun & Hlen' & Hbytes & Hrest).
      exists out. change (24 - 8 * 0) with 24 in Hrun. rewrite Hrun.
      split; [do 2 f_equal; lia |].
      split; [lia |].
      split.
      * intros [| k] Hk.
        -- exists (Z.land (Z.shiftr w (24 - 8 * 3)) 255).
           rewrite Z.add_0_r, Nat.add_0_r. split; [exact Hhead |].
           rewrite Hrest by lia. now rewrite Hat, low7_of_byte.
        -- destruct (Hbytes k ltac:(lia)) as (b & Hb & Hout).
           exists b. split.
           ++ unfold ump_byte in *.
              replace (3 + Z.of_nat (S k)) with (0 + Z.of_nat k + 1 * 4)
                by lia.
              rewrite Z.div_add, Z.mod_add by lia.
              rewrite <- Hb. unfold word.
              destruct (Z.ltb_spec ((0 + Z.of_nat k) / 4) 0) as [Hneg | Hpos].
              { pose proof (Z.div_pos (0 + Z.of_nat k) 4 ltac:(lia)
                              ltac:(lia)). lia. }
              destruct (Z.ltb_spec ((0 + Z.of_nat k) / 4 + 1) 0); [lia |].
              rewrite Z2Nat.inj_add by lia. rewrite Nat.add_comm.
              reflexivity.
           ++ rewrite <- Hout. f_equal. lia.
      * intros i Hi. rewrite Hrest by lia. apply Hother. lia.
    + destruct (IH data buf' (r + 1) (S size) ltac:(lia) ltac:(lia)
                  ltac:(lia))
        as (out & Hrun & Hlen' & Hbytes & Hrest).
      exists out.
      replace (24 - 8 * r - 8) with (24 - 8 * (r + 1)) by lia.
      rewrite Hrun.
      split; [do 2 f_equal; lia |].
      split; [lia |].
      split.
      * intros [| k] Hk.
        -- exists (Z.land (Z.shiftr w (24 - 8 * r)) 255).
           rewrite Z.add_0_r, Nat.add_0_r. split; [exact Hhead |].
           rewrite Hrest by lia. now rewrite Hat, low7_of_byte.
        -- destruct (Hbytes k ltac:(lia)) as (b & Hb & Hout).
           exists b. split.
           ++ rewrite <- Hb. f_equal. lia.
           ++ rewrite <- Hout. f_equal. lia.
      * intros i Hi. rewrite Hrest by lia. apply Hother. lia.
Qed.

(** X22: with a non-zero [maxlen], [expand_sysex_data] returns [bytes]
    and stores that many bytes from the start of the buffer: the
    successive bytes of the packet from the one at bit [offset] of the
    first word on, most significant byte of a word first, each cut to 7
    bits; the rest of the buffer is as before.  This holds for a buffer
    of at least [bytes] bytes and a packet long enough, whatever the
    value of [maxlen]. *)
Theorem expand_sysex_data_bytes data buf maxlen bytes start :
  maxlen <> 0 ->
  0 <= start <= 3 ->
  (bytes <= length buf)%nat ->
  start + Z.of_nat bytes <= 4 * Z.of_nat (length data) ->
  exists out,
    expand_sysex_data data buf maxlen bytes (24 - 8 * start)
    = Some (Z.of_nat bytes, out)
    /\ length out = length buf
    /\ (forall k, (k < bytes)%nat ->
        exists b, ump_byte data (start + Z.of_nat k) = Some b
                  /\ nth_error out k = Some (Z.land b 127))
    /\ (forall i, (bytes <= i)%nat -> nth_error out i = nth_error buf i).
Proof.
  intros Hmax Hstart Hbuf Hdata.
  destruct (expand_sysex_data_loop_spec maxlen Hmax bytes data buf start 0
              Hstart ltac:(lia) Hdata) as (out & Hrun & Hlen & Hbytes & Hrest).
  exists out. unfold expand_sysex_data.
  split; [exact Hrun |]. split; [exact Hlen |].
  split; [exact Hbytes |].
  intros i Hi. apply Hrest. right. lia.
Qed.

Lemma expand_sysex_data_loop_overrun maxlen :
  maxlen <> 0 ->
  forall bytes data buf r size,
    0 <= r <= 3 ->
    (size <= length buf)%nat ->
    (length buf < size + bytes)%nat ->
    r + Z.of_nat bytes <= 4 * Z.of_nat (length data) ->
    expand_sysex_data_loop data buf maxlen bytes (24 - 8 * r) size = None.
Proof.
  intros Hmax.
  induction bytes as [| bytes IH]; intros data buf r size Hr Hsize Hbuf Hdata;
    [lia |].
  cbn [expand_sysex_data_loop].
  rewrite (proj2 (Z.eqb_neq _ _) Hmax).
  destruct (word_some data 0 ltac:(lia)) as (w & Hw). rewrite Hw.
  destruct (Nat.eq_dec size (length buf)) as [Hfull | Hroom].
  { rewrite store_none by lia. reflexivity. }
  destruct (store_some buf size (Z.land (Z.shiftr w (24 - 8 * r)) 127)
              ltac:(lia)) as (buf' & -> & Hlen & _).
  destruct (Z.eqb_spec (24 - 8 * r) 0) as [Hlast | Hmore].
  - assert (r = 3) as -> by lia.
    destruct data as [| w0 data']; [cbn [length] in Hdata; lia |].
    cbn [skipn].
    apply (IH data' buf' 0 (S size)); cbn [length] in *; lia.
  - replace (24 - 8 * r - 8) with (24 - 8 * (r + 1)) by lia.
    apply (IH data buf' (r + 1) (S size)); lia.
Qed.

(** X23: [maxlen] does not bound what [expand_sysex_data] stores.  On a
    buffer of [maxlen] bytes, [maxlen] non-zero and less than [bytes],
    the loop goes on after the buffer is full and stores past its end. *)
Theorem expand_sysex_data_past_maxlen data buf bytes start :
  buf <> nil ->
  (length buf < bytes)%nat ->
  0 <= start <= 3 ->
  start + Z.of_nat bytes <= 4 * Z.of_nat (length data) ->
  expand_sysex_data data buf (Z.of_nat (length buf)) bytes (24 - 8 * start)
  = None.
Proof.
  intros Hbuf Hbytes Hstart Hdata.
  apply expand_sysex_data_loop_overrun; try lia.
  destruct buf; [congruence | cbn [length]; lia].
Qed.

(** X24: [snd_ump_packet_length] returns a length of 1 to 4 words for
    the sixteen packet types 0 to 15 and 0 for a type above 16; for type
    16 the test [type > 16] lets the read of the table go through, one
    element past its end. *)
Theorem snd_ump_packet_length_range type :
  0 <= type ->
  (type < 16 ->
   exists n, snd_ump_packet_length type = Some n /\ 1 <= n <= 4)
  /\ (16 < type -> snd_ump_packet_length type = Some 0)
  /\ (type = 16 -> snd_ump_packet_length type = None).
Proof.
  intros Hpos. unfold snd_ump_packet_length.
  split; [| split].
  - intros Hlt.
    destruct (Z.gtb_spec type 16); [lia |].
    assert (Hcases : exists k, (k < 16)%nat /\ type = Z.of_nat k).
    { exists (Z.to_nat type). lia. }
    destruct Hcases as (k & Hk & ->).
    do 16 (destruct k as [| k];
           [eexists; split; [reflexivity | lia] |]).
    lia.
  - intros Hgt. destruct (Z.gtb_spec type 16); [reflexivity | lia].
  - intros ->. reflexivity.
Qed.

(** * [control/tlv.c]: [DB_RANGE] entries *)

Lemma word_app_r head l i :
  0 <= i -> word (head ++ l) (Z.of_nat (length head) + i) = word l i.
Proof.
  intros Hi. unfold word.
  destruct (Z.ltb_spec (Z.of_nat (length head) + i) 0); [lia |].
  destruct (Z.ltb_spec i 0); [lia |].
  rewrite nth_error_app2 by lia. f_equal. lia.
Qed.

Lemma to_int_to_uint x : INT_MIN <= x <= INT_MAX -> to_int (to_uint x) = x.
Proof.
  intros Hx. unfold to_int, to_uint. int_limits.
  change (2 ^ 31) with 2147483648. change (2 ^ 32) with 4294967296.
  rewrite Zplus_mod_idemp_l.
  rewrite Z.mod_small; lia.
Qed.

Lemma encode_items_cons it items :
  encode_items (it :: items) = encode_item it ++ encode_items items.
Proof. reflexivity. Qed.


Lemma length_encode_items items :
  Forall item_ok items -> (6 * length items <= length (encode_items items))%nat.
Proof.
  induction 1 as [| it items (_ & _ & Hdata) _ IH]; [apply Nat.le_refl |].
  rewrite encode_items_cons, length_app.
  cbn [encode_item encode_entry length]. lia.
Qed.

Lemma to_dB_range_loop_lookup {h : tlv_h} convert len volume rest :
  forall items n head,
    Forall item_ok items ->
    (length items < n)%nat ->
    Z.of_nat (length head) + Z.of_nat (length (encode_items items)) = len + 2 ->
    to_dB_range_loop convert n (head ++ encode_items items ++ rest) len
      (Z.of_nat (length head)) volume
    = match range_lookup items rest volume with
      | Some (it, sub) => convert sub (item_min it) (item_max it) volume
      | None => Some (Fail (- EINVAL))
      end.
Proof.
  induction items as [| it items IH]; intros n head Hok Hn Hlen;
    (destruct n as [| n]; [cbn [length] in Hn; lia |]).
  - cbn [to_dB_range_loop range_lookup]. cbn [encode_items map concat length] in Hlen.
    destruct (Z.leb_spec (Z.of_nat (length head) + 4) len); [lia | reflexivity].
  - apply Forall_cons_iff in Hok. destruct Hok as [(Hmin & Hmax & Hdata) Hok].
    rewrite encode_items_cons in *. rewrite length_app in Hlen.
    cbn [encode_item encode_entry length] in Hlen.
    cbn [to_dB_range_loop range_lookup].
    destruct (Z.leb_spec (Z.of_nat (length head) + 4) len); [| lia].
    rewrite <- app_assoc.
    rewrite <- (Z.add_0_r (Z.of_nat (length head))) at 1.
    rewrite !word_app_r by lia.
    cbn [encode_item encode_entry app].
    set (tail := item_data it ++ encode_items items ++ rest).
    change (word (to_uint (item_min it) :: to_uint (item_max it)
                    :: item_type it :: 4 * Z.of_nat (length (item_data it))
                    :: tail) 0)
      with (Some (to_uint (item_min it))).
    change (word (to_uint (item_min it) :: to_uint (item_max it)
                    :: item_type it :: 4 * Z.of_nat (length (item_data it))
                    :: tail) 1)
      with (Some (to_uint (item_max it))).
    change (word (to_uint (item_min it) :: to_uint (item_max it)
                    :: item_type it :: 4 * Z.of_nat (length (item_data it))
                    :: tail) 3)
      with (Some (4 * Z.of_nat (length (item_data it)))).
    cbv beta iota.
    rewrite !to_int_to_uint by assumption.
    rewrite Z.geb_leb.
    destruct ((item_min it <=? volume) && (volume <=? item_max it)).
    + f_equal.
      replace (Z.to_nat (Z.of_nat (length head) + 2))
        with (2 + length head)%nat by lia.
      rewrite <- skipn_skipn.
      rewrite skipn_app, skipn_all, Nat.sub_diag. reflexivity.
    + rewrite int_index_words by lia.
      specialize (IH n (head ++ encode_item it) Hok).
      rewrite <- app_assoc in IH.
      rewrite length_app in IH. cbn [encode_item encode_entry length app] in IH.
      fold tail in IH.
      replace (Z.of_nat (length head) + Z.of_nat (length (item_data it)) + 4)
        with (Z.of_nat (length head + S (S (S (S (length (item_data it)))))))
        by lia.
      apply IH; cbn [length] in Hn; lia.
Qed.

Lemma to_dB_range_eq {h : tlv_h} depth items rest rangemin rangemax volume :
  tlv_layout h ->
  Forall item_ok items ->
  (length (encode_items items) <= 256)%nat ->
  snd_tlv_convert_to_dB (S depth) (encode_range items ++ rest)
    rangemin rangemax volume
  = match range_lookup items rest volume with
    | Some (it, sub) =>
        snd_tlv_convert_to_dB depth sub (item_min it) (item_max it) volume
    | None => Some (Fail (- EINVAL))
    end.
Proof.
  intros (HT & HL & _) Hok Hlen.
  cbn [snd_tlv_convert_to_dB]. rewrite HT, HL.
  unfold encode_range.
  change (word (encode_entry SND_CTL_TLVT_DB_RANGE (encode_items items)
                ++ rest) 0) with (Some SND_CTL_TLVT_DB_RANGE).
  change (word (encode_entry SND_CTL_TLVT_DB_RANGE (encode_items items)
                ++ rest) 1)
    with (Some (4 * Z.of_nat (length (encode_items items)))).
  cbv beta iota. rewrite Z.eqb_refl.
  rewrite int_index_words by lia.
  unfold MAX_TLV_RANGE_SIZE.
  destruct (Z.gtb_spec (Z.of_nat (length (encode_items items))) 256); [lia |].
  pose proof (length_encode_items items Hok) as Hitems.
  apply (to_dB_range_loop_lookup
           (snd_tlv_convert_to_dB depth)
           (Z.of_nat (length (encode_items items))) volume rest
           items 64 [SND_CTL_TLVT_DB_RANGE;
                     4 * Z.of_nat (length (encode_items items))] Hok);
    cbn [length]; lia.
Qed.

Lemma holds_test volume it :
  (item_min it <=? volume) && (volume <=? item_max it) = true
  <-> holds volume it.
Proof.
  unfold holds. rewrite andb_true_iff, !Z.leb_le. reflexivity.
Qed.

Lemma range_lookup_first pre it post rest volume :
  Forall (fun it' => ~ holds volume it') pre ->
  holds volume it ->
  range_lookup (pre ++ it :: post) rest volume
  = Some (it, encode_entry (item_type it) (item_data it)
              ++ encode_items post ++ rest).
Proof.
  intros Hpre Hit.
  induction Hpre as [| it' pre Hno _ IH]; cbn [app range_lookup].
  - now rewrite (proj2 (holds_test volume it) Hit).
  - destruct ((item_min it' <=? volume) && (volume <=? item_max it')) eqn:E;
      [| exact IH].
    apply holds_test in E. contradiction.
Qed.

Lemma range_lookup_none items rest volume :
  Forall (fun it => ~ holds volume it) items ->
  range_lookup items rest volume = None.
Proof.
  induction 1 as [| it items Hno _ IH]; cbn [range_lookup]; [reflexivity |].
  destruct ((item_min it <=? volume) && (volume <=? item_max it)) eqn:E;
    [| exact IH].
  apply holds_test in E. contradiction.
Qed.

Lemma range_lookup_some items rest volume it sub :
  range_lookup items rest volume = Some (it, sub) ->
  In it items /\ holds volume it.
Proof.
  induction items as [| it' items IH]; cbn [range_lookup]; [discriminate |].
  destruct ((item_min it' <=? volume) && (volume <=? item_max it')) eqn:E.
  - intros [= <- _]. split; [now left | now apply holds_test].
  - intros Hlook. destruct (IH Hlook). split; [now right | assumption].
Qed.

Lemma range_lookup_exists items rest volume :
  Exists (holds volume) items ->
  exists it sub, range_lookup items rest volume = Some (it, sub).
Proof.
  induction 1 as [it items Hit | it items _ IH]; cbn [range_lookup].
  - rewrite (proj2 (holds_test volume it) Hit). eauto.
  - destruct ((item_min it <=? volume) && (volume <=? item_max it)); eauto.
Qed.

(** X25: on a [DB_RANGE] entry, [snd_tlv_convert_to_dB] converts with
    the dB entry of the first sub-range that holds the volume, between
    the bounds of that sub-range -- the [rangemin] and [rangemax] of the
    call are not used -- and returns [-EINVAL] for a volume in none of
    the sub-ranges. *)
Theorem to_dB_range_dispatch {h : tlv_h} depth items rest
    rangemin rangemax volume :
  tlv_layout h ->
  Forall item_ok items ->
  (length (encode_items items) <= 256)%nat ->
  (forall pre it post,
     items = pre ++ it :: post ->
     Forall (fun it' => ~ holds volume it') pre ->
     holds volume it ->
     snd_tlv_convert_to_dB (S depth) (encode_range items ++ rest)
       rangemin rangemax volume
     = snd_tlv_convert_to_dB depth
         (encode_entry (item_type it) (item_data it)
          ++ encode_items post ++ rest)
         (item_min it) (item_max it) volume)
  /\ (Forall (fun it => ~ holds volume it) items ->
      snd_tlv_convert_to_dB (S depth) (encode_range items ++ rest)
        rangemin rangemax volume
      = Some (Fail (- EINVAL))).
Proof.
  intros Hlayout Hok Hlen.
  rewrite (to_dB_range_eq depth items rest rangemin rangemax volume
             Hlayout Hok Hlen).
  split.
  - intros pre it post -> Hpre Hit.
    now rewrite (range_lookup_first pre it post rest volume Hpre Hit).
  - intros Hnone. now rewrite range_lookup_none.
Qed.

Section RangeBounds.

Context {h : tlv_h}.
Hypothesis Hdistinct : tlvt_distinct h.

Lemma scale_item_bounds depth depth' it tail c m0 M0 :
  scale_item_ok it ->
  INT_MIN <= c <= INT_MAX ->
  exists lo hi,
    snd_tlv_get_dB_range (S depth)
      (encode_entry (item_type it) (item_data it) ++ tail)
      (item_min it) c m0 M0
    = Some (0, Some lo, Some hi)
    /\ forall volume,
         holds volume it -> volume <= c ->
         exists g,
           snd_tlv_convert_to_dB (S depth')
             (encode_entry (item_type it) (item_data it) ++ tail)
             (item_min it) (item_max it) volume
           = Some (Done g)
           /\ lo <= g <= hi.
Proof.
  intros ((Hmin & Hmax & _) & Hle & smin & step & mute & Hentry & Hmute) Hc.
  specialize (Hentry tail).
  destruct (scale_step_range _ _ _ _ Hentry) as [Hs Hsmin].
  exists (if mute then SND_CTL_TLV_DB_GAIN_MUTE else smin),
         (smin + step * (c - item_min it)).
  split.
  - erewrite (get_dB_range_scale Hdistinct) by exact Hentry.
    assert (- 4294967295 <= c - item_min it <= 4294967295)
      by (int_limits; lia).
    assert (- (65535 * 4294967295) <= step * (c - item_min it)
            <= 65535 * 4294967295) by nia.
    now fits.
  - intros volume [Hlo Hhi] Hvc.
    rewrite (to_dB_scale_value _ smin step mute)
      by (assumption || lia).
    eexists. split; [reflexivity |].
    unfold scale_gain.
    destruct mute; cbn [andb].
    + specialize (Hmute eq_refl).
      destruct (Z.leb_spec volume (item_min it)); split; try lia; nia.
    + split; nia.
Qed.

Lemma get_dB_range_loop_bounds depth depth' len rangemax rest :
  tlv_layout h ->
  INT_MIN <= rangemax ->
  forall items n head mn mx,
    Forall scale_item_ok items ->
    ascending items ->
    (length items < n)%nat ->
    Z.of_nat (length head) + Z.of_nat (length (encode_items items)) = len + 2 ->
    (2 <= length head)%nat ->
    ((2 < length head)%nat -> exists a b, mn = Some a /\ mx = Some b) ->
    (items <> nil \/ (2 < length head)%nat) ->
    exists lo hi,
      get_dB_range_loop (snd_tlv_get_dB_range (S depth)) n
        (head ++ encode_items items ++ rest) len rangemax
        (Z.of_nat (length head)) mn mx
      = Some (0, Some lo, Some hi)
      /\ (forall a b, (2 < length head)%nat -> mn = Some a -> mx = Some b ->
          lo <= a /\ b <= hi)
      /\ forall volume it sub,
           volume <= rangemax ->
           range_lookup items rest volume = Some (it, sub) ->
           exists g,
             snd_tlv_convert_to_dB (S depth') sub
               (item_min it) (item_max it) volume
             = Some (Done g)
             /\ lo <= g <= hi.
Proof.
  intros Hlayout Hrmax.
  induction items as [| it items IH];
    intros n head mn mx Hok Hasc Hn Hlen Hhead Hacc Hsome;
    (destruct n as [| n]; [cbn [length] in Hn; lia |]).
  - (* past the last sub-range *)
    destruct Hsome as [Hnil | Hlater]; [congruence |].
    destruct (Hacc Hlater) as (a & b & -> & ->).
    cbn [encode_items map concat length] in Hlen.
    cbn [get_dB_range_loop].
    destruct (Z.leb_spec (Z.of_nat (length head) + 4) len); [lia |].
    exists a, b. split; [reflexivity |].
    split; [intros a' b' _ [= <-] [= <-]; lia |].
    intros volume it sub _ Hlook. discriminate.
  - apply Forall_cons_iff in Hok. destruct Hok as [Hit Hok].
    destruct Hasc as [Hafter Hasc].
    pose proof Hit as ((Hmin & Hmax & Hdata) & Hle & _).
    rewrite encode_items_cons in *. rewrite length_app in Hlen.
    cbn [encode_item encode_entry length] in Hlen.
    cbn [get_dB_range_loop].
    destruct (Z.leb_spec (Z.of_nat (length head) + 4) len); [| lia].
    rewrite <- app_assoc.
    set (tlv := head ++ encode_item it ++ encode_items items ++ rest).
    assert (Hw0 : word tlv (Z.of_nat (length head))
                  = Some (to_uint (item_min it))).
    { rewrite <- (Z.add_0_r (Z.of_nat (length head))).
      unfold tlv. now rewrite word_app_r by lia. }
    assert (Hw1 : word tlv (Z.of_nat (length head) + 1)
                  = Some (to_uint (item_max it))).
    { unfold tlv. now rewrite word_app_r by lia. }
    assert (Hw3 : word tlv (Z.of_nat (length head) + 3)
                  = Some (4 * Z.of_nat (length (item_data it)))).
    { unfold tlv. now rewrite word_app_r by lia. }
    assert (Hskip : skipn (Z.to_nat (Z.of_nat (length head) + 2)) tlv
                    = encode_entry (item_type it) (item_data it)
                      ++ encode_items items ++ rest).
    { replace (Z.to_nat (Z.of_nat (length head) + 2))
        with (2 + length head)%nat by lia.
      unfold tlv. rewrite <- skipn_skipn.
      rewrite skipn_app, skipn_all, Nat.sub_diag. reflexivity. }
    rewrite Hw0, Hw1, Hw3, Hskip.
    rewrite !to_int_to_uint by assumption.
    set (c := if rangemax <? item_max it then rangemax else item_max it).
    assert (Hc : INT_MIN <= c <= INT_MAX).
    { unfold c. destruct (Z.ltb_spec rangemax (item_max it)); lia. }
    assert (Hcmax : c <= item_max it /\ c <= rangemax).
    { unfold c. destruct (Z.ltb_spec rangemax (item_max it)); lia. }
    destruct (scale_item_bounds depth depth' it
                (encode_items items ++ rest) c None None Hit Hc)
      as (lo1 & hi1 & -> & Hsub).
    cbv beta iota.
    destruct (Z.ltb_spec 0 0); [lia |].
    (* the new contents of [*min] and [*max] *)
    assert (Hnew : exists lo2 hi2,
               (if Z.of_nat (length head) >? 2
                then match mn with
                     | Some min' =>
                         match mx with
                         | Some max' =>
                             Some (Some (if lo1 <? min' then lo1 else min'),
                                   Some (if hi1 >? max' then hi1 else max'))
                         | None => None
                         end
                     | None => None
                     end
                else Some (Some lo1, Some hi1))
               = Some (Some lo2, Some hi2)
               /\ lo2 <= lo1 /\ hi1 <= hi2
               /\ (forall a b, (2 < length head)%nat ->
                   mn = Some a -> mx = Some b -> lo2 <= a /\ b <= hi2)).
    { destruct (Z.gtb_spec (Z.of_nat (length head)) 2) as [Hgt | Hfirst].
      - destruct (Hacc ltac:(lia)) as (a & b & -> & ->).
        do 2 eexists. split; [reflexivity |].
        destruct (Z.ltb_spec lo1 a), (Z.gtb_spec hi1 b);
          (split; [lia |]); (split; [lia |]);
          intros a' b' _ [= <-] [= <-]; lia.
      - exists lo1, hi1. split; [reflexivity |].
        split; [lia |]. split; [lia |]. intros a b Hgt. lia. }
    destruct Hnew as (lo2 & hi2 & Hnew & Hlo2 & Hhi2 & Hprev).
    match goal with
    | |- context [match ?acc with Some _ => _ | None => _ end] =>
        match type of Hnew with ?acc' = _ =>
          change acc with acc'; rewrite Hnew end
    end.
    cbv beta iota.
    assert (Hhere : forall volume,
               volume <= rangemax -> holds volume it -> volume <= c ->
               exists g,
                 snd_tlv_convert_to_dB (S depth')
                   (encode_entry (item_type it) (item_data it)
                    ++ encode_items items ++ rest)
                   (item_min it) (item_max it) volume
                 = Some (Done g)
                 /\ lo2 <= g <= hi2).
    { intros volume _ Hhold Hvc.
      destruct (Hsub volume Hhold Hvc) as (g & Hg & Hbound).
      exists g. split; [exact Hg | lia]. }
    destruct (Z.eqb_spec rangemax c) as [Hstop | Hgo].
    + (* the sub-range reaches [rangemax] *)
      exists lo2, hi2. split; [reflexivity |]. split; [exact Hprev |].
      intros volume it' sub Hvol Hlook. cbn [range_lookup] in Hlook.
      destruct ((item_min it <=? volume) && (volume <=? item_max it)) eqn:E.
      * injection Hlook as <- <-. apply holds_test in E.
        apply Hhere; [assumption | assumption | lia].
      * apply range_lookup_some in Hlook. destruct Hlook as [Hin [Hlo' _]].
        pose proof (proj1 (Forall_forall _ _) Hafter it' Hin) as Hgap.
        cbv beta in Hgap. lia.
    + (* on to the next sub-range *)
      assert (Hcis : c = item_max it).
      { unfold c in *. destruct (Z.ltb_spec rangemax (item_max it)); lia. }
      rewrite int_index_words by lia.
      destruct (IH n (head ++ encode_item it) (Some lo2) (Some hi2) Hok Hasc)
        as (lo & hi & Hrun & Hwide & Hrest).
      * cbn [length] in Hn. lia.
      * rewrite length_app. cbn [encode_item encode_entry length]. lia.
      * rewrite length_app. lia.
      * intros _. eauto.
      * right. rewrite length_app. cbn [encode_item encode_entry length]. lia.
      * rewrite <- app_assoc in Hrun. fold tlv in Hrun.
        rewrite length_app in Hrun, Hwide.
        cbn [encode_item encode_entry length] in Hrun, Hwide.
        replace (Z.of_nat (length head)
                 + Z.of_nat (length (item_data it)) + 4)
          with (Z.of_nat (length head
                          + S (S (S (S (length (item_data it)))))))
          by lia.
        exists lo, hi. split; [exact Hrun |].
        destruct (Hwide lo2 hi2 ltac:(lia) eq_refl eq_refl) as [Hl Hh].
        split.
        -- intros a b Hgt Ha Hb.
           destruct (Hprev a b Hgt Ha Hb). lia.
        -- intros volume it' sub Hvol Hlook. cbn [range_lookup] in Hlook.
           destruct ((item_min it <=? volume) && (volume <=? item_max it))
             eqn:E.
           ++ injection Hlook as <- <-. apply holds_test in E.
              destruct (Hhere volume Hvol E ltac:(unfold holds in E; lia))
                as (g & Hg & Hbound).
              exists g. split; [exact Hg | lia].
           ++ exact (Hrest volume it' sub Hvol Hlook).
Qed.

End RangeBounds.

(** X26: on a [DB_RANGE] entry of [DB_SCALE] sub-ranges in ascending
    order, [snd_tlv_get_dB_range] returns 0 with bounds for every
    conversion: whatever volume up to [rangemax] lies in one of the
    sub-ranges, [snd_tlv_convert_to_dB] succeeds on it with a gain
    between [*min] and [*max]. *)
Theorem db_range_bounds {h : tlv_h} depth depth' items rest
    rangemin rangemax rangemin' rangemax' min0 max0 :
  tlvt_distinct h ->
  tlv_layout h ->
  items <> nil ->
  Forall scale_item_ok items ->
  ascending items ->
  (length (encode_items items) <= 256)%nat ->
  INT_MIN <= rangemax ->
  exists lo hi,
    snd_tlv_get_dB_range (S (S depth)) (encode_range items ++ rest)
      rangemin rangemax min0 max0
    = Some (0, Some lo, Some hi)
    /\ forall volume,
         Exists (holds volume) items -> volume <= rangemax ->
         exists g,
           snd_tlv_convert_to_dB (S (S depth')) (encode_range items ++ rest)
             rangemin' rangemax' volume
           = Some (Done g)
           /\ lo <= g <= hi.
Proof.
  intros Hdistinct Hlayout Hnonempty Hok Hasc Hlen Hrmax.
  pose proof Hlayout as (HT & HL & _).
  assert (Hitems : Forall item_ok items).
  { apply (Forall_impl _ (P := scale_item_ok)); [| exact Hok].
    intros it Hit. apply Hit. }
  pose proof (length_encode_items items Hitems) as Hcount.
  destruct (get_dB_range_loop_bounds Hdistinct depth depth'
              (Z.of_nat (length (encode_items items))) rangemax rest
              Hlayout Hrmax items 64
              [SND_CTL_TLVT_DB_RANGE;
               4 * Z.of_nat (length (encode_items items))]
              min0 max0 Hok Hasc)
    as (lo & hi & Hrun & _ & Hbound).
  { lia. }
  { cbn [length]. lia. }
  { cbn [length]. lia. }
  { cbn [length]. lia. }
  { now left. }
  exists lo, hi. split.
  - remember (S depth) as d eqn:Ed.
    cbn [snd_tlv_get_dB_range]. subst d. rewrite HT, HL.
    unfold encode_range.
    change (word (encode_entry SND_CTL_TLVT_DB_RANGE (encode_items items)
                  ++ rest) 0) with (Some SND_CTL_TLVT_DB_RANGE).
    change (word (encode_entry SND_CTL_TLVT_DB_RANGE (encode_items items)
                  ++ rest) 1)
      with (Some (4 * Z.of_nat (length (encode_items items)))).
    cbv beta iota. rewrite Z.eqb_refl.
    rewrite int_index_words by lia.
    unfold MAX_TLV_RANGE_SIZE.
    destruct (Z.gtb_spec (Z.of_nat (length (encode_items items))) 256);
      [lia |].
    exact Hrun.
  - intros volume Hin Hvol.
    rewrite (to_dB_range_eq (S depth') items rest rangemin' rangemax' volume
               Hlayout Hitems Hlen).
    destruct (range_lookup_exists items rest volume Hin)
      as (it & sub & Hlook).
    rewrite Hlook.
    exact (Hbound volume it sub Hvol Hlook).
Qed.

Lemma step_word step :
  0 <= step <= 65535 ->
  Z.land step 65535 = step /\ Z.land step 65536 = 0.
Proof.
  intros Hstep. split.
  - pose proof (Z.land_ones step 16 ltac:(lia)) as E.
    change (Z.ones 16) with 65535 in E. change (2 ^ 16) with 65536 in E.
    rewrite E. apply Z.mod_small. lia.
  - destruct (mute_word step) as [[E _] | [_ E]]; [exact E |].
    rewrite Z.shiftr_div_pow2 in E by lia.
    change (2 ^ 16) with 65536 in E.
    rewrite Z.div_small in E by lia. discriminate.
Qed.

Section RangeRoundTrip.

Context {h : tlv_h}.
Hypothesis Hdistinct : tlvt_distinct h.
Hypothesis Hlayout : tlv_layout h.
Hypothesis Hscale : scale_layout h.

Lemma sr_ok_dbmin s : sr_ok s -> INT_MIN <= sr_dbmin s <= INT_MAX.
Proof.
  unfold sr_ok, sr_top. intros (? & ? & ? & ? & ? & ? & ?).
  split; [assumption | nia].
Qed.

Lemma scale_item_entry s tail :
  sr_ok s ->
  db_scale_entry
    (encode_entry (item_type (scale_item s)) (item_data (scale_item s))
     ++ tail)
    (sr_dbmin s) (sr_step s) false.
Proof.
  intros Hok. pose proof (sr_ok_dbmin s Hok) as Hdb.
  destruct Hok as (_ & _ & _ & _ & Hstep & _).
  destruct Hlayout as (HT & _). destruct Hscale as (H2 & H3).
  destruct (step_word (sr_step s) ltac:(lia)) as [Hlow Hbit].
  exists (to_uint (sr_dbmin s)), (sr_step s).
  rewrite HT, H2, H3. cbn [scale_item item_type item_data].
  split; [reflexivity |]. split; [reflexivity |]. split; [reflexivity |].
  split; [now rewrite to_int_to_uint |].
  split; [now rewrite Hlow |].
  now rewrite Hbit.
Qed.

Lemma scale_items_ok ranges :
  Forall sr_ok ranges -> Forall item_ok (map scale_item ranges).
Proof.
  induction 1 as [| s ranges Hs _ IH]; cbn [map]; constructor; [| exact IH].
  destruct Hs as (? & ? & ? & _).
  unfold item_ok. cbn [scale_item item_min item_max item_data length].
  repeat split; lia.
Qed.

Lemma rising_before pre s post :
  rising (pre ++ s :: post) ->
  Forall (fun s' => sr_max s' < sr_min s /\ sr_top s' < sr_dbmin s) pre.
Proof.
  induction pre as [| s' pre IH]; cbn [app rising]; [constructor |].
  intros [Hafter Hrest]. constructor; [| now apply IH].
  apply (proj1 (Forall_forall _ _) Hafter).
  apply in_or_app. right. now left.
Qed.

(** One turn of the loop on a linear scale. *)
Lemma from_dB_range_loop_step depth depth' len rangemax rest db xdir :
  INT_MIN <= rangemax ->
  forall s0 items n head dbmin dbmax prev,
    sr_ok s0 ->
    Z.of_nat (length head)
    + Z.of_nat (length (encode_items (scale_item s0 :: items)))
    = len + 2 ->
    let tlv := head ++ encode_items (scale_item s0 :: items) ++ rest in
    let c := if rangemax <? sr_max s0 then rangemax else sr_max s0 in
    let sub := encode_entry (item_type (scale_item s0))
                 (item_data (scale_item s0))
               ++ encode_items items ++ rest in
    from_dB_range_loop (snd_tlv_get_dB_range (S depth))
      (snd_tlv_convert_from_dB (S depth')) (S n) tlv len rangemax
      db xdir (Z.of_nat (length head)) dbmin dbmax prev
    = if (db >=? sr_dbmin s0)
         && (db <=? sr_dbmin s0 + sr_step s0 * (c - sr_min s0))
      then snd_tlv_convert_from_dB (S depth') sub (sr_min s0) c db xdir
      else if db <? sr_dbmin s0
      then Some (Done (if (xdir >? 0) || (Z.of_nat (length head) =? 2)
                       then sr_min s0 else prev))
      else if rangemax =? c then Some (Done c)
      else from_dB_range_loop (snd_tlv_get_dB_range (S depth))
             (snd_tlv_convert_from_dB (S depth')) n tlv len rangemax db xdir
             (Z.of_nat (length (head ++ encode_item (scale_item s0))))
             (Some (sr_dbmin s0))
             (Some (sr_dbmin s0 + sr_step s0 * (c - sr_min s0)))
             c.
Proof.
  intros Hrmin.
  intros s0 items n head dbmin dbmax prev Hs0 Hlen tlv c sub.
  pose proof (sr_ok_dbmin s0 Hs0) as Hdb0.
  pose proof Hs0 as (Hmin0 & Hle0 & Hmax0 & _ & Hstep0 & Hspan0 & Htop0).
  rewrite encode_items_cons in *. rewrite length_app in Hlen.
  cbn [encode_item encode_entry scale_item item_data item_min item_max
       item_type length] in Hlen.
  cbn [from_dB_range_loop].
  destruct (Z.leb_spec (Z.of_nat (length head) + 4) len); [| lia].
  assert (Hw0 : word tlv (Z.of_nat (length head))
                = Some (to_uint (sr_min s0))).
  { rewrite <- (Z.add_0_r (Z.of_nat (length head))).
    unfold tlv. rewrite encode_items_cons, <- app_assoc.
    now rewrite word_app_r by lia. }
  assert (Hw1 : word tlv (Z.of_nat (length head) + 1)
                = Some (to_uint (sr_max s0))).
  { unfold tlv. rewrite encode_items_cons, <- app_assoc.
    now rewrite word_app_r by lia. }
  assert (Hw3 : word tlv (Z.of_nat (length head) + 3) = Some (4 * 2)).
  { unfold tlv. rewrite encode_items_cons, <- app_assoc.
    now rewrite word_app_r by lia. }
  assert (Hskip : skipn (Z.to_nat (Z.of_nat (length head) + 2)) tlv = sub).
  { replace (Z.to_nat (Z.of_nat (length head) + 2))
      with (2 + length head)%nat by lia.
    unfold tlv. rewrite encode_items_cons, <- app_assoc, <- skipn_skipn.
    rewrite skipn_app, skipn_all, Nat.sub_diag. reflexivity. }
  fold tlv. rewrite Hw0, Hw1, Hw3, Hskip.
  rewrite !to_int_to_uint by lia.
  fold c.
  assert (Hc : INT_MIN <= c <= INT_MAX /\ c <= sr_max s0).
  { unfold c.
    destruct (Z.ltb_spec rangemax (sr_max s0)); lia. }
  destruct (scale_step_range _ _ _ _ (scale_item_entry s0
                                        (encode_items items ++ rest) Hs0))
    as [Hstepw _].
  erewrite (get_dB_range_scale Hdistinct)
    by exact (scale_item_entry s0 (encode_items items ++ rest) Hs0).
  assert (- 4294967295 <= c - sr_min s0 <= 4294967295)
    by (int_limits; lia).
  assert (- (65535 * 4294967295) <= sr_step s0 * (c - sr_min s0)
          <= 65535 * 4294967295) by nia.
  fits. cbv beta iota. rewrite Z.eqb_refl.
  destruct (Z.geb_spec db (sr_dbmin s0)) as [Hge | Hlt]; cbn [andb].
  - destruct (db <=? sr_dbmin s0 + sr_step s0 * (c - sr_min s0));
      [reflexivity |].
    destruct (Z.ltb_spec db (sr_dbmin s0)); [lia |].
    destruct (rangemax =? c); [reflexivity |].
    change (int_index (4 * 2)) with 2.
    rewrite length_app.
    cbn [encode_item encode_entry scale_item item_data length].
    do 2 f_equal. lia.
  - destruct (Z.ltb_spec db (sr_dbmin s0)); [reflexivity | lia].
Qed.

Lemma from_dB_range_loop_round_trip depth depth' len rangemax rest
    s post volume xdir :
  sr_ok s ->
  sr_min s <= volume <= sr_max s ->
  volume <= rangemax ->
  forall pre n head dbmin dbmax prev,
    Forall (fun s' => sr_ok s' /\ sr_max s' < volume
                      /\ sr_top s'
                         < scale_gain (sr_dbmin s) (sr_step s) (sr_min s)
                             volume) pre ->
    (length pre < n)%nat ->
    Z.of_nat (length head)
    + Z.of_nat (length (encode_items (map scale_item (pre ++ s :: post))))
    = len + 2 ->
    from_dB_range_loop (snd_tlv_get_dB_range (S depth))
      (snd_tlv_convert_from_dB (S depth')) n
      (head ++ encode_items (map scale_item (pre ++ s :: post)) ++ rest)
      len rangemax
      (scale_gain (sr_dbmin s) (sr_step s) (sr_min s) volume) xdir
      (Z.of_nat (length head)) dbmin dbmax prev
    = Some (Done volume).
Proof.
  intros Hs Hvol Hrmax.
  set (db := scale_gain (sr_dbmin s) (sr_step s) (sr_min s) volume).
  assert (Hstep := from_dB_range_loop_step depth depth' len rangemax rest
                     db xdir ltac:(destruct Hs; lia)).
  pose proof Hs as (Hmin & Hle & Hmax & _ & Hstp & Hspan & Htop).
  unfold sr_top in Htop.
  induction pre as [| s' pre IH]; intros n head dbmin dbmax prev Hpre Hn Hlen;
    (destruct n as [| n]; [cbn [length] in Hn; lia |]);
    cbn [app map] in *; rewrite Hstep by assumption || (now inversion Hpre).
  - (* the sub-range that holds the volume *)
    set (c := if rangemax <? sr_max s then rangemax else sr_max s).
    assert (Hc : volume <= c <= sr_max s).
    { unfold c. destruct (Z.ltb_spec rangemax (sr_max s)); lia. }
    assert (Hdb : sr_dbmin s <= db <= sr_dbmin s + sr_step s * (c - sr_min s)).
    { unfold db, scale_gain. split; nia. }
    destruct (Z.geb_spec db (sr_dbmin s)); [| lia].
    destruct (Z.leb_spec db (sr_dbmin s + sr_step s * (c - sr_min s)));
      [| lia].
    cbn [andb].
    apply (scale_round_trip_value
             (encode_entry (item_type (scale_item s))
                (item_data (scale_item s))
              ++ encode_items (map scale_item post) ++ rest)
             (sr_dbmin s) (sr_step s) false (sr_min s) c volume xdir
             depth' depth' Hdistinct
             (scale_item_entry s _ Hs)); try lia; try nia.
  - (* a sub-range below *)
    apply Forall_cons_iff in Hpre.
    destruct Hpre as [(Hs' & Hbelow & Hgain) Hpre].
    pose proof Hs' as (Hmin' & Hle' & Hmax' & _ & Hstp' & _).
    unfold sr_top in Hgain. fold db in Hgain.
    destruct (Z.ltb_spec rangemax (sr_max s')); [lia |].
    destruct (Z.geb_spec db (sr_dbmin s')); [| nia].
    destruct (Z.leb_spec db
                (sr_dbmin s' + sr_step s' * (sr_max s' - sr_min s')));
      [lia |].
    cbn [andb].
    destruct (Z.ltb_spec db (sr_dbmin s')); [lia |].
    destruct (Z.eqb_spec rangemax (sr_max s')); [lia |].
    rewrite encode_items_cons, <- app_assoc.
    rewrite (app_assoc head).
    apply IH; [exact Hpre | cbn [length] in Hn; lia |].
    rewrite length_app. rewrite encode_items_cons, length_app in Hlen. lia.
Qed.





End RangeRoundTrip.



(** X27: on a [DB_RANGE] entry of linear scales without mute flag, in
    ascending order of volume and of gain,
    [snd_tlv_convert_to_dB] followed by [snd_tlv_convert_from_dB] gives
    back every raw volume of a sub-range that is not above [rangemax],
    whatever the rounding direction. *)
Theorem db_range_round_trip {h : tlv_h} depth depth' pre s post rest
    rangemin rangemax rangemin' rangemax' volume xdir :
  tlvt_distinct h ->
  tlv_layout h ->
  scale_layout h ->
  Forall sr_ok (pre ++ s :: post) ->
  rising (pre ++ s :: post) ->
  (length (encode_items (map scale_item (pre ++ s :: post))) <= 256)%nat ->
  sr_min s <= volume <= sr_max s ->
  volume <= rangemax ->
  exists db,
    snd_tlv_convert_to_dB (S (S depth))
      (encode_range (map scale_item (pre ++ s :: post)) ++ rest)
      rangemin' rangemax' volume
    = Some (Done db)
    /\ snd_tlv_convert_from_dB (S (S depth'))
         (encode_range (map scale_item (pre ++ s :: post)) ++ rest)
         rangemin rangemax db xdir
       = Some (Done volume).
Proof.
  intros Hdistinct Hlayout Hscale Hok Hrising Hlen Hvol Hrmax.
  pose proof Hlayout as (HT & HL & _).
  pose proof (scale_items_ok _ Hok) as Hitems.
  pose proof (length_encode_items _ Hitems) as Hcount.
  pose proof (rising_before pre s post Hrising) as Hbefore.
  assert (Hs : sr_ok s).
  { apply (proj1 (Forall_forall _ _) Hok). apply in_or_app. right. now left. }
  assert (Hpre : Forall sr_ok pre).
  { apply Forall_app in Hok. apply Hok. }
  pose proof Hs as (Hmin & Hle & Hmax & _ & Hstp & Hspan & Htop).
  exists (scale_gain (sr_dbmin s) (sr_step s) (sr_min s) volume).
  split.
  - rewrite (to_dB_range_eq (S depth) _ rest rangemin' rangemax' volume
               Hlayout Hitems Hlen).
    rewrite map_app. cbn [map].
    rewrite (range_lookup_first (map scale_item pre) (scale_item s)
               (map scale_item post) rest volume).
    + cbn [scale_item item_min item_max].
      rewrite (to_dB_scale_value _ (sr_dbmin s) (sr_step s) false)
        by (assumption || lia || apply (scale_item_entry Hlayout Hscale s _ Hs)).
      reflexivity.
    + apply Forall_map.
      apply (Forall_impl _ (P := fun s' => sr_max s' < sr_min s
                                          /\ sr_top s' < sr_dbmin s));
        [| exact Hbefore].
      intros s' [Hlt _]. unfold holds. cbn [scale_item item_min item_max]. lia.
    + unfold holds. cbn [scale_item item_min item_max]. lia.
  - remember (S depth') as d eqn:Ed.
    cbn [snd_tlv_convert_from_dB]. subst d. rewrite HT, HL.
    unfold encode_range.
    set (items := map scale_item (pre ++ s :: post)) in *.
    change (word (encode_entry SND_CTL_TLVT_DB_RANGE (encode_items items)
                  ++ rest) 0) with (Some SND_CTL_TLVT_DB_RANGE).
    change (word (encode_entry SND_CTL_TLVT_DB_RANGE (encode_items items)
                  ++ rest) 1)
      with (Some (4 * Z.of_nat (length (encode_items items)))).
    cbv beta iota. rewrite Z.eqb_refl.
    rewrite int_index_words by lia.
    assert (Hmany : (length pre < length items)%nat).
    { unfold items. rewrite length_map, length_app. cbn [length]. lia. }
    unfold MAX_TLV_RANGE_SIZE.
    destruct (Z.ltb_spec (Z.of_nat (length (encode_items items))) 6); [lia |].
    destruct (Z.gtb_spec (Z.of_nat (length (encode_items items))) 256);
      [lia |].
    cbn [orb]. unfold items.
    apply (from_dB_range_loop_round_trip Hdistinct Hlayout Hscale
             depth' depth' (Z.of_nat (length (encode_items items))) rangemax
             rest s post volume xdir Hs Hvol Hrmax pre 64
             [SND_CTL_TLVT_DB_RANGE;
              4 * Z.of_nat (length (encode_items items))]).
    + apply Forall_forall. intros s' Hin.
      pose proof (proj1 (Forall_forall _ _) Hpre s' Hin) as Hs'.
      pose proof (proj1 (Forall_forall _ _) Hbefore s' Hin) as [Hv Hg].
      split; [exact Hs' |]. split; [lia |].
      unfold scale_gain. nia.
    + clearbody items. lia.
    + fold items. cbn [length]. clearbody items. lia.
Qed.

(** * The theorems on the values of [sound/tlv.h] and on example data *)

Ltac alsa_header :=
  solve
    [ unfold tlvt_distinct; cbn; repeat constructor; cbn; intuition discriminate
    | unfold tlv_layout; cbn; repeat split; (lia || discriminate)
    | exists 4294961296, 65636; repeat split
    | exists 4294964296, 0; repeat split
    | intros _; cbn; lia
    | int_limits; cbn; lia ].

Lemma db_scale_round_trip_witness :
  exists db,
    snd_tlv_convert_to_dB (h := alsa_tlv_h) 1 db_scale_example 0 63 20
    = Some (Done db)
    /\ snd_tlv_convert_from_dB (h := alsa_tlv_h) 1 db_scale_example 0 63 db 0
       = Some (Done 20).
Proof.
  apply (db_scale_round_trip (h := alsa_tlv_h) db_scale_example
           (-6000) 100 true 0 63 20 0 0 0); alsa_header.
Defined.

Lemma db_scale_range_bounds_witness :
  exists lo hi,
    snd_tlv_get_dB_range (h := alsa_tlv_h) 1 db_scale_example 0 63 None None
    = Some (0, Some lo, Some hi)
    /\ snd_tlv_convert_to_dB (h := alsa_tlv_h) 1 db_scale_example 0 63 0
       = Some (Done lo)
    /\ (0 < 63 ->
        snd_tlv_convert_to_dB (h := alsa_tlv_h) 1 db_scale_example 0 63 63
        = Some (Done hi))
    /\ forall v1 v2, 0 <= v1 -> v1 <= v2 -> v2 <= 63 ->
       exists g1 g2,
         snd_tlv_convert_to_dB (h := alsa_tlv_h) 1 db_scale_example 0 63 v1
         = Some (Done g1)
         /\ snd_tlv_convert_to_dB (h := alsa_tlv_h) 1 db_scale_example 0 63 v2
            = Some (Done g2)
         /\ lo <= g1 /\ g1 <= g2 /\ g2 <= hi.
Proof.
  apply (db_scale_range_bounds (h := alsa_tlv_h) db_scale_example
           (-6000) 100 true 0 63 0 0 None None); alsa_header.
Defined.


Lemma db_minmax_range_bounds_witness :
  exists lo hi,
    snd_tlv_get_dB_range (h := alsa_tlv_h) 1 db_minmax_example 0 10 None None
    = Some (0, Some lo, Some hi)
    /\ snd_tlv_convert_to_dB (h := alsa_tlv_h) 1 db_minmax_example 0 10 0
       = Some (Done lo).
Proof.
  destruct (db_minmax_range_bounds (h := alsa_tlv_h) db_minmax_example
              (-3000) 0 false 0 10 0 0 None None)
    as (lo & hi & Hrange & Hlow & _); try alsa_header.
  exists lo, hi. split; [exact Hrange | exact Hlow].
Defined.


Lemma parse_dB_info_sound_witness :
  16 = - EINVAL (tlv_h := alsa_tlv_h)
  \/ (16 = - ENOENT (tlv_h := alsa_tlv_h) /\ Some 5 = None)
  \/ exists i,
       Some 5 = Some (0 + i) /\ 0 <= i
       /\ dB_entry_at (h := alsa_tlv_h) container_example i 16
       /\ 4 * i + 16 <= 36.
Proof.
  apply (parse_dB_info_sound (h := alsa_tlv_h) 3 container_example 0 36 None
           16 (Some 5)).
  - alsa_header.
  - unfold container_example, is_uint. repeat constructor; lia.
  - lia.
  - reflexivity.
  - reflexivity.
Defined.

Lemma parse_dB_info_finds_first_witness :
  snd_tlv_parse_dB_info (h := alsa_tlv_h) 2
    (encode_container (h := alsa_tlv_h)
       ([(255, [7])] ++ (1, [4294961296; 65636]) :: nil) ++ nil)
    0 36 None
  = Some (4 * Z.of_nat (length [4294961296; 65636]) + 8,
          Some (0 + 2 + Z.of_nat (length (encode_entries [(255, [7])])))).
Proof.
  apply (parse_dB_info_finds_first (h := alsa_tlv_h) 0
           [(255, [7])] 1 [4294961296; 65636] nil nil 0 36 None).
  - alsa_header.
  - repeat constructor; cbn; discriminate.
  - discriminate.
  - reflexivity.
  - cbn. lia.
  - cbn. lia.
  - cbn. lia.
  - lia.
Defined.

Lemma parse_dB_info_none_witness :
  snd_tlv_parse_dB_info (h := alsa_tlv_h) 2
    (encode_container (h := alsa_tlv_h) [(255, [7]); (254, nil)] ++ nil)
    0 28 (Some 3)
  = Some (- ENOENT (tlv_h := alsa_tlv_h), None).
Proof.
  apply (parse_dB_info_none (h := alsa_tlv_h) 0 [(255, [7]); (254, nil)]
           nil 0 28 (Some 3)).
  - alsa_header.
  - repeat constructor; cbn; discriminate.
  - cbn. lia.
  - lia.
Defined.

Lemma expand_sysex_data_bytes_witness :
  exists out,
    expand_sysex_data [805731967; 16909060] [0; 0; 0; 0; 0; 0; 0] 7 6
      (24 - 8 * 2)
    = Some (Z.of_nat 6, out)
    /\ length out = length [0; 0; 0; 0; 0; 0; 0]
    /\ (forall k, (k < 6)%nat ->
        exists b, ump_byte [805731967; 16909060] (2 + Z.of_nat k) = Some b
                  /\ nth_error out k = Some (Z.land b 127))
    /\ (forall i, (6 <= i)%nat ->
        nth_error out i = nth_error [0; 0; 0; 0; 0; 0; 0] i).
Proof.
  apply (expand_sysex_data_bytes [805731967; 16909060]
           [0; 0; 0; 0; 0; 0; 0] 7 6 2); cbn; lia.
Defined.

Lemma expand_sysex_data_past_maxlen_witness :
  expand_sysex_data [805731967; 16909060] [0; 0]
    (Z.of_nat (length [0; 0])) 6 (24 - 8 * 2)
  = None.
Proof.
  apply (expand_sysex_data_past_maxlen [805731967; 16909060] [0; 0] 6 2);
    try discriminate; cbn; lia.
Defined.

Lemma snd_ump_packet_length_range_witness :
  (5 < 16 -> exists n, snd_ump_packet_length 5 = Some n /\ 1 <= n <= 4)
  /\ (16 < 5 -> snd_ump_packet_length 5 = Some 0)
  /\ (5 = 16 -> snd_ump_packet_length 5 = None).
Proof.
  apply (snd_ump_packet_length_range 5). lia.
Defined.

Lemma to_dB_range_dispatch_witness :
  snd_tlv_convert_to_dB (h := alsa_tlv_h) 2
    (encode_range (h := alsa_tlv_h) range_example ++ nil) 0 20 15
  = snd_tlv_convert_to_dB (h := alsa_tlv_h) 1
      (encode_entry 1 [4294964396; 100] ++ encode_items nil ++ nil) 11 20 15.
Proof.
  destruct (to_dB_range_dispatch (h := alsa_tlv_h) 1 range_example nil
              0 20 15) as [Hfirst _].
  - alsa_header.
  - unfold range_example, item_ok. repeat constructor; cbn; int_limits; lia.
  - cbn. lia.
  - apply (Hfirst
             [ {| item_min := 0; item_max := 10; item_type := 1;
                  item_data := [4294961296; 300] |} ]
             {| item_min := 11; item_max := 20; item_type := 1;
                item_data := [4294964396; 100] |}
             nil).
    + reflexivity.
    + repeat constructor. unfold holds. cbn. lia.
    + unfold holds. cbn. lia.
Defined.

Lemma db_range_bounds_witness :
  exists lo hi,
    snd_tlv_get_dB_range (h := alsa_tlv_h) 2
      (encode_range (h := alsa_tlv_h) range_example ++ nil) 0 20 None None
    = Some (0, Some lo, Some hi)
    /\ forall volume,
         Exists (holds volume) range_example -> volume <= 20 ->
         exists g,
           snd_tlv_convert_to_dB (h := alsa_tlv_h) 2
             (encode_range (h := alsa_tlv_h) range_example ++ nil)
             0 20 volume
           = Some (Done g)
           /\ lo <= g <= hi.
Proof.
  apply (db_range_bounds (h := alsa_tlv_h) 0 0 range_example nil
           0 20 0 20 None None).
  - alsa_header.
  - alsa_header.
  - discriminate.
  - unfold range_example.
    apply Forall_cons; [| apply Forall_cons; [| apply Forall_nil]].
    + split; [unfold item_ok; cbn; int_limits; lia |].
      split; [cbn; lia |].
      exists (-6000), 300, false.
      split; [intros tail; exists 4294961296, 300; repeat split
             | discriminate].
    + split; [unfold item_ok; cbn; int_limits; lia |].
      split; [cbn; lia |].
      exists (-2900), 100, false.
      split; [intros tail; exists 4294964396, 100; repeat split
             | discriminate].
  - cbn; repeat constructor; cbn; lia.
  - cbn. lia.
  - int_limits. lia.
Defined.

Lemma db_range_round_trip_witness :
  exists db,
    snd_tlv_convert_to_dB (h := alsa_tlv_h) 2
      (encode_range (h := alsa_tlv_h)
         (map (scale_item (h := alsa_tlv_h))
            ([low_scale] ++ high_scale :: nil)) ++ nil)
      0 20 15
    = Some (Done db)
    /\ snd_tlv_convert_from_dB (h := alsa_tlv_h) 2
         (encode_range (h := alsa_tlv_h)
            (map (scale_item (h := alsa_tlv_h))
               ([low_scale] ++ high_scale :: nil)) ++ nil)
         0 20 db 0
       = Some (Done 15).
Proof.
  apply (db_range_round_trip (h := alsa_tlv_h) 0 0 [low_scale] high_scale
           nil nil 0 20 0 20 15 0).
  - alsa_header.
  - alsa_header.
  - split; reflexivity.
  - repeat apply Forall_cons; try apply Forall_nil;
      unfold sr_ok, sr_top; cbn; int_limits; lia.
  - cbn; repeat constructor; cbn; lia.
  - cbn. lia.
  - cbn. lia.
  - lia.
Defined.


(** The examples evaluated. *)
Example tlv_examples :
  snd_tlv_convert_to_dB (h := alsa_tlv_h) 1 db_scale_example 0 63 0
  = Some (Done (-9999999))
  /\ snd_tlv_convert_to_dB (h := alsa_tlv_h) 1 db_scale_example 0 63 1
     = Some (Done (-5900))
  /\ snd_tlv_convert_from_dB (h := alsa_tlv_h) 1 db_scale_example 0 63
       (-5950) 1 = Some (Done 1)
  /\ snd_tlv_convert_from_dB (h := alsa_tlv_h) 1 db_scale_example 0 63
       (-5950) (-1) = Some (Done 0)
  /\ snd_tlv_convert_to_dB (h := alsa_tlv_h) 1 db_minmax_example 0 10 5
     = Some (Done (-1500))
  /\ snd_tlv_parse_dB_info (h := alsa_tlv_h) 3 container_example 0 36 None
     = Some (16, Some 5)
  /\ snd_tlv_parse_dB_info (h := alsa_tlv_h) 3 db_scale_example 0 4 (Some 7)
     = Some (-22, Some 7)
  /\ snd_tlv_parse_dB_info (h := alsa_tlv_h) 3 [0; 12; 255; 4; 7] 0 20 None
     = Some (-2, None)
  /\ snd_tlv_convert_to_dB (h := alsa_tlv_h) 2
       (encode_range (h := alsa_tlv_h) range_example) 0 20 15
     = Some (Done (-2500))
  /\ snd_tlv_convert_to_dB (h := alsa_tlv_h) 2
       (encode_range (h := alsa_tlv_h) range_example) 0 20 21
     = Some (Fail (-22))
  /\ snd_tlv_get_dB_range (h := alsa_tlv_h) 2
       (encode_range (h := alsa_tlv_h) range_example) 0 20 None None
     = Some (0, Some (-6000), Some (-2000))
  /\ snd_tlv_get_dB_range (h := alsa_tlv_h) 2
       (encode_range (h := alsa_tlv_h) range_example) 0 15 None None
     = Some (0, Some (-6000), Some (-2500)).
Proof. repeat split. Qed.

Example range_from_dB_examples :
  let tlv := encode_range (h := alsa_tlv_h)
               (map (scale_item (h := alsa_tlv_h)) [low_scale; high_scale]) in
  snd_tlv_convert_from_dB (h := alsa_tlv_h) 2 tlv 0 20 (-7000) (-1)
  = Some (Done 0)
  /\ snd_tlv_convert_from_dB (h := alsa_tlv_h) 2 tlv 0 20 (-2950) 1
     = Some (Done 11)
  /\ snd_tlv_convert_from_dB (h := alsa_tlv_h) 2 tlv 0 20 (-2950) 0
     = Some (Done 10)
  /\ snd_tlv_convert_from_dB (h := alsa_tlv_h) 2 tlv 0 20 (-2500) 0
     = Some (Done 15)
  /\ snd_tlv_convert_from_dB (h := alsa_tlv_h) 2 tlv 0 20 (-1000) 1
     = Some (Done 20)
  /\ snd_tlv_convert_from_dB (h := alsa_tlv_h) 2 tlv 0 15 (-1000) 1
     = Some (Done 15).
Proof. repeat split. Qed.

Example ump_examples :
  expand_sysex_data [805731967; 16909060] [0; 0; 0; 0; 0; 0; 0] 7 6 8
  = Some (6, [126; 127; 1; 2; 3; 4; 0])
  /\ expand_sysex_data [805731967; 16909060] [9; 9] 0 6 8 = Some (0, [9; 9])
  /\ snd_ump_packet_length 5 = Some 4
  /\ snd_ump_packet_length 16 = None
  /\ snd_ump_packet_length 17 = Some 0.
Proof. repeat split. Qed.
